(** * Verification of the feed-ranking engine (local_recommender_zkp)

    A shallow embedding of the adaptive preference-scoring and
    interest-selection code:

    - [model.js]      : [loadModel], [trainModel], [analyzeInteractions],
                        [analyzeWithoutModel], [findNaturalSplit];
    - [server.js]     : the [GET /api/posts] handler (ranking and noise);
    - [mainbackup.js] : the interaction store and [recordInteraction], the
                        vocabulary ([updateSeenTopicsAndHashtags]) and the
                        earlier [loadModel] and [analyzeInteractions].

    JavaScript numbers are IEEE-754 binary64 values; they are embedded as
    Rocq's primitive [float], whose operations are the same binary64
    operations, so that every concrete run below computes the very numbers
    the program computes. *)

From Stdlib Require Import String Ascii List Bool Arith ZArith Lia.
From Stdlib Require Import Permutation Sorted.
From Stdlib Require Import Floats.
Import ListNotations.

Set Warnings "-inexact-float".

(** ** JavaScript numbers *)

Module JS.

(** [ToBoolean] on a number: [0], [-0] and [NaN] are falsy. *)
Definition truthy (x : float) : bool := negb (is_zero x || is_nan x).

(** [x || d] on an optional numeric field ([None] is [undefined]). *)
Definition or_default (x : option float) (d : float) : float :=
  match x with
  | Some v => if truthy v then v else d
  | None => d
  end.

(** [ToNumber] on an optional numeric field: [undefined] becomes [NaN]. *)
Definition to_number (x : option float) : float :=
  match x with
  | Some v => v
  | None => nan
  end.

(** [a > b] and [a < b]; both are false as soon as one side is [NaN]. *)
Definition gt (a b : float) : bool := (b <? a)%float.
Definition lt (a b : float) : bool := (a <? b)%float.
Definition ge (a b : float) : bool := (b <=? a)%float.
Definition le (a b : float) : bool := (a <=? b)%float.

(** [a !== b] on numbers: [NaN !== x] is true, [0 !== -0] is false. *)
Definition strict_neq (a b : float) : bool := negb (a =? b)%float.

(** [Math.max(a, b)]. *)
Definition max (a b : float) : float :=
  if is_nan a || is_nan b then nan
  else if (a <? b)%float then b
  else if (b <? a)%float then a
  else if get_sign a then b else a.

(** [Math.abs]. *)
Definition abs (a : float) : float := PrimFloat.abs a.

(** The length of an array as a number. Array lengths are below [2^32],
    far inside the range where the conversion is exact. *)
Definition of_nat (n : nat) : float :=
  of_uint63 (Uint63.of_Z (Z.of_nat n)).

(** [Array.prototype.slice(0, e)] for an integer [e]: a negative end counts
    from the end of the array. *)
Definition slice0 {A : Type} (e : Z) (l : list A) : list A :=
  if (e <? 0)%Z
  then firstn (Z.to_nat (Z.max (Z.of_nat (length l) + e) 0)) l
  else firstn (Z.to_nat e) l.

(** [Array.prototype.slice(-k)] for a natural [k]: the last [k] elements. *)
Definition slice_last {A : Type} (k : nat) (l : list A) : list A :=
  skipn (length l - k) l.

End JS.

(** Auxiliary notions on the binary64 representation ([SpecFloat]): the
    least exponent, the integer a mantissa stands for at a lower exponent,
    and the results that are above zero. *)
Module Binary64.

Definition emin64 : Z := SpecFloat.emin prec emax.

Definition mag (m : BinNums.positive) (e ez : Z) : Z := (Zpos m * 2 ^ (e - ez))%Z.

Definition positive_result (x : spec_float) : bool :=
  match x with
  | S754_finite false _ _ | S754_infinity false => true
  | _ => false
  end.

End Binary64.

(** ** JavaScript objects used as string-keyed tables

    [Object.entries] and [Object.values] enumerate string keys in insertion
    order, and assigning to an existing key keeps its position: a table is
    an association list with at most one binding per key. The keys of the
    program are topic names, hashtag names and post identifiers; they are
    taken to be ordinary names (neither canonical array indices, which
    [Object.entries] would move to the front, nor names of members of
    [Object.prototype]). *)

Module Obj.
Section Table.
Context {V : Type}.

Definition t : Type := list (string * V).

Definition empty : t := [].

(** [o[k]] *)
Fixpoint get (o : t) (k : string) : option V :=
  match o with
  | [] => None
  | (k', v) :: o' => if String.eqb k k' then Some v else get o' k
  end.

(** [o[k] = v] *)
Fixpoint set (o : t) (k : string) (v : V) : t :=
  match o with
  | [] => [(k, v)]
  | (k', v') :: o' =>
      if String.eqb k k' then (k', v) :: o' else (k', v') :: set o' k v
  end.

Definition keys (o : t) : list string := map fst o.
Definition values (o : t) : list V := map snd o.
Definition entries (o : t) : list (string * V) := o.

(** [Object.fromEntries(l)]: later bindings overwrite earlier ones. *)
Definition fromEntries (l : list (string * V)) : t :=
  fold_left (fun o kv => set o (fst kv) (snd kv)) l empty.
End Table.
Arguments t : clear implicits.
End Obj.

(** [Array.prototype.includes] on an array of strings. *)
Definition includes (l : list string) (s : string) : bool :=
  existsb (String.eqb s) l.

(** [Array.prototype.sort(cmp)]: ECMAScript's sort is stable, and for a
    consistent comparator its result is the one stable sorted arrangement,
    computed here by insertion. [cmp a b > 0] means that [a] goes after
    [b]. *)
Section Sort.
Context {A : Type} (cmp : A -> A -> float).

Fixpoint sort_insert (x : A) (l : list A) : list A :=
  match l with
  | [] => [x]
  | y :: l' => if JS.gt (cmp x y) 0 then y :: sort_insert x l' else x :: l
  end.

Definition js_sort (l : list A) : list A := fold_right sort_insert [] l.

End Sort.

(** Descending order of a numeric key. *)
Definition descending {A : Type} (key : A -> float) (a b : A) : Prop :=
  (key b <=? key a)%float = true.

(** ** Data model *)

(** One interaction record. The four flags hold the truthiness of the
    JavaScript fields (an absent flag is falsy); the numeric fields are
    [None] while the record has no such field. *)
Record Interaction : Type := mkInteraction {
  postId : string;
  topics : option (list string);
  hashtags : option (list string);
  liked : bool;
  interested : bool;
  not_interested : bool;
  commented : bool;
  timeSpentMs : option float;
  duration : option float;
  timestamp : option float
}.

(** [{ name, weight }] *)
Record WeightedEntry : Type := mkEntry {
  name : string;
  weight : float
}.

(** [{ topics, hashtags }] *)
Record InterestSet : Type := mkInterest {
  is_topics : list WeightedEntry;
  is_hashtags : list WeightedEntry
}.

Definition empty_interest : InterestSet := mkInterest [] [].

(** [inter.topics || []] *)
Definition list_or_empty (o : option (list string)) : list string :=
  match o with
  | Some l => l
  | None => []
  end.

(** ** model.js: constants *)

Definition WEIGHT_LIKED : float := 3.0.
Definition WEIGHT_INTERESTED : float := 2.0.
Definition WEIGHT_NOT_INTERESTED : float := (-4.0)%float.
Definition WEIGHT_COMMENTED : float := 1.5.
Definition MIN_INTERACTIONS : nat := 10.

(** The sum of the boolean terms, common to lines 77-81 and 175-179. *)
Definition booleanScore (inter : Interaction) : float :=
  let score := 0%float in
  let score := if liked inter then (score + WEIGHT_LIKED)%float else score in
  let score := if interested inter then (score + WEIGHT_INTERESTED)%float else score in
  let score := if not_interested inter then (score + WEIGHT_NOT_INTERESTED)%float else score in
  let score := if commented inter then (score + WEIGHT_COMMENTED)%float else score in
  score.

(** ** model.js: [findNaturalSplit]

    [scoreKey] names the field that holds the number of an item. Both calls
    of the program pass ['weight']; the items are weighted entries and the
    field is [weight]. *)

Definition dummy_entry : WeightedEntry := mkEntry EmptyString nan.

(** [items[i].weight] *)
Definition weight_at (items : list WeightedEntry) (i : nat) : float :=
  weight (nth i items dummy_entry).

(** The [for] loop of lines 234-242: [n] iterations are left, [i] is the
    loop index; the result is the final [splitIdx]. The [break] returns. *)
Fixpoint split_loop (items : list WeightedEntry) (gapThreshold : float)
    (n i : nat) (maxGap : float) (splitIdx : nat) : nat :=
  match n with
  | O => splitIdx
  | S n' =>
      let gap := (weight_at items i - weight_at items (i + 1))%float in
      let relativeGap := (gap / weight_at items i)%float in
      if (JS.gt gap maxGap && JS.gt gap gapThreshold) || JS.gt relativeGap 0.4
      then
        if JS.gt relativeGap 0.6 then i + 1
        else split_loop items gapThreshold n' (i + 1) gap (i + 1)
      else split_loop items gapThreshold n' (i + 1) maxGap splitIdx
  end.

Definition findNaturalSplit (items : list WeightedEntry) (minThreshold : float) : nat :=
  if length items <=? 3 then length items
  else
    let gapThreshold := JS.max 0.1 (weight_at items 0 * 0.25)%float in
    let splitIdx :=
      split_loop items gapThreshold (Nat.min (length items - 1) 10) 0 0%float (length items) in
    if splitIdx =? length items
    then Nat.min 5 (length (filter (fun item => JS.gt (weight item) minThreshold) items))
    else splitIdx.

(** ** model.js: [analyzeWithoutModel] *)

(** [{ positive, negative, count }] *)
Record ScoreData : Type := mkScore {
  positive : float;
  negative : float;
  count : float
}.

Definition zero_score : ScoreData := mkScore 0 0 0.

(** Lines 175-182: the scalar reaction of one record. *)
Definition reactionScore (inter : Interaction) : float :=
  let score := booleanScore inter in
  let timeRatio := (JS.to_number (timeSpentMs inter) / JS.or_default (duration inter) 10000)%float in
  let score := if JS.gt timeRatio 0.7 then (score + 1)%float else score in
  let score := if JS.lt timeRatio 0.2 then (score - 1)%float else score in
  score.

(** The body of the two [forEach] callbacks (lines 184-188, 191-195). *)
Definition accumulate (score : float) (scores : Obj.t ScoreData) (key : string)
    : Obj.t ScoreData :=
  match Obj.get scores key with
  | Some d =>
      Obj.set scores key
        (mkScore
           (if JS.gt score 0 then (positive d + score)%float else positive d)
           (if JS.lt score 0 then (negative d + JS.abs score)%float else negative d)
           (count d + 1)%float)
  | None => scores
  end.

(** Lines 168-173: one zeroed accumulator per vocabulary name. *)
Definition init_scores (vocabulary : list string) : Obj.t ScoreData :=
  fold_left (fun o key => Obj.set o key zero_score) vocabulary Obj.empty.

(** Lines 174-197: the loop over the records, on the pair of tables. *)
Definition accumulate_record (tables : Obj.t ScoreData * Obj.t ScoreData)
    (inter : Interaction) : Obj.t ScoreData * Obj.t ScoreData :=
  let score := reactionScore inter in
  let topicScores :=
    fold_left (accumulate score) (list_or_empty (topics inter)) (fst tables) in
  let hashtagScores :=
    fold_left (accumulate score) (list_or_empty (hashtags inter)) (snd tables) in
  (topicScores, hashtagScores).

Definition accumulate_all (interactions : list Interaction)
    (tables : Obj.t ScoreData * Obj.t ScoreData) : Obj.t ScoreData * Obj.t ScoreData :=
  fold_left accumulate_record interactions tables.

(** The same loop, followed on one table only; [field] is [topics] or
    [hashtags]. *)
Definition table (field : Interaction -> option (list string))
    (interactions : list Interaction) (o : Obj.t ScoreData) : Obj.t ScoreData :=
  fold_left (fun o inter =>
               fold_left (accumulate (reactionScore inter)) (list_or_empty (field inter)) o)
            interactions o.

(** Lines 200-206: the composite weight of one table entry. *)
Definition composite (n : nat) (entry : string * ScoreData) : WeightedEntry :=
  let data := snd entry in
  let avg := if JS.gt (count data) 0
             then ((positive data - negative data) / count data)%float
             else 0%float in
  let total := (positive data - negative data)%float in
  mkEntry (fst entry) (avg * 0.6 + (total / JS.max 1 (JS.of_nat n)) * 0.4)%float.

(** [(a, b) => b.weight - a.weight] *)
Definition by_weight_desc (a b : WeightedEntry) : float := (weight b - weight a)%float.

(** Lines 198-209 and 211-221. *)
Definition scored (n : nat) (scores : Obj.t ScoreData) : list WeightedEntry :=
  js_sort by_weight_desc
    (filter (fun item => JS.strict_neq (weight item) 0)
       (map (composite n) (Obj.entries scores))).

(** Lines 223-224. *)
Definition top_entries (l : list WeightedEntry) : list WeightedEntry :=
  firstn 5 (filter (fun item => JS.gt (weight item) 0.1) l).

Definition analyzeWithoutModel (MODEL_TOPICS MODEL_HASHTAGS : list string)
    (interactions : list Interaction) : InterestSet :=
  let tables :=
    accumulate_all interactions (init_scores MODEL_TOPICS, init_scores MODEL_HASHTAGS) in
  let scoredTopics := scored (length interactions) (fst tables) in
  let scoredHashtags := scored (length interactions) (snd tables) in
  mkInterest (top_entries scoredTopics) (top_entries scoredHashtags).

(** ** model.js: training examples (lines 75-98) *)

(** Lines 77-88. *)
Definition preferenceScore (inter : Interaction) : float :=
  let preferenceScore := booleanScore inter in
  if negb (liked inter) && negb (interested inter)
     && negb (not_interested inter) && negb (commented inter)
  then
    let time_watched := JS.or_default (timeSpentMs inter) 0 in
    let duration := JS.or_default (duration inter) 10000 in
    let timeRatio := (time_watched / duration)%float in
    let timeScore := ((timeRatio - 0.5) * 2)%float in
    (preferenceScore + timeScore)%float
  else preferenceScore.

(** Lines 89-92: the class of a score. *)
Definition engagement_of (preferenceScore : float) : nat :=
  if JS.le preferenceScore (-1.5)%float then 0
  else if JS.ge preferenceScore 1.5 then 2
  else 1.

Definition engaged (inter : Interaction) : nat := engagement_of (preferenceScore inter).

(** Lines 94-95: [y = [0, 0, 0]; y[engaged] = 1]. *)
Definition one_hot (engaged : nat) : list float :=
  match engaged with
  | 0 => [1; 0; 0]
  | 1 => [0; 1; 0]
  | 2 => [0; 0; 1]
  | _ => [0; 0; 0]
  end%float.

(** Line 93: the membership vector over the vocabulary. *)
Definition membership (MODEL_TOPICS : list string) (inter : Interaction) : list float :=
  map (fun t => if includes (list_or_empty (topics inter)) t then 1%float else 0%float)
      MODEL_TOPICS.

(** One turn of the loop: a record without a [topics] array is skipped. *)
Definition push_example (MODEL_TOPICS : list string)
    (acc : list (list float) * list (list float)) (inter : Interaction)
    : list (list float) * list (list float) :=
  match topics inter with
  | None => acc
  | Some _ =>
      (fst acc ++ [membership MODEL_TOPICS inter], snd acc ++ [one_hot (engaged inter)])
  end.

Definition build_examples (MODEL_TOPICS : list string) (recentInteractions : list Interaction)
    : list (list float) * list (list float) :=
  fold_left (push_example MODEL_TOPICS) recentInteractions ([], []).

(** ** model.js: the classifier state, [loadModel], [trainModel],
       [analyzeInteractions]

    TensorFlow.js is outside the repository. A model is a value of an
    abstract type; building one, fitting it and predicting with it are
    taken as parameters, each able to fail (a thrown exception or a
    rejected promise is [None]). *)

Section Classifier.

Variable Model : Type.
(** [tf.sequential()], the three [add] and [compile], for an input width. *)
Variable build_model : nat -> option Model.
(** [tfModel.fit(tf.tensor2d(xs), tf.tensor2d(ys), ...)], once settled. *)
Variable fit : Model -> list (list float) -> list (list float) -> option Model.
(** [tfModel.predict(tf.tensor2d(inputs)).arraySync()]. *)
Variable predict : Model -> list (list float) -> option (list (list float)).

(** The module-level variables of lines 5-10. A pending promise is named
    by the number of the run that created it. *)
Record ModelState : Type := mkState {
  tfModel : option Model;
  modelTrained : bool;
  modelTraining : bool;
  modelTrainingPromise : option nat;
  MODEL_TOPICS : list string;
  MODEL_HASHTAGS : list string
}.

Definition set_tfModel (m : option Model) (st : ModelState) : ModelState :=
  mkState m (modelTrained st) (modelTraining st) (modelTrainingPromise st)
          (MODEL_TOPICS st) (MODEL_HASHTAGS st).
Definition set_modelTrained (b : bool) (st : ModelState) : ModelState :=
  mkState (tfModel st) b (modelTraining st) (modelTrainingPromise st)
          (MODEL_TOPICS st) (MODEL_HASHTAGS st).
Definition set_modelTraining (b : bool) (st : ModelState) : ModelState :=
  mkState (tfModel st) (modelTrained st) b (modelTrainingPromise st)
          (MODEL_TOPICS st) (MODEL_HASHTAGS st).
Definition set_modelTrainingPromise (p : option nat) (st : ModelState) : ModelState :=
  mkState (tfModel st) (modelTrained st) (modelTraining st) p
          (MODEL_TOPICS st) (MODEL_HASHTAGS st).

Definition is_some {X : Type} (o : option X) : bool :=
  match o with Some _ => true | None => false end.

(** *** [loadModel] *)

(** Line 22: does [loadModel] suspend on the in-flight training? *)
Definition loadModel_waits (st : ModelState) : bool :=
  modelTraining st && is_some (modelTrainingPromise st).

(** Lines 25-60, run once the wait (if any) is over. An exception while
    the model is built is caught at line 58. *)
Definition loadModel_body (force : bool) (st : ModelState) : ModelState :=
  if negb (is_some (tfModel st)) || force then
    if length (MODEL_TOPICS st) =? 0
    then set_modelTrained false (set_tfModel None st)
    else
      match build_model (length (MODEL_TOPICS st)) with
      | Some m => set_modelTrained false (set_tfModel (Some m) st)
      | None => set_modelTrained false st
      end
  else st.

(** *** [trainModel]

    An [async] function runs until its next [await], then yields; a run
    of [trainModel] is a task that is resumed twice. *)

(** How a block ends. *)
Inductive Completion : Type :=
| Normal (st : ModelState)
| Thrown (st : ModelState).

Inductive TrainTask : Type :=
| AwaitLoad (interactions : list Interaction)
    (** suspended at line 70, [await loadModel(true)] *)
| AwaitFit (m : Model) (xs ys : list (list float))
    (** suspended at line 103, [await tfModel.fit(...)] *)
| Returned
    (** the promise of [trainModel] is fulfilled *)
| Rejected.
    (** the promise of [trainModel] is rejected: an exception escaped *)

(** Lines 114-120: [catch] then [finally], on the completion of the
    [try] block. Neither handler can throw. *)
Definition catch_finally (c : Completion) : ModelState * TrainTask :=
  let st :=
    match c with
    | Normal st => st
    | Thrown st => set_modelTrained false st
    end in
  (set_modelTrainingPromise None (set_modelTraining false st), Returned).

(** The call itself: lines 65-70, up to the first [await]. The guard of
    line 65 has just read [modelTraining] as false, so the wait of line
    22 is not taken and [loadModel(true)] runs through. The [try] block
    is entered, but its [finally] has not run yet when the task yields. *)
Definition trainModel_call (st : ModelState) (interactionsArr : list Interaction)
    : ModelState * TrainTask :=
  if modelTraining st || (length (MODEL_TOPICS st) =? 0) then (st, Returned)
  else
    let interactions := interactionsArr in
    if length interactions <? MIN_INTERACTIONS then (st, Returned)
    else (loadModel_body true st, AwaitLoad interactions).

(** Lines 71-103, resumed after [loadModel(true)]: either the task
    suspends on [fit], or the [try] block completes. [self] numbers the
    run. Calling [fit] on a null [tfModel] throws. *)
Definition trainModel_after_load (self : nat) (st : ModelState)
    (interactions : list Interaction) : ModelState * TrainTask :=
  let st := set_modelTraining true st in
  let st := set_modelTrainingPromise (Some self) st in
  let recentInteractions := JS.slice_last 100 interactions in
  let '(xs, ys) := build_examples (MODEL_TOPICS st) recentInteractions in
  if (0 <? length xs) && (0 <? length (hd [] xs)) then
    match tfModel st with
    | Some m => (st, AwaitFit m xs ys)
    | None => catch_finally (Thrown st)
    end
  else catch_finally (Normal st).

(** Lines 103-112, resumed when [fit] has settled. [fit] updates the model
    in place: after a successful fit the variable [tfModel] holds the
    fitted model. *)
Definition trainModel_after_fit (st : ModelState) (m : Model)
    (xs ys : list (list float)) : ModelState * TrainTask :=
  match fit m xs ys with
  | Some m' => catch_finally (Normal (set_modelTrained true (set_tfModel (Some m') st)))
  | None => catch_finally (Thrown st)
  end.

(** Resuming a task. *)
Definition resume (self : nat) (st : ModelState) (t : TrainTask)
    : ModelState * TrainTask :=
  match t with
  | AwaitLoad interactions => trainModel_after_load self st interactions
  | AwaitFit m xs ys => trainModel_after_fit st m xs ys
  | Returned => (st, Returned)
  | Rejected => (st, Rejected)
  end.

(** One invocation with nothing else interleaved: the call and its two
    resumptions. *)
Definition trainModel (st : ModelState) (interactionsArr : list Interaction)
    : ModelState * TrainTask :=
  let '(st1, t1) := trainModel_call st interactionsArr in
  let '(st2, t2) := resume 0 st1 t1 in
  resume 0 st2 t2.

(** *** Several runs of [trainModel]

    The event loop interleaves the tasks at their [await]s. A
    configuration holds the module state, the tasks started so far (a run
    is numbered by its position) and the number of calls of
    [tfModel.fit] made so far. *)

Record Config : Type := mkConfig {
  cstate : ModelState;
  tasks : list TrainTask;
  fitCalls : nat
}.

Inductive Action : Type :=
| Trigger (interactionsArr : list Interaction)  (** [trainModel(...)] is called *)
| Resume (run : nat).                           (** the awaited promise of a run settles *)

Definition awaits_fit (t : TrainTask) : bool :=
  match t with AwaitFit _ _ _ => true | _ => false end.

Definition awaits_load (t : TrainTask) : bool :=
  match t with AwaitLoad _ => true | _ => false end.

Definition in_flight (t : TrainTask) : bool := awaits_fit t || awaits_load t.

Definition returned (t : TrainTask) : bool :=
  match t with Returned => true | _ => false end.

Fixpoint replace_nth {X : Type} (n : nat) (x : X) (l : list X) : list X :=
  match l, n with
  | [], _ => []
  | _ :: l', O => x :: l'
  | y :: l', S n' => y :: replace_nth n' x l'
  end.

Definition step (c : Config) (a : Action) : Config :=
  match a with
  | Trigger interactionsArr =>
      let '(st, t) := trainModel_call (cstate c) interactionsArr in
      mkConfig st (tasks c ++ [t]) (fitCalls c)
  | Resume run =>
      match nth_error (tasks c) run with
      | Some t =>
          let '(st, t') := resume run (cstate c) t in
          mkConfig st (replace_nth run t' (tasks c))
                   (if awaits_load t && awaits_fit t' then S (fitCalls c) else fitCalls c)
      | None => c
      end
  end.

Definition run_actions (c : Config) (l : list Action) : Config := fold_left step l c.

Definition quiescent (st : ModelState) : Config := mkConfig st [] 0.

(** While the flag is set, some run is awaiting [fit]. *)
Definition flag_owned (c : Config) : Prop :=
  modelTraining (cstate c) = true -> existsb awaits_fit (tasks c) = true.

(** *** [analyzeInteractions] *)

Inductive AnalyzeResult : Type :=
| Fulfilled (st : ModelState) (result : InterestSet)
| Failed (st : ModelState)        (** an exception rejects the promise *)
| Suspended (promise : nat).      (** waiting, inside [loadModel], for a training run *)

(** [preds[i][2] - preds[i][0]]; reading a missing row throws, a missing
    column is [undefined]. *)
Definition contrast (preds : list (list float)) (i : nat) : option float :=
  match nth_error preds i with
  | Some row => Some (JS.to_number (nth_error row 2) - JS.to_number (nth_error row 0))%float
  | None => None
  end.

(** [names.map((t, i) => ({ name: t, weight: preds[i][2] - preds[i][0] }))] *)
Fixpoint score_names (preds : list (list float)) (i : nat) (names : list string)
    : option (list WeightedEntry) :=
  match names with
  | [] => Some []
  | t :: names' =>
      match contrast preds i, score_names preds (S i) names' with
      | Some w, Some rest => Some (mkEntry t w :: rest)
      | _, _ => None
      end
  end.

(** Lines 140-142 and 158-160. *)
Definition select (scored : list WeightedEntry) : list WeightedEntry :=
  let scored := js_sort by_weight_desc scored in
  let splitIdx := findNaturalSplit scored 0.1 in
  filter (fun e => JS.gt (weight e) 0.1) (firstn splitIdx scored).

(** Lines 130-132: one one-hot row per topic. *)
Definition topicInputs (n : nat) : list (list float) :=
  map (fun i => map (fun j => if i =? j then 1%float else 0%float) (seq 0 n)) (seq 0 n).

(** Lines 144-150: the topics a hashtag has occurred with. *)
Definition hashtagInputs (st : ModelState) (interactions : list Interaction)
    : list (list float) :=
  map (fun h =>
         map (fun t =>
                if existsb (fun inter =>
                              includes (list_or_empty (hashtags inter)) h
                              && includes (list_or_empty (topics inter)) t)
                           interactions
                then 1%float else 0%float)
             (MODEL_TOPICS st))
      (MODEL_HASHTAGS st).

(** Lines 129-161, once [loadModel(false)] is past its wait. *)
Definition analyze_with_model (st : ModelState) (interactions : list Interaction)
    : AnalyzeResult :=
  let st := loadModel_body false st in
  match tfModel st with
  | None => Failed st
  | Some m =>
      match predict m (topicInputs (length (MODEL_TOPICS st))) with
      | None => Failed st
      | Some topicPreds =>
          match score_names topicPreds 0 (MODEL_TOPICS st) with
          | None => Failed st
          | Some scoredTopics =>
              let topTopics := select scoredTopics in
              match predict m (hashtagInputs st interactions) with
              | None => Failed st
              | Some hashtagPreds =>
                  match score_names hashtagPreds 0 (MODEL_HASHTAGS st) with
                  | None => Failed st
                  | Some scoredHashtags =>
                      Fulfilled st (mkInterest topTopics (select scoredHashtags))
                  end
              end
          end
      end
  end.

Definition analyzeInteractions (st : ModelState) (interactionsArr : list Interaction)
    : AnalyzeResult :=
  let interactions := interactionsArr in
  if length (MODEL_TOPICS st) =? 0 then Fulfilled st empty_interest
  else if length interactions <? MIN_INTERACTIONS then Fulfilled st empty_interest
  else if negb (modelTrained st)
  then Fulfilled st (analyzeWithoutModel (MODEL_TOPICS st) (MODEL_HASHTAGS st) interactions)
  else
    match loadModel_waits st, modelTrainingPromise st with
    | true, Some p => Suspended p
    | _, _ => analyze_with_model st interactions
    end.

End Classifier.

Arguments mkState {Model}.
Arguments tfModel {Model}.
Arguments modelTrained {Model}.
Arguments modelTraining {Model}.
Arguments modelTrainingPromise {Model}.
Arguments MODEL_TOPICS {Model}.
Arguments MODEL_HASHTAGS {Model}.
Arguments set_tfModel {Model}.
Arguments set_modelTrained {Model}.
Arguments set_modelTraining {Model}.
Arguments set_modelTrainingPromise {Model}.
Arguments loadModel_waits {Model}.
Arguments loadModel_body {Model}.
Arguments Normal {Model}.
Arguments Thrown {Model}.
Arguments AwaitLoad {Model}.
Arguments AwaitFit {Model}.
Arguments Returned {Model}.
Arguments Rejected {Model}.
Arguments catch_finally {Model}.
Arguments trainModel_call {Model}.
Arguments trainModel_after_load {Model}.
Arguments trainModel_after_fit {Model}.
Arguments resume {Model}.
Arguments trainModel {Model}.
Arguments mkConfig {Model}.
Arguments cstate {Model}.
Arguments tasks {Model}.
Arguments fitCalls {Model}.
Arguments awaits_fit {Model}.
Arguments awaits_load {Model}.
Arguments in_flight {Model}.
Arguments returned {Model}.
Arguments step {Model}.
Arguments run_actions {Model}.
Arguments quiescent {Model}.
Arguments flag_owned {Model}.
Arguments Fulfilled {Model}.
Arguments Failed {Model}.
Arguments Suspended {Model}.
Arguments hashtagInputs {Model}.
Arguments analyze_with_model {Model}.
Arguments analyzeInteractions {Model}.

(** ** Content items *)

(** The fields of a post the engine reads; [None] is an absent field. *)
Record Post : Type := mkPost {
  id : option string;
  post_topics : option (list string);
  post_hashtags : option (list string)
}.

(** ** server.js: the [GET /api/posts] handler *)

Module Server.

(** [Math.floor] of a finite number, as an integer. *)
Definition floor (x : float) : Z :=
  match Prim2SF x with
  | S754_finite s m e =>
      let v := if s then Z.neg m else Z.pos m in
      if (0 <=? e)%Z then (v * 2 ^ e)%Z else (v / 2 ^ (- e))%Z
  | _ => 0%Z
  end.

(** An integer as a number. *)
Definition of_Z (z : Z) : float :=
  if (z <? 0)%Z then (- of_uint63 (Uint63.of_Z (- z)))%float
  else of_uint63 (Uint63.of_Z z).

(** The parsed [topics] or [hashtags] parameter: an array of
    [{ name, weight }] objects (what [analyzeInteractions] sends, and what
    the comma-separated fallback of lines 54 and 63 builds), or an array of
    plain names. *)
Inductive Interest : Type :=
| Weighted (l : list WeightedEntry)
| Names (l : list string).

Definition interest_length (u : Interest) : nat :=
  match u with
  | Weighted l => length l
  | Names l => length l
  end.

(** [u.length && typeof u[0] === 'object'] *)
Definition carries_weights (u : Interest) : bool :=
  match u with
  | Weighted (_ :: _) => true
  | _ => false
  end.

(** [Object.fromEntries(u.map(t => [t.name, t.weight]))]. On plain names
    every [t.name] and [t.weight] is [undefined]: the table then answers
    [undefined] to every lookup, as the empty table does. *)
Definition weightMap (u : Interest) : Obj.t float :=
  match u with
  | Weighted l => Obj.fromEntries (map (fun t => (name t, weight t)) l)
  | Names _ => Obj.empty
  end.

(** [names.reduce((sum, t) => sum + (map[t] || 0), 0)] *)
Definition matched_sum (m : Obj.t float) (names : list string) : float :=
  fold_left (fun sum t => (sum + JS.or_default (Obj.get m t) 0)%float) names 0%float.

(** Lines 73-79. *)
Definition post_score (topicWeightMap hashtagWeightMap : Obj.t float) (post : Post) : float :=
  let score := 0%float in
  let score :=
    match post_topics post with
    | Some (t :: ts) => (score + matched_sum topicWeightMap (t :: ts))%float
    | _ => score
    end in
  let score :=
    match post_hashtags post with
    | Some (h :: hs) => (score + matched_sum hashtagWeightMap (h :: hs))%float
    | _ => score
    end in
  score.

(** A post of the pool together with its position in [posts], which stands
    for the identity of the object ([includes] compares references). *)
Definition Candidate : Type := (nat * Post)%type.

Definition pool (posts : list Post) : list Candidate :=
  combine (seq 0 (length posts)) posts.

(** [l.includes(post)] *)
Definition includes_post (l : list Candidate) (c : Candidate) : bool :=
  existsb (fun d => fst d =? fst c) l.

(** [(a, b) => b.score - a.score] *)
Definition by_score_desc (a b : Candidate * float) : float := (snd b - snd a)%float.

(** [has(u, names)]: [names.some(t => u.includes(t.name || t))] of the
    name-only path; a post topic is a string, so [t.name || t] is [t]. *)
Definition name_match (u : Interest) (names : option (list string)) : bool :=
  match u, names with
  | Names l, Some ns => (0 <? length l) && existsb (fun t => includes l t) ns
  | _, _ => false
  end.

Section Handler.

(** [.sort(() => 0.5 - Math.random())] rearranges an array; which
    arrangement comes out is not determined. The two uses are taken as
    parameters. *)
Variable shuffle_noise : list Candidate -> list Candidate.
Variable shuffle_batch : list Candidate -> list Candidate.

(** Lines 72-82: every post with its score, sorted by descending score. *)
Definition ranked (posts : list Post) (userTopics userHashtags : Interest)
    : list (Candidate * float) :=
  let topicWeightMap := weightMap userTopics in
  let hashtagWeightMap := weightMap userHashtags in
  js_sort by_score_desc
    (map (fun c => (c, post_score topicWeightMap hashtagWeightMap (snd c)))
         (pool posts)).

(** Lines 83-84: the relevant core. *)
Definition relevant (posts : list Post) (userTopics userHashtags : Interest) (limit : Z)
    : list Candidate :=
  map fst (JS.slice0 (limit * 2) (ranked posts userTopics userHashtags)).

(** Lines 86-89 (and 99-102). *)
Definition noiseCount (limit : Z) : Z := floor (of_Z limit * 0.3)%float.

Definition excluded (posts : list Post) (filtered : list Candidate) : list Candidate :=
  filter (fun c => negb (includes_post filtered c)) (pool posts).

Definition noise (posts : list Post) (filtered : list Candidate) (limit : Z)
    : list Candidate :=
  JS.slice0 (noiseCount limit) (shuffle_noise (excluded posts filtered)).

(** Lines 67-104: the candidates before the final shuffle. *)
Definition filtered (posts : list Post) (userTopics userHashtags : Interest) (limit : Z)
    : list Candidate :=
  if carries_weights userTopics || carries_weights userHashtags then
    let filtered := relevant posts userTopics userHashtags limit in
    filtered ++ noise posts filtered limit
  else if (0 <? interest_length userTopics) || (0 <? interest_length userHashtags) then
    let filtered :=
      filter (fun c => name_match userTopics (post_topics (snd c))
                       || name_match userHashtags (post_hashtags (snd c)))
             (pool posts) in
    filtered ++ noise posts filtered limit
  else pool posts.

(** Line 40: [parseInt(req.query.limit) || 10]; [None] is [NaN]. *)
Definition parse_limit (q : option Z) : Z :=
  match q with
  | Some n => if (n =? 0)%Z then 10%Z else n
  | None => 10%Z
  end.

(** The response: [{ posts: batch, limit, total }]. *)
Record Response : Type := mkResponse {
  r_posts : list Candidate;
  r_limit : Z;
  r_total : nat
}.

(** Lines 38-113, after the parameters are parsed. *)
Definition handler (posts : list Post) (limitParam : option Z)
    (userTopics userHashtags : Interest) : Response :=
  let limit := parse_limit limitParam in
  let filtered := filtered posts userTopics userHashtags limit in
  let shuffled := shuffle_batch filtered in
  let batch := JS.slice0 limit shuffled in
  mkResponse batch limit (length posts).

End Handler.
End Server.


(** ** mainbackup.js: the interaction store

    The store is the object [interactions], keyed by post identifier,
    together with the two variables that time a view. [Date.now()] is an
    input of each operation (one reading per operation). The calls
    [trainModel(interactions)] and [resetIdleTimer()] that end
    [recordInteraction] read the store without writing to it; they are left
    out of the store's transitions. *)

Module Store.

Record State : Type := mkStore {
  interactions : Obj.t Interaction;
  lastViewedPostId : option string;
  postViewStartTime : option float
}.

Definition initial : State := mkStore Obj.empty None None.

(** The property key [interactions[post.id]] reads: an absent identifier
    is the key ["undefined"]. *)
Definition key_of (i : option string) : string :=
  match i with
  | Some s => s
  | None => "undefined"
  end.

(** [!post.id] *)
Definition falsy_id (i : option string) : bool :=
  match i with
  | Some s => String.eqb s ""
  | None => true
  end.

(** The record literal of lines 430-439 (and of lines 263 and 273). *)
Definition fresh_record (post : Post) (now : float) : Interaction :=
  mkInteraction (key_of (id post)) (post_topics post) (post_hashtags post)
                false false false false None None (Some now).

(** [if (!interactions[k]) interactions[k] = r] *)
Definition ensure (o : Obj.t Interaction) (k : string) (r : Interaction)
    : Obj.t Interaction :=
  match Obj.get o k with
  | Some _ => o
  | None => Obj.set o k r
  end.

(** In-place update of the record under a key that is present. *)
Definition update (o : Obj.t Interaction) (k : string) (f : Interaction -> Interaction)
    : Obj.t Interaction :=
  match Obj.get o k with
  | Some r => Obj.set o k (f r)
  | None => o
  end.

Definition with_interest (i n : bool) (r : Interaction) : Interaction :=
  mkInteraction (postId r) (topics r) (hashtags r) (liked r) i n (commented r)
                (timeSpentMs r) (duration r) (timestamp r).
Definition with_liked (b : bool) (r : Interaction) : Interaction :=
  mkInteraction (postId r) (topics r) (hashtags r) b (interested r) (not_interested r)
                (commented r) (timeSpentMs r) (duration r) (timestamp r).
Definition with_commented (b : bool) (r : Interaction) : Interaction :=
  mkInteraction (postId r) (topics r) (hashtags r) (liked r) (interested r)
                (not_interested r) b (timeSpentMs r) (duration r) (timestamp r).
Definition with_timeSpentMs (t : option float) (r : Interaction) : Interaction :=
  mkInteraction (postId r) (topics r) (hashtags r) (liked r) (interested r)
                (not_interested r) (commented r) t (duration r) (timestamp r).
Definition with_timestamp (t : option float) (r : Interaction) : Interaction :=
  mkInteraction (postId r) (topics r) (hashtags r) (liked r) (interested r)
                (not_interested r) (commented r) (timeSpentMs r) (duration r) t.

(** [if (!r.timeSpentMs) r.timeSpentMs = 0; r.timeSpentMs += spent] *)
Definition add_time (spent : float) (r : Interaction) : Interaction :=
  let current := JS.or_default (timeSpentMs r) 0 in
  with_timeSpentMs (Some (current + spent)%float) r.

(** Lines 441-447. *)
Definition apply_type (type : string) (r : Interaction) : Interaction :=
  if String.eqb type "interested" then with_interest true false r
  else if String.eqb type "not_interested" then with_interest false true r
  else r.

(** Lines 426-463: [recordInteraction(type, post)]. *)
Definition recordInteraction (type : string) (post : Post) (now : float) (s : State)
    : State :=
  if falsy_id (id post) then s
  else
    let k := key_of (id post) in
    let o := ensure (interactions s) k (fresh_record post now) in
    let o := update o k (apply_type type) in
    let timed :=
      match lastViewedPostId s, postViewStartTime s with
      | Some l, Some start => String.eqb l k && JS.truthy start
      | _, _ => false
      end in
    let o :=
      if timed
      then update o k (add_time (now - JS.to_number (postViewStartTime s))%float)
      else o in
    let start := if timed then Some now else postViewStartTime s in
    let o := update o k (with_timestamp (Some now)) in
    mkStore o (lastViewedPostId s) start.

(** Lines 261-269: the like button. *)
Definition like (post : Post) (now : float) (s : State) : State :=
  let k := key_of (id post) in
  let o := ensure (interactions s) k (fresh_record post now) in
  let o := update o k (fun r => with_liked (negb (liked r)) r) in
  let o := update o k (with_timestamp (Some now)) in
  mkStore o (lastViewedPostId s) (postViewStartTime s).

(** Lines 272-281: the comment button. *)
Definition comment (post : Post) (now : float) (s : State) : State :=
  let k := key_of (id post) in
  let o := ensure (interactions s) k (fresh_record post now) in
  let o :=
    match Obj.get o k with
    | Some r =>
        if commented r then o
        else update (update o k (with_commented true)) k (with_timestamp (Some now))
    | None => o
    end in
  mkStore o (lastViewedPostId s) (postViewStartTime s).

(** Lines 288-306: [recordTimeSpentOnCurrentPost()]. The record it creates
    has only [postId], [timeSpentMs] and [timestamp]. *)
Definition recordTimeSpentOnCurrentPost (now : float) (s : State) : State :=
  match lastViewedPostId s, postViewStartTime s with
  | Some l, Some start =>
      if negb (String.eqb l "") && JS.truthy start then
        let spent := (now - start)%float in
        let o :=
          match Obj.get (interactions s) l with
          | None =>
              Obj.set (interactions s) l
                (mkInteraction l None None false false false false
                               (Some spent) None (Some now))
          | Some _ => update (interactions s) l (add_time spent)
          end in
        mkStore o (lastViewedPostId s) (postViewStartTime s)
      else s
  | _, _ => s
  end.

(** Lines 316-317 of [showPost]: a view starts. *)
Definition startView (post : Post) (now : float) (s : State) : State :=
  mkStore (interactions s) (id post) (Some now).

(** What the presentation layer delivers. *)
Inductive Event : Type :=
| Record_ (type : string) (post : Post) (now : float)
| Like (post : Post) (now : float)
| Comment (post : Post) (now : float)
| TimeSpent (now : float)
| StartView (post : Post) (now : float).

Definition apply (s : State) (e : Event) : State :=
  match e with
  | Record_ type post now => recordInteraction type post now s
  | Like post now => like post now s
  | Comment post now => comment post now s
  | TimeSpent now => recordTimeSpentOnCurrentPost now s
  | StartView post now => startView post now s
  end.

Definition run (s : State) (l : list Event) : State := fold_left apply l s.

(** The two interest flags of a record, and of the record under a key, if
    there is one. *)
Definition flags (r : Interaction) : bool * bool := (interested r, not_interested r).

Definition flags_at (s : State) (k : string) : option (bool * bool) :=
  option_map flags (Obj.get (interactions s) k).

(** Is the event an ['interested'] or ['not_interested'] recording? *)
Definition records_interest (e : Event) : bool :=
  match e with
  | Record_ type _ _ => String.eqb type "interested" || String.eqb type "not_interested"
  | _ => false
  end.

(** Every record of the store satisfies [P]. *)
Definition all_records (P : Interaction -> Prop) (o : Obj.t Interaction) : Prop :=
  forall k r, Obj.get o k = Some r -> P r.

(** [interested] and [not_interested] are not both set. *)
Definition exclusive (r : Interaction) : Prop :=
  interested r && not_interested r = false.

End Store.

(** ** The formulas of the specification, for comparison with the code *)

Module Spec.

(** The bracket [[b]]: [1] when the signal is set, [0] otherwise. *)
Definition iverson (b : bool) : float := if b then 1%float else 0%float.

Definition any_signal (inter : Interaction) : bool :=
  liked inter || interested inter || not_interested inter || commented inter.

(** [WEIGHT_LIKED·[liked] + WEIGHT_INTERESTED·[interested]
     + WEIGHT_NOT_INTERESTED·[notInterested] + WEIGHT_COMMENTED·[commented]],
    with liked +3.0, interested +2.0, not_interested −4.0, commented +1.5. *)
Definition booleanTerms (inter : Interaction) : float :=
  (3.0 * iverson (liked inter) + 2.0 * iverson (interested inter)
   + (-4.0) * iverson (not_interested inter) + 1.5 * iverson (commented inter))%float.

(** [timeScore = (timeSpentMs/duration − 0.5) × 2] on the fields as they
    are. *)
Definition timeScore (inter : Interaction) : float :=
  ((JS.to_number (timeSpentMs inter) / JS.to_number (duration inter) - 0.5) * 2)%float.

(** The same signal with the defaults of [trainModel]: no time spent
    counts as [0], no duration as [10000]. *)
Definition timeScore_defaulted (inter : Interaction) : float :=
  ((JS.or_default (timeSpentMs inter) 0 / JS.or_default (duration inter) 10000 - 0.5) * 2)%float.

(** The preference score: the boolean terms, or, when no signal is set,
    the time signal instead. *)
Definition preferenceScore (inter : Interaction) : float :=
  if any_signal inter then booleanTerms inter else timeScore_defaulted inter.

(** [≤ −1.5 → negative (0)], [≥ 1.5 → positive (2)], else [neutral (1)]. *)
Definition label (inter : Interaction) : nat :=
  if (preferenceScore inter <=? -1.5)%float then 0
  else if (1.5 <=? preferenceScore inter)%float then 2
  else 1.

(** [weight = 0.6·avg + 0.4·(total / max(1, totalInteractionCount))] with
    [avg = count>0 ? (positive − negative) / count : 0] and
    [total = positive − negative]. *)
Definition weight_of (totalInteractionCount : nat) (d : ScoreData) : float :=
  let avg := if (0 <? count d)%float
             then ((positive d - negative d) / count d)%float
             else 0%float in
  let total := (positive d - negative d)%float in
  (0.6 * avg + 0.4 * (total / JS.max 1 (JS.of_nat totalInteractionCount)))%float.

(** The step bonus the rule-based scorer adds for the time spent. *)
Definition timeRatio (inter : Interaction) : float :=
  (JS.to_number (timeSpentMs inter) / JS.or_default (duration inter) 10000)%float.

(** What one record adds to the accumulator of [key]: lines 185-187, once
    per occurrence of [key] among the record's names. *)
Definition bump (score : float) (d : ScoreData) : ScoreData :=
  mkScore
    (if JS.gt score 0 then (positive d + score)%float else positive d)
    (if JS.lt score 0 then (negative d + JS.abs score)%float else negative d)
    (count d + 1)%float.

(** The accumulator of one vocabulary name: [positive] sums the positive
    reactions, [negative] the absolute values of the negative ones and
    [count] the occurrences, over the records whose names ([topics] or
    [hashtags], by [field]) include it. *)
Definition tally (field : Interaction -> option (list string)) (key : string)
    (interactions : list Interaction) : ScoreData :=
  fold_left
    (fun d inter =>
       fold_left (fun d name => if String.eqb name key then bump (reactionScore inter) d else d)
                 (list_or_empty (field inter)) d)
    interactions zero_score.

(** The entry the specification describes for one vocabulary name. *)
Definition entry_of (field : Interaction -> option (list string))
    (interactions : list Interaction) (key : string) : WeightedEntry :=
  mkEntry key (weight_of (length interactions) (tally field key interactions)).

(** Drop weight 0, sort descending, keep at most 5 above 0.1. *)
Definition selection (field : Interaction -> option (list string))
    (vocabulary : list string) (interactions : list Interaction) : list WeightedEntry :=
  firstn 5
    (filter (fun e => (0.1 <? weight e)%float)
       (js_sort by_weight_desc
          (filter (fun e => negb (weight e =? 0)%float)
             (map (entry_of field interactions) vocabulary)))).

(** A record with the names outside the vocabulary removed. *)
Definition known_only (MODEL_TOPICS MODEL_HASHTAGS : list string) (inter : Interaction)
    : Interaction :=
  mkInteraction (postId inter)
    (option_map (filter (includes MODEL_TOPICS)) (topics inter))
    (option_map (filter (includes MODEL_HASHTAGS)) (hashtags inter))
    (liked inter) (interested inter) (not_interested inter) (commented inter)
    (timeSpentMs inter) (duration inter) (timestamp inter).

End Spec.

(** ** Concrete inputs *)

Module Examples.

(** The list of the specification's determinism example. *)
Definition abcd : list WeightedEntry :=
  [mkEntry "a" 0.9; mkEntry "b" 0.85; mkEntry "c" 0.3; mkEntry "d" 0.28].

(** A record with the given flags, time spent and duration, on topic
    ["sports"%string]. *)
Definition record (l i n c : bool) (t d : option float) : Interaction :=
  mkInteraction "p1" (Some ["sports"%string]) (Some ["#ball"%string]) l i n c t d None.

(** Viewed for 8 of 10 seconds, no signal. *)
Definition viewed_long : Interaction :=
  record false false false false (Some 8000%float) (Some 10000%float).

(** Liked, and viewed for 8 of 10 seconds. *)
Definition liked_long : Interaction :=
  record true false false false (Some 8000%float) (Some 10000%float).

(** Commented, and left at once. *)
Definition commented_short : Interaction :=
  record false false false true (Some 0%float) (Some 10000%float).

(** Ten records on ["sports"%string], liked. *)
Definition ten_liked : list Interaction :=
  repeat (record true false false false (Some 5000%float) None) 10.

(** Ten liked records on ["sports"] and ten not-interested records on
    ["politics"]. *)
Definition sports_and_politics : list Interaction :=
  repeat (mkInteraction "p1" (Some ["sports"%string]) None
                        true false false false (Some 5000%float) None None) 10
  ++ repeat (mkInteraction "p2" (Some ["politics"%string]) None
                           false false true false (Some 5000%float) None None) 10.

(** Ten records that carry no [topics] array. *)
Definition ten_without_topics : list Interaction :=
  repeat (mkInteraction "p1" None None true false false false None None None) 10.

(** A stand-in for TensorFlow.js: a model is the number of fits it has
    been through, fitting always succeeds, prediction is uniform. *)
Definition toy_build (n : nat) : option nat := Some 0.
Definition toy_fit (m : nat) (xs ys : list (list float)) : option nat := Some (S m).
Definition toy_predict (m : nat) (inputs : list (list float)) : option (list (list float)) :=
  Some (map (fun _ => [0.2; 0.3; 0.5]%float) inputs).

(** A fit that always rejects. *)
Definition failing_fit (m : nat) (xs ys : list (list float)) : option nat := None.

Definition untrained (vocabulary hashtags : list string) : ModelState nat :=
  mkState None false false None vocabulary hashtags.

(** Five posts; the first two are about ["sports"%string]. *)
Definition five_posts : list Post :=
  [mkPost (Some "p0"%string) (Some ["sports"%string]) (Some ["#ball"%string]);
   mkPost (Some "p1"%string) (Some ["sports"%string]) None;
   mkPost (Some "p2"%string) (Some ["politics"%string]) None;
   mkPost (Some "p3"%string) (Some ["food"%string]) (Some ["#pasta"%string]);
   mkPost (Some "p4"%string) None None].

Definition likes_sports : Server.Interest := Server.Weighted [mkEntry "sports" 0.8].

End Examples.

(** ** mainbackup.js: the vocabulary

    [seenTopics] and [seenHashtags] are [Set]s; a [Set] keeps its elements
    in insertion order and [Array.from] lists them in that order: a set is
    a list in which [add] appends an element that is not there yet. *)

Module Vocabulary.

(** [s.add(x)] *)
Definition set_add (s : list string) (x : string) : list string :=
  if includes s x then s else s ++ [x].

Record State : Type := mkVocabulary {
  seenTopics : list string;
  seenHashtags : list string;
  MODEL_TOPICS : list string;
  MODEL_HASHTAGS : list string
}.

Definition initial : State := mkVocabulary [] [] [] [].

(** Lines 22-23: one post of the batch. *)
Definition see_post (seen : list string * list string) (post : Post)
    : list string * list string :=
  (fold_left set_add (list_or_empty (post_topics post)) (fst seen),
   fold_left set_add (list_or_empty (post_hashtags post)) (snd seen)).

(** Lines 20-27: [updateSeenTopicsAndHashtags(postsBatch)]. *)
Definition updateSeenTopicsAndHashtags (postsBatch : list Post) (v : State) : State :=
  let seen := fold_left see_post postsBatch (seenTopics v, seenHashtags v) in
  mkVocabulary (fst seen) (snd seen) (fst seen) (snd seen).

(** The batches received so far, oldest first. *)
Definition receive (v : State) (batches : list (list Post)) : State :=
  fold_left (fun v postsBatch => updateSeenTopicsAndHashtags postsBatch v) batches v.

End Vocabulary.

(** ** mainbackup.js: the earlier [loadModel] and [analyzeInteractions]

    The backup keeps the first version of the analyzer (lines 29-45 and
    102-167). It rebuilds the model before every analysis, reads one
    prediction for the vector of topic counts, and ranks hashtags by how
    often they occur. It runs in the page; the plot it draws (lines 126-137)
    changes the document only and is left out, except that it reads
    [score.toFixed], which throws when the prediction has no third
    column. *)

Module Backup.

(** [{ topics, hashtags }], two arrays of names. *)
Record InterestNames : Type := mkNames {
  n_topics : list string;
  n_hashtags : list string
}.

(** The loops of lines 138-146 and 156-164: [n] turns are left, [i] is the
    index; an item counts only above [floor] ([0.1] for topic scores, [0]
    for hashtag counts). *)
Fixpoint gap_loop (scores : list float) (floor : float) (n i : nat)
    (maxGap : float) (splitIdx : nat) : nat :=
  match n with
  | O => splitIdx
  | S n' =>
      let gap := (nth i scores nan - nth (i + 1) scores nan)%float in
      if JS.gt gap maxGap && JS.gt (nth i scores nan) floor
      then gap_loop scores floor n' (i + 1) gap (i + 1)
      else gap_loop scores floor n' (i + 1) maxGap splitIdx
  end.

(** [(a, b) => b.score - a.score] and [(a, b) => b.count - a.count] *)
Definition by_number_desc (a b : string * float) : float := (snd b - snd a)%float.

(** Sort by descending number, cut at the largest drop, keep what is above
    [floor], return the names: lines 124 and 138-147, 155-165. *)
Definition cut_at_largest_drop (floor : float) (items : list (string * float))
    : list string :=
  let sorted := js_sort by_number_desc items in
  let splitIdx :=
    gap_loop (map snd sorted) floor (length sorted - 1) 0 0%float (length sorted) in
  map fst (filter (fun e => JS.gt (snd e) floor) (firstn splitIdx sorted)).

(** Lines 111-113: how many records mention each topic. *)
Definition topicCounts (MODEL_TOPICS : list string) (interactions : list Interaction)
    : list float :=
  map (fun t =>
         fold_left (fun sum i =>
                      (sum + (if includes (list_or_empty (topics i)) t
                              then 1 else 0))%float)
                   interactions 0%float)
      MODEL_TOPICS.

(** Lines 150-153: [hashtagCounts[h] = (hashtagCounts[h] || 0) + 1]. *)
Definition count_hashtag (counts : Obj.t float) (h : string) : Obj.t float :=
  Obj.set counts h (JS.or_default (Obj.get counts h) 0 + 1)%float.

Definition hashtagCounts (interactions : list Interaction) : Obj.t float :=
  fold_left (fun counts inter => fold_left count_hashtag (list_or_empty (hashtags inter)) counts)
            interactions Obj.empty.

Section Analyzer.

Variable Model : Type.
(** [tf.sequential()], [add] and [compile]; [None] when one of them throws. *)
Variable build_model : nat -> option Model.
(** [tfModel.predict(tf.tensor([topicCounts])).arraySync()]. *)
Variable predict : Model -> list (list float) -> option (list (list float)).

Inductive AnalyzeResult : Type :=
| Fulfilled (st : ModelState Model) (result : InterestNames)
| Failed                       (** an exception rejects the promise *)
| Suspended (promise : nat).   (** waiting, inside [loadModel], for a training run *)

(** Lines 34-44 of [loadModel], past its wait; it has no [try]: [None]
    is an exception. *)
Definition loadModel_body (force : bool) (st : ModelState Model)
    : option (ModelState Model) :=
  if negb (is_some (tfModel st)) || force then
    if length (MODEL_TOPICS st) =? 0
    then Some (set_modelTrained false (set_tfModel None st))
    else
      match build_model (length (MODEL_TOPICS st)) with
      | Some m => Some (set_modelTrained false (set_tfModel (Some m) st))
      | None => None
      end
  else Some st.

(** Lines 107-166, once [loadModel(true)] is past its wait. *)
Definition analyze_after_wait (st : ModelState Model) (interactions : list Interaction)
    : AnalyzeResult :=
  match loadModel_body true st with
  | None => Failed
  | Some st =>
      match tfModel st with
      | None => Failed
      | Some m =>
          match predict m [topicCounts (MODEL_TOPICS st) interactions] with
          | None => Failed
          | Some pred =>
              match nth_error pred 0 with
              | None => Failed
              | Some row =>
                  match nth_error row 2 with
                  | None => Failed
                  | Some score =>
                      let scoredTopics := map (fun t => (t, score)) (MODEL_TOPICS st) in
                      let topTopics := cut_at_largest_drop 0.1 scoredTopics in
                      let scoredHashtags := Obj.entries (hashtagCounts interactions) in
                      let topHashtags := cut_at_largest_drop 0 scoredHashtags in
                      Fulfilled st (mkNames topTopics topHashtags)
                  end
              end
          end
      end
  end.

(** Lines 102-167: [analyzeInteractions(interactionsObj)]. *)
Definition analyzeInteractions (st : ModelState Model) (interactionsObj : Obj.t Interaction)
    : AnalyzeResult :=
  let interactions := Obj.values interactionsObj in
  if length (MODEL_TOPICS st) =? 0 then Fulfilled st (mkNames [] [])
  else
    match loadModel_waits st, modelTrainingPromise st with
    | true, Some p => Suspended p
    | _, _ => analyze_after_wait st interactions
    end.

End Analyzer.

Arguments Fulfilled {Model}.
Arguments Failed {Model}.
Arguments Suspended {Model}.
Arguments loadModel_body {Model}.
Arguments analyze_after_wait {Model}.
Arguments analyzeInteractions {Model}.

End Backup.

(** ** Further notions used by the facts below *)

(** The number of calls of [trainModel] among the actions. *)
Definition count_triggers (actions : list Action) : nat :=
  length (filter (fun a => match a with Trigger _ => true | Resume _ => false end) actions).

(** A model that is marked as trained exists. *)
Definition model_present {Model : Type} (st : ModelState Model) : Prop :=
  modelTrained st = true -> tfModel st <> None.

(** Does a name occur in the records, under [field]? *)
Definition mentioned (field : Interaction -> option (list string)) (key : string)
    (interactions : list Interaction) : bool :=
  existsb (fun inter => includes (list_or_empty (field inter)) key) interactions.

(** What the store never changes of a record once it exists: its post, its
    topics and hashtags, its duration; and [commented] is never withdrawn. *)
Definition kept (r r' : Interaction) : Prop :=
  postId r' = postId r /\ topics r' = topics r /\ hashtags r' = hashtags r
  /\ duration r' = duration r /\ (commented r = true -> commented r' = true).

(** Every record of [o] is still in [o'], under its key. *)
Definition table_kept (o o' : Obj.t Interaction) : Prop :=
  forall k r, Obj.get o k = Some r -> exists r', Obj.get o' k = Some r' /\ kept r r'.

(** * Facts *)

(** ** Binary64 facts, from the specification of the primitive operations *)

Module FloatFacts.
Local Open Scope Z_scope.

Ltac sf_bools := repeat match goal with s : bool |- _ => destruct s end.

Lemma Prim2SF_zero : Prim2SF 0%float = S754_zero false.
Proof. reflexivity. Qed.

(** *** The number of digits of a mantissa *)
Lemma digits2_pos_bounds (m : BinNums.positive) :
  2 ^ (Zpos (digits2_pos m) - 1) <= Zpos m < 2 ^ Zpos (digits2_pos m).
Proof.
  induction m as [p IH|p IH|]; simpl digits2_pos.
  - rewrite Pos2Z.inj_succ.
    replace (Z.succ (Z.pos (digits2_pos p)) - 1) with (Z.succ (Z.pos (digits2_pos p) - 1)) by lia.
    rewrite !Z.pow_succ_r by lia. lia.
  - rewrite Pos2Z.inj_succ.
    replace (Z.succ (Z.pos (digits2_pos p)) - 1) with (Z.succ (Z.pos (digits2_pos p) - 1)) by lia.
    rewrite !Z.pow_succ_r by lia. lia.
  - simpl. lia.
Qed.

Lemma iter_xO (m d : BinNums.positive) : Zpos (Pos.iter xO m d) = Zpos m * 2 ^ Zpos d.
Proof.
  induction d as [|d IH] using Pos.peano_ind.
  - simpl. lia.
  - rewrite Pos.iter_succ, Pos2Z.inj_succ, Z.pow_succ_r by lia.
    rewrite Pos2Z.inj_xO, IH. lia.
Qed.

Lemma shl_align_fst (m : BinNums.positive) (e ez : Z) :
  ez <= e -> Zpos (fst (shl_align m e ez)) = Zpos m * 2 ^ (e - ez).
Proof.
  intros H. unfold shl_align.
  destruct (ez - e) as [|d|d] eqn:E; cbn [fst].
  - replace (e - ez) with 0 by lia. rewrite Z.pow_0_r. lia.
  - lia.
  - rewrite iter_xO. replace (e - ez) with (Z.pos d) by lia. reflexivity.
Qed.

Lemma shl_align_snd (m : BinNums.positive) (e ez : Z) :
  snd (shl_align m e ez) = Z.min e ez.
Proof.
  unfold shl_align. destruct (ez - e) as [|d|d] eqn:E; simpl; lia.
Qed.

(** *** Shifting a mantissa right *)
Lemma shr_m_shr_1 (mrs : shr_record) :
  0 <= shr_m mrs -> shr_m (shr_1 mrs) = shr_m mrs / 2.
Proof.
  destruct mrs as [m r s]. cbn [shr_m]. intros H.
  destruct m as [|[p|p|]|p]; cbn [shr_1 shr_m]; try lia; try reflexivity.
  - apply Z.div_unique with (r := 1); lia.
  - apply Z.div_unique with (r := 0); lia.
Qed.

Lemma pow2_xO (p : BinNums.positive) : 2 ^ Zpos p~0 = 2 ^ Zpos p * 2 ^ Zpos p.
Proof. rewrite <- Z.pow_add_r by lia. f_equal. lia. Qed.

Lemma pow2_xI (p : BinNums.positive) : 2 ^ Zpos p~1 = 2 * (2 ^ Zpos p * 2 ^ Zpos p).
Proof.
  rewrite <- Z.pow_add_r by lia. rewrite <- Z.pow_succ_r by lia. f_equal. lia.
Qed.

Lemma pow2_pos (n : Z) : 0 <= n -> 0 < 2 ^ n.
Proof. intros H. apply Z.pow_pos_nonneg; lia. Qed.

Lemma shr_m_iter (p : BinNums.positive) : forall mrs,
  0 <= shr_m mrs -> shr_m (iter_pos shr_1 p mrs) = shr_m mrs / 2 ^ Zpos p.
Proof.
  induction p as [p IH|p IH|]; intros mrs H; cbn [iter_pos].
  - assert (Hp := pow2_pos (Zpos p) ltac:(lia)).
    assert (H1 : 0 <= shr_m (shr_1 mrs)) by (rewrite shr_m_shr_1 by lia; apply Z.div_pos; lia).
    assert (H2 : 0 <= shr_m (iter_pos shr_1 p (shr_1 mrs)))
      by (rewrite IH by lia; apply Z.div_pos; lia).
    rewrite IH, IH, shr_m_shr_1 by lia.
    rewrite !Z.div_div by lia.
    now rewrite pow2_xI.
  - assert (Hp := pow2_pos (Zpos p) ltac:(lia)).
    assert (H2 : 0 <= shr_m (iter_pos shr_1 p mrs))
      by (rewrite IH by lia; apply Z.div_pos; lia).
    rewrite IH, IH by lia.
    rewrite !Z.div_div by lia.
    now rewrite pow2_xO.
  - rewrite shr_m_shr_1 by lia. reflexivity.
Qed.

Lemma shr_fexp_pos (m : BinNums.positive) (e : Z) (l : location) :
  Binary64.emin64 <= e ->
  0 < shr_m (fst (shr_fexp prec emax (Zpos m) e l)) /\ Binary64.emin64 <= snd (shr_fexp prec emax (Zpos m) e l).
Proof.
  intros He. unfold shr_fexp, shr. simpl Zdigits2.
  pose proof (digits2_pos_bounds m) as [Hlo Hhi].
  set (d := Zpos (digits2_pos m)) in *.
  assert (Hn : fexp prec emax (d + e) - e < d).
  { unfold fexp, Binary64.emin64, SpecFloat.emin, prec, emax in *. lia. }
  destruct (fexp prec emax (d + e) - e) as [|n|n] eqn:En; simpl.
  - split; [|assumption]. destruct l as [|[]]; simpl; lia.
  - split; [|lia].
    rewrite shr_m_iter by (destruct l as [|[]]; simpl; lia).
    replace (shr_m (shr_record_of_loc (Zpos m) l)) with (Zpos m) by (destruct l as [|[]]; reflexivity).
    assert (2 ^ Zpos n <= 2 ^ (d - 1)) by (apply Z.pow_le_mono_r; lia).
    assert (0 < 2 ^ Zpos n) by (apply Z.pow_pos_nonneg; lia).
    apply Z.div_str_pos. lia.
  - split; [|assumption]. destruct l as [|[]]; simpl; lia.
Qed.

Lemma round_nearest_even_pos (m : Z) (l : location) : 0 < m -> 0 < round_nearest_even m l.
Proof.
  intros H. unfold round_nearest_even. destruct l as [|[]]; try lia.
  destruct (Z.even m); lia.
Qed.

Lemma binary_round_aux_pos (m : BinNums.positive) (e : Z) (l : location) :
  Binary64.emin64 <= e -> Binary64.positive_result (binary_round_aux prec emax false (Zpos m) e l) = true.
Proof.
  intros He. unfold binary_round_aux.
  pose proof (shr_fexp_pos m e l He) as [H1 H1e].
  destruct (shr_fexp prec emax (Zpos m) e l) as [mrs' e']. simpl in H1, H1e.
  pose proof (round_nearest_even_pos (shr_m mrs') (loc_of_shr_record mrs') H1) as H2.
  destruct (round_nearest_even (shr_m mrs') (loc_of_shr_record mrs')) as [|q|q]; try lia.
  pose proof (shr_fexp_pos q e' loc_Exact H1e) as [H3 _].
  destruct (shr_fexp prec emax (Zpos q) e' loc_Exact) as [mrs'' e'']. simpl in H3.
  destruct (shr_m mrs''); try lia.
  destruct (e'' <=? emax - prec); reflexivity.
Qed.

Lemma binary_round_pos (m : BinNums.positive) (e : Z) :
  Binary64.emin64 <= e -> Binary64.positive_result (binary_round prec emax false m e) = true.
Proof.
  intros He. unfold binary_round.
  pose proof (shl_align_snd m e (fexp prec emax (Zpos (digits2_pos m) + e))) as Hs.
  destruct (shl_align m e _) as [mz ez]. simpl in Hs.
  apply binary_round_aux_pos.
  unfold fexp, Binary64.emin64, SpecFloat.emin in *. lia.
Qed.

(** *** Comparing canonical numbers *)
Lemma bounded_emin (m : BinNums.positive) (e : Z) :
  bounded prec emax m e = true ->
  Binary64.emin64 <= e /\ (e = Binary64.emin64 \/ Zpos (digits2_pos m) = prec) /\ Zpos (digits2_pos m) <= prec.
Proof.
  unfold bounded, canonical_mantissa. intros H.
  apply andb_true_iff in H. destruct H as [H _]. apply Z.eqb_eq in H.
  unfold fexp, Binary64.emin64, SpecFloat.emin in *. lia.
Qed.

Lemma canonical_lt (m1 m2 : BinNums.positive) (e1 e2 : Z) :
  bounded prec emax m1 e1 = true -> bounded prec emax m2 e2 = true ->
  e1 < e2 -> Zpos m1 < Zpos m2 * 2 ^ (e2 - e1).
Proof.
  intros H1 H2 He.
  apply bounded_emin in H1. apply bounded_emin in H2.
  destruct H1 as [H1a [H1b H1c]]. destruct H2 as [H2a [H2b H2c]].
  pose proof (digits2_pos_bounds m1) as [_ Hhi].
  pose proof (digits2_pos_bounds m2) as [Hlo _].
  assert (Hd2 : Zpos (digits2_pos m2) = prec) by lia.
  rewrite Hd2 in Hlo.
  assert (Hpow1 : 2 ^ Zpos (digits2_pos m1) <= 2 ^ prec) by (apply Z.pow_le_mono_r; lia).
  assert (Hpow2 : 2 ^ 1 <= 2 ^ (e2 - e1)) by (apply Z.pow_le_mono_r; lia).
  assert (Hprec : 2 ^ prec = 2 ^ (prec - 1) * 2 ^ 1)
    by (rewrite <- Z.pow_add_r by (unfold prec; lia); f_equal; lia).
  assert (0 < 2 ^ (prec - 1)) by (apply pow2_pos; unfold prec; lia).
  nia.
Qed.

Lemma mag_compare (m1 m2 : BinNums.positive) (e1 e2 : Z) :
  bounded prec emax m1 e1 = true -> bounded prec emax m2 e2 = true ->
  match e1 ?= e2 with
  | Lt => Lt
  | Gt => Gt
  | Eq => Pos.compare_cont Eq m1 m2
  end = (Binary64.mag m1 e1 (Z.min e1 e2) ?= Binary64.mag m2 e2 (Z.min e1 e2)).
Proof.
  intros H1 H2. unfold Binary64.mag. symmetry.
  destruct (Z.compare_spec e1 e2) as [He|He|He].
  - subst e2. rewrite Z.min_id, Z.sub_diag, Z.pow_0_r, !Z.mul_1_r. reflexivity.
  - rewrite Z.min_l by lia. rewrite Z.sub_diag, Z.pow_0_r, Z.mul_1_r.
    apply Z.compare_lt_iff. now apply canonical_lt.
  - rewrite Z.min_r by lia. rewrite Z.sub_diag, Z.pow_0_r, Z.mul_1_r.
    apply Z.compare_gt_iff. now apply canonical_lt.
Qed.

Lemma mag_pos m e ez : ez <= e -> 0 < Binary64.mag m e ez.
Proof. intros H. unfold Binary64.mag. assert (0 < 2 ^ (e - ez)) by (apply pow2_pos; lia). nia. Qed.

Lemma SFltb_finite (s1 s2 : bool) (m1 m2 : BinNums.positive) (e1 e2 : Z) :
  bounded prec emax m1 e1 = true -> bounded prec emax m2 e2 = true ->
  SFltb (S754_finite s1 m1 e1) (S754_finite s2 m2 e2)
  = (cond_Zopp s1 (Binary64.mag m1 e1 (Z.min e1 e2)) <? cond_Zopp s2 (Binary64.mag m2 e2 (Z.min e1 e2))).
Proof.
  intros H1 H2. unfold SFltb, SFcompare.
  pose proof (mag_pos m1 e1 (Z.min e1 e2) ltac:(lia)) as P1.
  pose proof (mag_pos m2 e2 (Z.min e1 e2) ltac:(lia)) as P2.
  pose proof (mag_compare m1 m2 e1 e2 H1 H2) as Hc.
  unfold Z.ltb.
  destruct s1, s2; cbn [cond_Zopp].
  - rewrite Z.compare_opp, (Z.compare_antisym (Binary64.mag m1 e1 _) (Binary64.mag m2 e2 _)), <- Hc.
    now destruct (e1 ?= e2).
  - assert (E : (- Binary64.mag m1 e1 (Z.min e1 e2) ?= Binary64.mag m2 e2 (Z.min e1 e2)) = Lt)
      by (apply Z.compare_lt_iff; lia).
    now rewrite E.
  - assert (E : (Binary64.mag m1 e1 (Z.min e1 e2) ?= - Binary64.mag m2 e2 (Z.min e1 e2)) = Gt)
      by (apply Z.compare_gt_iff; lia).
    now rewrite E.
  - rewrite Hc. reflexivity.
Qed.

Lemma normalize_pos (m e : Z) :
  Binary64.emin64 <= e ->
  SFltb (S754_zero false) (binary_normalize prec emax m e false) = (0 <? m).
Proof.
  intros He. destruct m as [|p|p]; cbn [binary_normalize].
  - reflexivity.
  - pose proof (binary_round_pos p e He) as H.
    destruct (binary_round prec emax false p e) as [s|s| |s m' e']; try destruct s; try discriminate;
      reflexivity.
  - unfold binary_round, binary_round_aux.
    destruct (shl_align p e _) as [mz ez].
    destruct (shr_fexp prec emax (Z.pos mz) ez loc_Exact) as [mrs' e'].
    destruct (shr_fexp prec emax _ e' loc_Exact) as [mrs'' e''].
    destruct (shr_m mrs''); [reflexivity | | reflexivity].
    destruct (e'' <=? emax - prec)%Z; reflexivity.
Qed.

Lemma SFsub_pos_iff_lt (a b : spec_float) :
  valid_binary a = true -> valid_binary b = true ->
  SFltb (S754_zero false) (SF64sub b a) = SFltb a b.
Proof.
  intros Ha Hb. unfold SF64sub.
  destruct a as [sa|sa| |sa ma ea], b as [sb|sb| |sb mb eb];
    try solve [sf_bools; reflexivity].
  cbn [valid_binary] in Ha, Hb.
  rewrite (SFltb_finite _ _ _ _ _ _ Ha Hb).
  cbn [SFsub].
  pose proof (bounded_emin _ _ Ha) as [Ea _]. pose proof (bounded_emin _ _ Hb) as [Eb _].
  rewrite normalize_pos by lia.
  rewrite !shl_align_fst by lia.
  fold (Binary64.mag mb eb (Z.min eb ea)). fold (Binary64.mag ma ea (Z.min eb ea)).
  rewrite (Z.min_comm eb ea).
  set (A := cond_Zopp sa _). set (B := cond_Zopp sb _).
  destruct (Z.ltb_spec 0 (B - A)), (Z.ltb_spec A B); lia.
Qed.

(** [y - x] is positive exactly when [x < y]: the comparator
    [(a, b) => b.weight - a.weight] orders by weight. *)
Lemma sub_pos_iff_lt (x y : float) : (0 <? y - x)%float = (x <? y)%float.
Proof.
  rewrite !ltb_spec, sub_spec. change (Prim2SF 0) with (S754_zero false).
  apply SFsub_pos_iff_lt; apply Prim2SF_valid.
Qed.

(** *** The order *)
Lemma SFltb_irrefl (a : spec_float) : SFltb a a = false.
Proof.
  unfold SFltb. destruct a as [s|s| |s m e]; try solve [sf_bools; reflexivity].
  cbn [SFcompare]. change (Pos.compare_cont Eq) with Pos.compare.
  rewrite Z.compare_refl, Pos.compare_refl. now destruct s.
Qed.

Lemma SFcompare_antisym (a b : spec_float) :
  SFcompare b a = option_map CompOpp (SFcompare a b).
Proof.
  destruct a as [sa|sa| |sa ma ea], b as [sb|sb| |sb mb eb];
    try solve [sf_bools; reflexivity].
  cbn [SFcompare option_map]. change (Pos.compare_cont Eq) with Pos.compare.
  rewrite (Z.compare_antisym ea eb), (Pos.compare_antisym ma mb).
  destruct sa, sb; try reflexivity;
    destruct (ea ?= eb); cbn [CompOpp]; try reflexivity;
    now destruct (ma ?= mb)%positive.
Qed.

Lemma SFleb_trans (a b c : spec_float) :
  SFleb a b = true -> SFleb b c = true -> SFleb a c = true.
Proof.
  unfold SFleb.
  destruct a as [sa|sa| |sa ma ea], b as [sb|sb| |sb mb eb], c as [sc|sc| |sc mc ec];
    simpl; try discriminate; try solve [sf_bools; simpl; congruence].
  change (Pos.compare_cont Eq) with Pos.compare.
  destruct sa, sb, sc; try congruence;
    destruct (Z.compare_spec ea eb), (Z.compare_spec eb ec), (Z.compare_spec ea ec);
    subst; try congruence; try lia;
    destruct (Pos.compare_spec ma mb), (Pos.compare_spec mb mc), (Pos.compare_spec ma mc);
    simpl; subst; try congruence; try lia.
Qed.

Lemma is_nan_spec (x : float) : is_nan x = false <-> Prim2SF x <> S754_nan.
Proof.
  unfold is_nan. rewrite eqb_spec. unfold SFeqb.
  rewrite SFcompare_antisym.
  destruct (Prim2SF x) as [s|s| |s m e] eqn:E.
  - split; [discriminate|reflexivity].
  - split; [discriminate|]. intros _. now destruct s.
  - split; [discriminate|congruence].
  - split; [discriminate|]. intros _. cbn [SFcompare option_map].
    change (Pos.compare_cont Eq) with Pos.compare.
    rewrite Z.compare_refl, Pos.compare_refl. now destruct s.
Qed.

Lemma SFcompare_some (a b : spec_float) :
  a <> S754_nan -> b <> S754_nan -> exists c, SFcompare a b = Some c.
Proof.
  destruct a as [sa|sa| |sa ma ea], b as [sb|sb| |sb mb eb]; intros Ha Hb;
    try congruence; cbn [SFcompare]; eauto.
Qed.

Lemma not_ltb_leb (x y : float) :
  is_nan x = false -> is_nan y = false -> (x <? y)%float = false -> (y <=? x)%float = true.
Proof.
  rewrite !is_nan_spec, ltb_spec, leb_spec. unfold SFltb, SFleb.
  intros Hx Hy. rewrite (SFcompare_antisym (Prim2SF x) (Prim2SF y)).
  destruct (SFcompare_some _ _ Hx Hy) as [c ->]. now destruct c.
Qed.

Lemma ltb_leb (x y : float) : (x <? y)%float = true -> (x <=? y)%float = true.
Proof.
  rewrite ltb_spec, leb_spec. unfold SFltb, SFleb.
  now destruct (SFcompare (Prim2SF x) (Prim2SF y)) as [[]|].
Qed.

Lemma leb_trans (x y z : float) :
  (x <=? y)%float = true -> (y <=? z)%float = true -> (x <=? z)%float = true.
Proof. rewrite !leb_spec. apply SFleb_trans. Qed.

Lemma ltb_not_nan (x y : float) : (x <? y)%float = true -> is_nan x = false /\ is_nan y = false.
Proof.
  rewrite ltb_spec, !is_nan_spec. unfold SFltb.
  destruct (Prim2SF x), (Prim2SF y); simpl; try discriminate; split; discriminate.
Qed.

Lemma SFmul_comm (a b : spec_float) : SF64mul a b = SF64mul b a.
Proof.
  unfold SF64mul.
  destruct a as [sa|sa| |sa ma ea], b as [sb|sb| |sb mb eb]; simpl;
    rewrite ?(xorb_comm sa sb); try reflexivity.
  now rewrite Pos.mul_comm, Z.add_comm.
Qed.

(** Multiplication commutes, bit for bit. *)
Lemma mul_comm (x y : float) : (x * y)%float = (y * x)%float.
Proof. apply Prim2SF_inj. rewrite !mul_spec. apply SFmul_comm. Qed.

Lemma SFltb_trans (a b c : spec_float) :
  SFltb a b = true -> SFltb b c = true -> SFltb a c = true.
Proof.
  unfold SFltb.
  destruct a as [sa|sa| |sa ma ea], b as [sb|sb| |sb mb eb], c as [sc|sc| |sc mc ec];
    simpl; try discriminate; try solve [sf_bools; simpl; congruence].
  change (Pos.compare_cont Eq) with Pos.compare.
  destruct sa, sb, sc; try congruence;
    destruct (Z.compare_spec ea eb), (Z.compare_spec eb ec), (Z.compare_spec ea ec);
    subst; try congruence; try lia;
    destruct (Pos.compare_spec ma mb), (Pos.compare_spec mb mc), (Pos.compare_spec ma mc);
    simpl; subst; try congruence; try lia.
Qed.

Lemma ltb_trans (x y z : float) :
  (x <? y)%float = true -> (y <? z)%float = true -> (x <? z)%float = true.
Proof. rewrite !ltb_spec. apply SFltb_trans. Qed.

(** [0 + x] is [x], except that [0 + -0] is [+0]. *)
Lemma Prim2SF_zero_add (x : float) :
  Prim2SF (0 + x)%float =
  match Prim2SF x with S754_zero _ => S754_zero false | v => v end.
Proof.
  rewrite add_spec, Prim2SF_zero. unfold SF64add.
  destruct (Prim2SF x) as [s|s| |s m e]; try destruct s; reflexivity.
Qed.

Lemma zero_add_compare_l (x c : float) :
  SFcompare (Prim2SF (0 + x)%float) (Prim2SF c) = SFcompare (Prim2SF x) (Prim2SF c).
Proof. rewrite Prim2SF_zero_add. destruct (Prim2SF x); reflexivity. Qed.

Lemma zero_add_compare_r (x c : float) :
  SFcompare (Prim2SF c) (Prim2SF (0 + x)%float) = SFcompare (Prim2SF c) (Prim2SF x).
Proof.
  rewrite Prim2SF_zero_add.
  destruct (Prim2SF x), (Prim2SF c); reflexivity.
Qed.

(** No comparison tells [0 + x] from [x]. *)
Lemma zero_add_leb_l (x c : float) : (0 + x <=? c)%float = (x <=? c)%float.
Proof. rewrite !leb_spec. unfold SFleb. now rewrite zero_add_compare_l. Qed.

Lemma zero_add_leb_r (x c : float) : (c <=? 0 + x)%float = (c <=? x)%float.
Proof. rewrite !leb_spec. unfold SFleb. now rewrite zero_add_compare_r. Qed.

End FloatFacts.

(** ** Lists *)

Module ListFacts.
Section Lists.
Context {A : Type}.
Implicit Types (l : list A) (n : nat).

Lemma In_firstn n l x : In x (firstn n l) -> In x l.
Proof.
  revert l. induction n as [|n IH]; intros [|y l]; simpl; try tauto.
  intros [->|H]; [now left | right; now apply IH].
Qed.

Lemma In_skipn n l x : In x (skipn n l) -> In x l.
Proof.
  revert l. induction n as [|n IH]; intros [|y l]; simpl; try tauto.
  intros H. right. now apply IH.
Qed.

Lemma Forall_skipn (P : A -> Prop) n l : Forall P l -> Forall P (skipn n l).
Proof.
  intros H. apply Forall_forall. intros x Hx.
  apply In_skipn in Hx. revert x Hx. now apply Forall_forall.
Qed.

Lemma Forall_firstn (P : A -> Prop) n l : Forall P l -> Forall P (firstn n l).
Proof.
  intros H. apply Forall_forall. intros x Hx.
  apply In_firstn in Hx. revert x Hx. now apply Forall_forall.
Qed.

Lemma Forall_filter (f : A -> bool) l : Forall (fun x => f x = true) (filter f l).
Proof. apply Forall_forall. intros x Hx. now apply filter_In in Hx. Qed.

Lemma StronglySorted_firstn (R : A -> A -> Prop) n l :
  StronglySorted R l -> StronglySorted R (firstn n l).
Proof.
  revert l. induction n as [|n IH]; intros [|y l] H; simpl; try constructor.
  - apply IH. now inversion H.
  - apply Forall_firstn. now inversion H.
Qed.

Lemma StronglySorted_filter (R : A -> A -> Prop) (f : A -> bool) l :
  StronglySorted R l -> StronglySorted R (filter f l).
Proof.
  induction 1 as [|y l Hl IH Hy]; simpl; [constructor|].
  destruct (f y); [|assumption].
  constructor; [assumption|].
  apply Forall_forall. intros x Hx. apply filter_In in Hx.
  revert x Hx. rewrite Forall_forall in Hy. intros x [Hx _]. now apply Hy.
Qed.

End Lists.
End ListFacts.

(** ** Tables *)

Module ObjFacts.
Section Table.
Context {V : Type}.
Implicit Types (o : Obj.t V) (k : string) (v : V).

Lemma get_set_same o k v : Obj.get (Obj.set o k v) k = Some v.
Proof.
  induction o as [|[k' v'] o IH]; simpl.
  - now rewrite String.eqb_refl.
  - destruct (String.eqb k k') eqn:E; simpl; rewrite E; auto.
Qed.

Lemma get_set_other o k k' v : k' <> k -> Obj.get (Obj.set o k v) k' = Obj.get o k'.
Proof.
  intros Hne. induction o as [|[k0 v0] o IH]; simpl.
  - destruct (String.eqb k' k) eqn:E; [apply String.eqb_eq in E; contradiction | reflexivity].
  - destruct (String.eqb k k0) eqn:E; simpl.
    + apply String.eqb_eq in E. subst k0.
      destruct (String.eqb k' k) eqn:E'; [apply String.eqb_eq in E'; contradiction | reflexivity].
    + now rewrite IH.
Qed.

Lemma get_In o k v : Obj.get o k = Some v -> In (k, v) o.
Proof.
  induction o as [|[k' v'] o IH]; simpl; [discriminate|].
  destruct (String.eqb k k') eqn:E.
  - apply String.eqb_eq in E. intros [= ->]. subst. now left.
  - auto.
Qed.

Lemma get_None_keys o k : Obj.get o k = None <-> ~ In k (Obj.keys o).
Proof.
  induction o as [|[k' v'] o IH]; simpl; [tauto|].
  destruct (String.eqb k k') eqn:E.
  - apply String.eqb_eq in E. subst. split; [discriminate | intros H; exfalso; auto].
  - apply String.eqb_neq in E. rewrite IH. split; intros H; [intros [?|?]; congruence | tauto].
Qed.

(** Assigning under a present key keeps the keys, and their order. *)
Lemma keys_set_present o k v : In k (Obj.keys o) -> Obj.keys (Obj.set o k v) = Obj.keys o.
Proof.
  induction o as [|[k' v'] o IH]; simpl; [tauto|].
  intros H. destruct (String.eqb k k') eqn:E; simpl; [reflexivity|].
  apply String.eqb_neq in E. f_equal. apply IH. destruct H; congruence.
Qed.

(** Assigning under a new key appends it. *)
Lemma keys_set_absent o k v : ~ In k (Obj.keys o) -> Obj.keys (Obj.set o k v) = Obj.keys o ++ [k].
Proof.
  induction o as [|[k' v'] o IH]; simpl; [reflexivity|].
  intros H. destruct (String.eqb k k') eqn:E; simpl.
  - apply String.eqb_eq in E. subst k'. exfalso. apply H. now left.
  - f_equal. apply IH. intros Hin. apply H. now right.
Qed.

Lemma In_keys_set o k k' v : In k' (Obj.keys (Obj.set o k v)) <-> k' = k \/ In k' (Obj.keys o).
Proof.
  induction o as [|[k0 v0] o IH]; simpl.
  - intuition congruence.
  - destruct (String.eqb k k0) eqn:E; simpl.
    + apply String.eqb_eq in E. subst. intuition congruence.
    + rewrite IH. intuition congruence.
Qed.

Lemma NoDup_keys_set o k v : NoDup (Obj.keys o) -> NoDup (Obj.keys (Obj.set o k v)).
Proof.
  intros H. destruct (in_dec string_dec k (Obj.keys o)) as [Hin|Hin].
  - now rewrite keys_set_present.
  - rewrite keys_set_absent by assumption.
    apply NoDup_app; [assumption | repeat constructor; simpl; tauto |].
    intros x Hx [->|[]]. contradiction.
Qed.

End Table.
End ObjFacts.

(** ** The natural-break selector on the specification's example *)

(** C4. On [[{a,0.9},{b,0.85},{c,0.3},{d,0.28}]] with threshold [0.1],
    [findNaturalSplit] returns 2 and the selected head is [[a, b]]: the gap
    between [b] and [c] (0.55 up to rounding) exceeds the gap threshold
    [max(0.1, 0.9 × 0.25)], the gap between [a] and [b] does not, and the
    relative gap at [b] is above 0.6, which ends the scan there. *)
Theorem natural_split_example :
  findNaturalSplit Examples.abcd 0.1 = 2
  /\ map name (firstn (findNaturalSplit Examples.abcd 0.1) Examples.abcd)
     = ["a"%string; "b"%string]
  /\ (weight_at Examples.abcd 1 - weight_at Examples.abcd 2)%float = 0.55000000000000004%float
  /\ JS.gt (weight_at Examples.abcd 1 - weight_at Examples.abcd 2)
           (JS.max 0.1 (weight_at Examples.abcd 0 * 0.25)) = true
  /\ JS.gt (weight_at Examples.abcd 0 - weight_at Examples.abcd 1)
           (JS.max 0.1 (weight_at Examples.abcd 0 * 0.25)) = false
  /\ JS.gt ((weight_at Examples.abcd 1 - weight_at Examples.abcd 2) / weight_at Examples.abcd 1)
           0.6 = true.
Proof.
  assert (Hsplit : findNaturalSplit Examples.abcd 0.1 = 2) by (vm_compute; reflexivity).
  rewrite Hsplit.
  repeat split; vm_compute; reflexivity.
Qed.

(** ** The analyzer's short circuit *)

Section AnalyzerFacts.
Variable Model : Type.
Variable build_model : nat -> option Model.
Variable predict : Model -> list (list float) -> option (list (list float)).

(** C1. With fewer than [MIN_INTERACTIONS] (10) records, and likewise
    with an empty topic vocabulary, [analyzeInteractions] is fulfilled with
    the empty interest set (no topics, no hashtags); the module state is
    untouched and neither the model nor the rule-based scorer is
    consulted. *)
Theorem analyze_insufficient_data (st : ModelState Model) (interactions : list Interaction) :
  length interactions < MIN_INTERACTIONS \/ MODEL_TOPICS st = [] ->
  analyzeInteractions build_model predict st interactions = Fulfilled st (mkInterest [] []).
Proof.
  intros H. unfold analyzeInteractions.
  destruct (length (MODEL_TOPICS st) =? 0) eqn:Evoc; [reflexivity|].
  destruct H as [Hfew | Hempty].
  - apply Nat.ltb_lt in Hfew. now rewrite Hfew.
  - rewrite Hempty in Evoc. discriminate.
Qed.

End AnalyzerFacts.

Lemma analyze_insufficient_data_witness :
  analyzeInteractions Examples.toy_build Examples.toy_predict
    (Examples.untrained ["sports"%string] []) (firstn 9 Examples.ten_liked)
  = Fulfilled (Examples.untrained ["sports"%string] []) (mkInterest [] []).
Proof.
  apply (analyze_insufficient_data nat Examples.toy_build Examples.toy_predict).
  left. vm_compute. reflexivity.
Defined.

(** ** The reaction score of the rule-based scorer *)

(** The claim of C2 fails on the code. A record with no signal, viewed for
    8 of 10 seconds, gets the reaction [1], not
    [(8000/10000 − 0.5) × 2]; and the time term is added to a liked record
    too, whose reaction is [4], not the [3] of its boolean terms. *)
Lemma reaction_is_not_the_time_signal :
  Spec.any_signal Examples.viewed_long = false
  /\ reactionScore Examples.viewed_long = 1%float
  /\ Spec.timeScore Examples.viewed_long = 0.60000000000000009%float
  /\ (reactionScore Examples.viewed_long =? Spec.timeScore Examples.viewed_long)%float = false
  /\ Spec.any_signal Examples.liked_long = true
  /\ booleanScore Examples.liked_long = 3%float
  /\ reactionScore Examples.liked_long = 4%float.
Proof. repeat split; vm_compute; reflexivity. Qed.

(** C2, amended. In the rule-based scorer the reaction of every record is
    its boolean terms plus a step bonus for the time spent: [+1] when
    [timeSpentMs / (duration || 10000)] is above 0.7, [−1] when it is
    below 0.2, nothing in between (and nothing when the ratio is not a
    number). The bonus does not depend on the signals; for a record with no
    signal set the reaction is therefore [1], [−1] or [0]. *)
Theorem reaction_is_boolean_terms_plus_step (inter : Interaction) :
  reactionScore inter
  = (if JS.gt (Spec.timeRatio inter) 0.7 then (booleanScore inter + 1)%float
     else if JS.lt (Spec.timeRatio inter) 0.2 then (booleanScore inter - 1)%float
     else booleanScore inter)
  /\ (Spec.any_signal inter = false ->
      reactionScore inter
      = (if JS.gt (Spec.timeRatio inter) 0.7 then 1%float
         else if JS.lt (Spec.timeRatio inter) 0.2 then (-1)%float
         else 0%float)).
Proof.
  assert (Hexcl : JS.gt (Spec.timeRatio inter) 0.7 = true ->
                  JS.lt (Spec.timeRatio inter) 0.2 = false).
  { unfold JS.gt, JS.lt. intros Hhigh.
    destruct (Spec.timeRatio inter <? 0.2)%float eqn:Hlow; [|reflexivity].
    pose proof (FloatFacts.ltb_trans _ _ _ Hhigh Hlow) as Habs.
    vm_compute in Habs. discriminate. }
  assert (Hgen : reactionScore inter
                 = (if JS.gt (Spec.timeRatio inter) 0.7 then (booleanScore inter + 1)%float
                    else if JS.lt (Spec.timeRatio inter) 0.2 then (booleanScore inter - 1)%float
                    else booleanScore inter)).
  { unfold reactionScore. fold (Spec.timeRatio inter).
    destruct (JS.gt (Spec.timeRatio inter) 0.7) eqn:Hhigh.
    - now rewrite (Hexcl eq_refl).
    - reflexivity. }
  split; [exact Hgen|].
  intros Hnone. rewrite Hgen.
  assert (Hzero : booleanScore inter = 0%float).
  { unfold Spec.any_signal in Hnone. unfold booleanScore.
    destruct (liked inter), (interested inter), (not_interested inter), (commented inter);
      try discriminate. reflexivity. }
  rewrite Hzero.
  destruct (JS.gt _ _); [reflexivity|].
  destruct (JS.lt _ _); reflexivity.
Qed.

Lemma reaction_is_boolean_terms_plus_step_witness :
  reactionScore Examples.viewed_long = 1%float.
Proof.
  exact (proj2 (reaction_is_boolean_terms_plus_step Examples.viewed_long) eq_refl).
Defined.

(** ** Training labels *)

(** The claim of C3 fails on the code where it takes the score of
    [trainModel] to be that of the rule-based scorer: on a record that is
    commented and left at once, [trainModel] computes 1.5 and labels it
    positive (2), while the rule-based scorer computes 0.5, which the same
    thresholds would label neutral (1). *)
Lemma label_is_not_from_the_reaction_score :
  preferenceScore Examples.commented_short = 1.5%float
  /\ engaged Examples.commented_short = 2
  /\ reactionScore Examples.commented_short = 0.5%float
  /\ engagement_of (reactionScore Examples.commented_short) = 1.
Proof. repeat split; vm_compute; reflexivity. Qed.

Lemma booleanScore_terms (inter : Interaction) :
  booleanScore inter = Spec.booleanTerms inter.
Proof.
  unfold booleanScore, Spec.booleanTerms, Spec.iverson.
  destruct (liked inter), (interested inter), (not_interested inter), (commented inter);
    vm_compute; reflexivity.
Qed.

Lemma engaged_label (inter : Interaction) : engaged inter = Spec.label inter.
Proof.
  unfold engaged, engagement_of, Spec.label, JS.le, JS.ge.
  assert (Hsame : forall c,
             (preferenceScore inter <=? c)%float = (Spec.preferenceScore inter <=? c)%float
             /\ (c <=? preferenceScore inter)%float = (c <=? Spec.preferenceScore inter)%float).
  { intros c. unfold preferenceScore, Spec.preferenceScore, Spec.any_signal.
    destruct (liked inter) eqn:El, (interested inter) eqn:Ei,
             (not_interested inter) eqn:En, (commented inter) eqn:Ec; simpl;
      try (rewrite booleanScore_terms; split; reflexivity).
    assert (Hzero : booleanScore inter = 0%float)
      by (unfold booleanScore; rewrite El, Ei, En, Ec; reflexivity).
    rewrite Hzero. fold (Spec.timeScore_defaulted inter).
    split; [apply FloatFacts.zero_add_leb_l | apply FloatFacts.zero_add_leb_r]. }
  destruct (Hsame (-1.5)%float) as [-> _]. destruct (Hsame 1.5%float) as [_ ->].
  reflexivity.
Qed.

Lemma build_examples_from (V : list string) (l : list Interaction)
    (xs ys : list (list float)) :
  fold_left (push_example V) l (xs, ys)
  = (xs ++ map (membership V) (filter (fun i => is_some (topics i)) l),
     ys ++ map (fun i => one_hot (engaged i)) (filter (fun i => is_some (topics i)) l)).
Proof.
  revert xs ys. induction l as [|inter l IH]; intros xs ys; simpl.
  - now rewrite !app_nil_r.
  - unfold push_example at 2. destruct (topics inter); simpl.
    + rewrite IH. now rewrite <- !app_assoc.
    + apply IH.
Qed.

(** C3, amended. Every training example built by [trainModel] is labelled
    from [trainModel]'s own preference score: the boolean terms (liked
    +3.0, interested +2.0, not_interested −4.0, commented +1.5, the weights
    the rule-based scorer uses too) or, when no signal is set, the time
    signal [(timeSpentMs/duration − 0.5) × 2] instead (a term the
    rule-based scorer does not have). The label is negative (0) when the
    score is ≤ −1.5, positive (2) when it is ≥ 1.5, neutral (1) otherwise;
    the labels are one-hot encoded, one per record that has a [topics]
    array, in the order of the records. *)
Theorem training_labels (V : list string) (recentInteractions : list Interaction) :
  snd (build_examples V recentInteractions)
  = map (fun inter => one_hot (Spec.label inter))
        (filter (fun inter => is_some (topics inter)) recentInteractions)
  /\ Forall (fun inter =>
               engaged inter
               = if (Spec.preferenceScore inter <=? -1.5)%float then 0
                 else if (1.5 <=? Spec.preferenceScore inter)%float then 2 else 1)
            recentInteractions.
Proof.
  split.
  - unfold build_examples. rewrite build_examples_from. simpl.
    apply map_ext. intros inter. now rewrite engaged_label.
  - apply Forall_forall. intros inter _. apply engaged_label.
Qed.

(** ** The interaction store *)

Module StoreFacts.
Import Store.

Lemma get_ensure_same o k r :
  Obj.get (ensure o k r) k = Some (match Obj.get o k with Some x => x | None => r end).
Proof.
  unfold ensure. destruct (Obj.get o k) eqn:E; [assumption | apply ObjFacts.get_set_same].
Qed.

Lemma get_ensure_other o k k' r : k' <> k -> Obj.get (ensure o k r) k' = Obj.get o k'.
Proof.
  intros Hne. unfold ensure. destruct (Obj.get o k); [reflexivity|].
  now apply ObjFacts.get_set_other.
Qed.

Lemma get_update_same o k f : Obj.get (update o k f) k = option_map f (Obj.get o k).
Proof.
  unfold update. destruct (Obj.get o k) eqn:E; simpl; [apply ObjFacts.get_set_same | assumption].
Qed.

Lemma get_update_other o k k' f : k' <> k -> Obj.get (update o k f) k' = Obj.get o k'.
Proof.
  intros Hne. unfold update. destruct (Obj.get o k); [|reflexivity].
  now apply ObjFacts.get_set_other.
Qed.

Lemma all_records_set P o k v : all_records P o -> P v -> all_records P (Obj.set o k v).
Proof.
  intros Ho Hv k' r. destruct (string_dec k' k) as [->|Hne].
  - rewrite ObjFacts.get_set_same. now intros [= <-].
  - rewrite ObjFacts.get_set_other by assumption. apply Ho.
Qed.

Lemma all_records_ensure P o k v : all_records P o -> P v -> all_records P (ensure o k v).
Proof.
  intros Ho Hv. unfold ensure. destruct (Obj.get o k); [assumption|].
  now apply all_records_set.
Qed.

Lemma all_records_update P o k f :
  all_records P o -> (forall r, P r -> P (f r)) -> all_records P (update o k f).
Proof.
  intros Ho Hf. unfold update. destruct (Obj.get o k) eqn:E; [|assumption].
  apply all_records_set; [assumption|]. apply Hf. apply (Ho _ _ E).
Qed.

Lemma exclusive_apply_type type r : exclusive r -> exclusive (apply_type type r).
Proof.
  unfold apply_type, exclusive. intros H.
  destruct (String.eqb type "interested"); [reflexivity|].
  destruct (String.eqb type "not_interested"); [reflexivity | assumption].
Qed.

Lemma exclusive_fresh post now : exclusive (fresh_record post now).
Proof. reflexivity. Qed.

Create HintDb store discriminated.
#[local] Hint Resolve all_records_set all_records_ensure all_records_update
  exclusive_apply_type exclusive_fresh : store.
#[local] Hint Extern 1 (exclusive _) => assumption : store.

(** The operations other than [apply_type] rewrite one record without
    touching its two interest flags. *)
Ltac keeps_flags := intros ? ?; unfold exclusive in *; simpl; assumption.

(** Each operation keeps the flags exclusive. *)
Lemma apply_exclusive s e :
  all_records exclusive (interactions s) -> all_records exclusive (interactions (apply s e)).
Proof.
  intros Hs. destruct e as [type post now | post now | post now | now | post now]; simpl.
  - unfold recordInteraction. destruct (falsy_id (id post)); [assumption|]. simpl.
    apply all_records_update; [|keeps_flags].
    match goal with |- all_records _ (if ?c then _ else _) => destruct c end.
    + apply all_records_update; [|keeps_flags]. auto with store.
    + auto with store.
  - unfold like. simpl.
    apply all_records_update; [|keeps_flags].
    apply all_records_update; [|keeps_flags]. auto with store.
  - unfold comment. simpl.
    assert (He : all_records exclusive
                   (ensure (interactions s) (key_of (id post)) (fresh_record post now)))
      by auto with store.
    destruct (Obj.get _ _) as [r|]; [|assumption].
    destruct (commented r); [assumption|].
    apply all_records_update; [|keeps_flags].
    apply all_records_update; [assumption|keeps_flags].
  - unfold recordTimeSpentOnCurrentPost.
    destruct (lastViewedPostId s) as [l|]; [|assumption].
    destruct (postViewStartTime s) as [start|]; [|assumption].
    destruct (_ && _); [|assumption]. simpl.
    destruct (Obj.get (interactions s) l).
    + apply all_records_update; [assumption|keeps_flags].
    + apply all_records_set; [assumption|reflexivity].
  - assumption.
Qed.

Lemma run_exclusive evs s :
  all_records exclusive (interactions s) -> all_records exclusive (interactions (run s evs)).
Proof.
  revert s. induction evs as [|e evs IH]; intros s Hs; simpl; [assumption|].
  apply IH. now apply apply_exclusive.
Qed.

Lemma flags_update_keeps o k f k' :
  (forall r, flags (f r) = flags r) ->
  option_map flags (Obj.get (update o k f) k') = option_map flags (Obj.get o k').
Proof.
  intros Hf. destruct (string_dec k' k) as [->|Hne].
  - rewrite get_update_same. destruct (Obj.get o k); simpl; [now rewrite Hf | reflexivity].
  - now rewrite get_update_other.
Qed.

Lemma flags_ensure o k r k' :
  option_map flags (Obj.get (ensure o k r) k') = option_map flags (Obj.get o k')
  \/ (Obj.get o k' = None /\ option_map flags (Obj.get (ensure o k r) k') = Some (flags r)).
Proof.
  destruct (string_dec k' k) as [->|Hne].
  - rewrite get_ensure_same. destruct (Obj.get o k); [now left | now right].
  - left. now rewrite get_ensure_other.
Qed.

Ltac same_flags := intros ?; reflexivity.

(** What an ['interested'] or ['not_interested'] recording does to the
    record of its post. *)
Lemma recordInteraction_flags type post now s k :
  id post = Some k -> k <> ""%string ->
  flags_at (recordInteraction type post now s) k
  = Some (if String.eqb type "interested" then (true, false)
          else if String.eqb type "not_interested" then (false, true)
          else match flags_at s k with Some f => f | None => (false, false) end).
Proof.
  intros Hid Hk. unfold recordInteraction, flags_at. rewrite Hid. simpl.
  destruct (String.eqb k "") eqn:E; [apply String.eqb_eq in E; contradiction|].
  simpl.
  rewrite flags_update_keeps by same_flags.
  match goal with |- option_map _ (Obj.get (if ?c then _ else _) _) = _ => destruct c end;
    rewrite ?(flags_update_keeps _ _ (add_time _)) by same_flags;
    rewrite get_update_same, get_ensure_same;
    unfold apply_type;
    destruct (String.eqb type "interested"), (String.eqb type "not_interested"),
             (Obj.get (interactions s) k); reflexivity.
Qed.

(** An operation that is not such a recording leaves the two flags of
    every record as they are; a record it creates has both flags unset. *)
Lemma other_operations_keep_flags s e k :
  records_interest e = false ->
  flags_at (apply s e) k = flags_at s k
  \/ (flags_at s k = None /\ flags_at (apply s e) k = Some (false, false)).
Proof.
  intros He. unfold flags_at.
  destruct e as [type post now | post now | post now | now | post now]; simpl in *.
  - apply orb_false_iff in He. destruct He as [Hi Hn].
    unfold recordInteraction. destruct (falsy_id (id post)); [now left|]. simpl.
    rewrite flags_update_keeps by same_flags.
    assert (Hty : forall r, flags (apply_type type r) = flags r)
      by (intros r; unfold apply_type; now rewrite Hi, Hn).
    match goal with |- option_map _ (Obj.get (if ?c then _ else _) _) = _ \/ _ => destruct c end;
      rewrite ?(flags_update_keeps _ _ (add_time _)) by same_flags;
      rewrite flags_update_keeps by exact Hty;
      destruct (flags_ensure (interactions s) (key_of (id post)) (fresh_record post now) k)
        as [->|[Hnone ->]]; auto; right; now rewrite Hnone.
  - unfold like. simpl.
    rewrite !flags_update_keeps by same_flags.
    destruct (flags_ensure (interactions s) (key_of (id post)) (fresh_record post now) k)
      as [->|[Hnone ->]]; auto; right; now rewrite Hnone.
  - unfold comment. simpl.
    assert (Hens := flags_ensure (interactions s) (key_of (id post)) (fresh_record post now) k).
    destruct (Obj.get (ensure _ _ _) (key_of (id post))) as [r|].
    + destruct (commented r).
      * destruct Hens as [->|[Hnone ->]]; auto; right; now rewrite Hnone.
      * rewrite !flags_update_keeps by same_flags.
        destruct Hens as [->|[Hnone ->]]; auto; right; now rewrite Hnone.
    + destruct Hens as [->|[Hnone ->]]; auto; right; now rewrite Hnone.
  - unfold recordTimeSpentOnCurrentPost.
    destruct (lastViewedPostId s) as [l|]; [|now left].
    destruct (postViewStartTime s) as [start|]; [|now left].
    destruct (_ && _); [|now left]. simpl.
    destruct (Obj.get (interactions s) l) eqn:El.
    + left. now rewrite flags_update_keeps by same_flags.
    + destruct (string_dec k l) as [->|Hne].
      * right. rewrite El, ObjFacts.get_set_same. auto.
      * left. now rewrite ObjFacts.get_set_other.
  - now left.
Qed.

(** A recording about one post leaves the records of the others alone. *)
Lemma recordInteraction_other_keys type post now s k :
  k <> key_of (id post) ->
  flags_at (recordInteraction type post now s) k = flags_at s k.
Proof.
  intros Hne. unfold recordInteraction, flags_at.
  destruct (falsy_id (id post)); [reflexivity|]. simpl.
  rewrite get_update_other by assumption.
  match goal with |- option_map _ (Obj.get (if ?c then _ else _) _) = _ => destruct c end;
    rewrite ?get_update_other by assumption;
    now rewrite get_ensure_other.
Qed.

(** C9. Whatever events are recorded, no record ever has [interested] and
    [not_interested] both set. Recording ['interested'] for a post sets
    [interested] and clears [not_interested] on its record; recording
    ['not_interested'] does the opposite; either leaves the records of the
    other posts alone. No other operation (another type of recording, a
    like, a comment, time spent, the start of a view) changes either flag
    of a record, and a record such an operation creates has both unset. *)
Theorem interest_flags_exclusive :
  (forall evs k r,
      Obj.get (interactions (run initial evs)) k = Some r ->
      interested r && not_interested r = false)
  /\ (forall s post now k,
         id post = Some k -> k <> ""%string ->
         flags_at (recordInteraction "interested" post now s) k = Some (true, false))
  /\ (forall s post now k,
         id post = Some k -> k <> ""%string ->
         flags_at (recordInteraction "not_interested" post now s) k = Some (false, true))
  /\ (forall s type post now k,
         k <> key_of (id post) ->
         flags_at (recordInteraction type post now s) k = flags_at s k)
  /\ (forall s e k,
         records_interest e = false ->
         flags_at (apply s e) k = flags_at s k
         \/ (flags_at s k = None /\ flags_at (apply s e) k = Some (false, false))).
Proof.
  split; [|split; [|split; [|split]]].
  - intros evs k r Hr.
    apply (run_exclusive evs initial) with (k := k); [|exact Hr].
    intros k' r' Hempty. discriminate Hempty.
  - intros s post now k Hid Hk. now rewrite (recordInteraction_flags _ _ _ _ k Hid Hk).
  - intros s post now k Hid Hk. now rewrite (recordInteraction_flags _ _ _ _ k Hid Hk).
  - intros s type post now k. apply recordInteraction_other_keys.
  - apply other_operations_keep_flags.
Qed.

End StoreFacts.

(** ** The sort *)

Module SortFacts.

Section SortFacts.
Context {A : Type} (cmp : A -> A -> float).

Lemma sort_insert_perm x l : Permutation (sort_insert cmp x l) (x :: l).
Proof.
  induction l as [|y l IH]; simpl; [reflexivity|].
  destruct (JS.gt (cmp x y) 0); [|reflexivity].
  rewrite IH. apply perm_swap.
Qed.

Lemma js_sort_perm l : Permutation (js_sort cmp l) l.
Proof.
  induction l as [|x l IH]; simpl; [reflexivity|].
  rewrite sort_insert_perm. now constructor.
Qed.

Lemma js_sort_In l x : In x (js_sort cmp l) <-> In x l.
Proof.
  split; apply Permutation_in; [apply js_sort_perm | symmetry; apply js_sort_perm].
Qed.

Lemma js_sort_length l : length (js_sort cmp l) = length l.
Proof. apply Permutation_length, js_sort_perm. Qed.

(** When the comparator orders by a numeric key, and no key is [NaN],
    the sort arranges the keys in descending order. *)
Variable key : A -> float.
Hypothesis cmp_key : forall a b, JS.gt (cmp a b) 0 = (key a <? key b)%float.

Lemma sort_insert_descending x l :
  is_nan (key x) = false ->
  Forall (fun a => is_nan (key a) = false) l ->
  StronglySorted (descending key) l ->
  StronglySorted (descending key) (sort_insert cmp x l).
Proof.
  intros Hx. induction l as [|y l IH]; intros Hl Hs; simpl.
  - repeat constructor.
  - inversion Hl as [|? ? Hny Hl']; subst.
    inversion Hs as [|? ? Hs' Hy]; subst.
    rewrite cmp_key. destruct (key x <? key y)%float eqn:E.
    + constructor; [apply IH; assumption|].
      apply Forall_forall. intros z Hz.
      apply (Permutation_in _ (sort_insert_perm x l)) in Hz.
      destruct Hz as [<-|Hz].
      * now apply FloatFacts.ltb_leb.
      * rewrite Forall_forall in Hy. now apply Hy.
    + assert (Hxy : descending key x y) by now apply FloatFacts.not_ltb_leb.
      constructor; [assumption|].
      constructor; [exact Hxy|].
      apply Forall_forall. intros z Hz. rewrite Forall_forall in Hy.
      unfold descending in *. eapply FloatFacts.leb_trans; [apply (Hy z Hz) | exact Hxy].
Qed.

Lemma js_sort_descending l :
  Forall (fun a => is_nan (key a) = false) l ->
  StronglySorted (descending key) (js_sort cmp l).
Proof.
  induction 1 as [|x l Hx Hl IH]; simpl; [constructor|].
  apply sort_insert_descending; [assumption | | assumption].
  apply Forall_forall. intros z Hz. apply (proj1 (js_sort_In l z)) in Hz.
  rewrite Forall_forall in Hl. now apply Hl.
Qed.

End SortFacts.

End SortFacts.

(** ** The rule-based scorer *)

Module ScorerFacts.
Import SortFacts.

Lemma includes_In (l : list string) (s : string) : includes l s = true <-> In s l.
Proof.
  unfold includes. rewrite existsb_exists. split.
  - intros [x [Hin Heq]]. apply String.eqb_eq in Heq. now subst.
  - intros Hin. exists s. split; [assumption | apply String.eqb_refl].
Qed.

Lemma by_weight_desc_key (a b : WeightedEntry) :
  JS.gt (by_weight_desc a b) 0 = (weight a <? weight b)%float.
Proof. unfold JS.gt, by_weight_desc. apply FloatFacts.sub_pos_iff_lt. Qed.

(** *** The tables *)

Lemma keys_init_from (V : list string) (o : Obj.t ScoreData) :
  forall k, In k (Obj.keys (fold_left (fun o key => Obj.set o key zero_score) V o))
            <-> In k (Obj.keys o) \/ In k V.
Proof.
  revert o. induction V as [|v V IH]; intros o k; simpl; [tauto|].
  rewrite IH, ObjFacts.In_keys_set. intuition congruence.
Qed.

Lemma keys_init (V : list string) (k : string) : In k (Obj.keys (init_scores V)) <-> In k V.
Proof. unfold init_scores. rewrite keys_init_from. simpl. tauto. Qed.

Lemma NoDup_keys_init (V : list string) : NoDup (Obj.keys (init_scores V)).
Proof.
  unfold init_scores.
  assert (H : forall o : Obj.t ScoreData, NoDup (Obj.keys o) ->
              NoDup (Obj.keys (fold_left (fun o key => Obj.set o key zero_score) V o))).
  { induction V as [|v V IH]; intros o Ho; simpl; [assumption|].
    apply IH. now apply ObjFacts.NoDup_keys_set. }
  apply H. constructor.
Qed.

(** On a vocabulary without repetition the table lists it in order. *)
Lemma keys_init_NoDup (V : list string) : NoDup V -> Obj.keys (init_scores V) = V.
Proof.
  unfold init_scores.
  assert (H : forall o : Obj.t ScoreData,
             NoDup (Obj.keys o ++ V) ->
             Obj.keys (fold_left (fun o key => Obj.set o key zero_score) V o) = Obj.keys o ++ V).
  { induction V as [|v V IH]; intros o Ho; simpl; [now rewrite app_nil_r|].
    assert (Hv : ~ In v (Obj.keys o)).
    { intros Hin. apply NoDup_remove_2 in Ho. apply Ho. apply in_or_app. now left. }
    rewrite IH; rewrite ObjFacts.keys_set_absent by assumption.
    - now rewrite <- app_assoc.
    - now rewrite <- app_assoc. }
  intros HV. now rewrite H.
Qed.

Lemma get_init_from (V : list string) (o : Obj.t ScoreData) (k : string) :
  (forall d, Obj.get o k = Some d -> d = zero_score) ->
  forall d, Obj.get (fold_left (fun o key => Obj.set o key zero_score) V o) k = Some d ->
            d = zero_score.
Proof.
  revert o. induction V as [|v V IH]; intros o Ho d; simpl; [apply Ho|].
  apply IH. intros d'. destruct (string_dec k v) as [->|Hne].
  - rewrite ObjFacts.get_set_same. now intros [= <-].
  - rewrite ObjFacts.get_set_other by assumption. apply Ho.
Qed.

Lemma get_init (V : list string) (k : string) :
  Obj.get (init_scores V) k = if in_dec string_dec k V then Some zero_score else None.
Proof.
  destruct (in_dec string_dec k V) as [Hin|Hin].
  - destruct (Obj.get (init_scores V) k) as [d|] eqn:E.
    + f_equal. apply (get_init_from V Obj.empty k); [discriminate | exact E].
    + apply ObjFacts.get_None_keys in E. rewrite keys_init in E. contradiction.
  - apply ObjFacts.get_None_keys. now rewrite keys_init.
Qed.

(** [accumulate] rewrites the accumulator of a present key and does
    nothing for an absent one. *)
Lemma accumulate_keys score o key : Obj.keys (accumulate score o key) = Obj.keys o.
Proof.
  unfold accumulate. destruct (Obj.get o key) eqn:E; [|reflexivity].
  apply ObjFacts.keys_set_present.
  destruct (in_dec string_dec key (Obj.keys o)) as [H|H]; [assumption|].
  apply ObjFacts.get_None_keys in H. congruence.
Qed.

Lemma get_accumulate score o key k :
  Obj.get (accumulate score o key) k
  = if String.eqb key k then option_map (Spec.bump score) (Obj.get o k) else Obj.get o k.
Proof.
  unfold accumulate. destruct (String.eqb key k) eqn:E.
  - apply String.eqb_eq in E. subst k.
    destruct (Obj.get o key) eqn:G; simpl; [apply ObjFacts.get_set_same | assumption].
  - apply String.eqb_neq in E.
    destruct (Obj.get o key); [|reflexivity].
    apply ObjFacts.get_set_other. congruence.
Qed.

Lemma get_accumulate_names score names o k :
  Obj.get (fold_left (accumulate score) names o) k
  = option_map
      (fun d => fold_left (fun d name => if String.eqb name k then Spec.bump score d else d)
                          names d)
      (Obj.get o k).
Proof.
  revert o. induction names as [|name names IH]; intros o; simpl.
  - now destruct (Obj.get o k).
  - rewrite IH, get_accumulate.
    destruct (String.eqb name k); [|reflexivity].
    now destruct (Obj.get o k).
Qed.

Lemma accumulate_names_keys score names o :
  Obj.keys (fold_left (accumulate score) names o) = Obj.keys o.
Proof.
  revert o. induction names as [|name names IH]; intros o; simpl; [reflexivity|].
  now rewrite IH, accumulate_keys.
Qed.

(** The two tables evolve independently of each other. *)
Lemma accumulate_all_fst interactions a b :
  fst (accumulate_all interactions (a, b))
  = fold_left (fun o inter =>
                 fold_left (accumulate (reactionScore inter)) (list_or_empty (topics inter)) o)
              interactions a.
Proof.
  unfold accumulate_all. revert a b.
  induction interactions as [|inter l IH]; intros a b; simpl; [reflexivity|].
  unfold accumulate_record at 2. simpl. apply IH.
Qed.

Lemma accumulate_all_snd interactions a b :
  snd (accumulate_all interactions (a, b))
  = fold_left (fun o inter =>
                 fold_left (accumulate (reactionScore inter)) (list_or_empty (hashtags inter)) o)
              interactions b.
Proof.
  unfold accumulate_all. revert a b.
  induction interactions as [|inter l IH]; intros a b; simpl; [reflexivity|].
  unfold accumulate_record at 2. simpl. apply IH.
Qed.

Section OneTable.
Variable field : Interaction -> option (list string).

Lemma table_keys interactions o : Obj.keys (table field interactions o) = Obj.keys o.
Proof.
  unfold table. revert o. induction interactions as [|inter l IH]; intros o; simpl; [reflexivity|].
  now rewrite IH, accumulate_names_keys.
Qed.

Lemma get_table interactions o k :
  Obj.get (table field interactions o) k
  = option_map
      (fun d =>
         fold_left
           (fun d inter =>
              fold_left (fun d name => if String.eqb name k
                                       then Spec.bump (reactionScore inter) d else d)
                        (list_or_empty (field inter)) d)
           interactions d)
      (Obj.get o k).
Proof.
  unfold table. revert o. induction interactions as [|inter l IH]; intros o; simpl.
  - now destruct (Obj.get o k).
  - rewrite IH, get_accumulate_names. now destruct (Obj.get o k).
Qed.

(** The accumulator the loop leaves under a vocabulary name is its tally;
    no other name has an accumulator. *)
Lemma get_table_init V interactions k :
  Obj.get (table field interactions (init_scores V)) k
  = if in_dec string_dec k V then Some (Spec.tally field k interactions) else None.
Proof.
  rewrite get_table, get_init. now destruct (in_dec string_dec k V).
Qed.

End OneTable.

Lemma NoDup_keys_get {V : Type} (o : Obj.t V) k v :
  NoDup (Obj.keys o) -> In (k, v) o -> Obj.get o k = Some v.
Proof.
  induction o as [|[k' v'] o IH]; simpl; [tauto|].
  intros Hnd [Heq|Hin].
  - injection Heq as -> ->. now rewrite String.eqb_refl.
  - inversion Hnd as [|? ? Hnotin Hnd']; subst.
    destruct (String.eqb k k') eqn:E.
    + apply String.eqb_eq in E. subst k'. exfalso. apply Hnotin.
      change k with (fst (k, v)). now apply in_map.
    + now apply IH.
Qed.

(** The code's composite weight is the weight of the specification. *)
Lemma composite_weight n k d : composite n (k, d) = mkEntry k (Spec.weight_of n d).
Proof.
  unfold composite, Spec.weight_of, JS.gt. simpl. f_equal.
  now rewrite (FloatFacts.mul_comm 0.6), (FloatFacts.mul_comm 0.4).
Qed.

Lemma scored_table field V interactions :
  top_entries (scored (length interactions) (table field interactions (init_scores V)))
  = Spec.selection field (Obj.keys (init_scores V)) interactions.
Proof.
  unfold top_entries, scored, Spec.selection, Obj.entries.
  set (T := table field interactions (init_scores V)).
  assert (Hmap : map (composite (length interactions)) T
                 = map (Spec.entry_of field interactions) (Obj.keys (init_scores V))).
  { rewrite <- (table_keys field interactions (init_scores V)). fold T.
    unfold Obj.keys. rewrite map_map. apply map_ext_in. intros [k d] Hin. simpl.
    rewrite composite_weight. unfold Spec.entry_of. do 2 f_equal.
    assert (Hget : Obj.get T k = Some d).
    { apply NoDup_keys_get; [|assumption].
      unfold T. rewrite table_keys. apply NoDup_keys_init. }
    unfold T in Hget. rewrite get_table_init in Hget.
    destruct (in_dec string_dec k V); congruence. }
  rewrite Hmap. reflexivity.
Qed.

(** The rule-based scorer, as the selection the specification describes. *)
Lemma analyzeWithoutModel_selection MODEL_TOPICS MODEL_HASHTAGS interactions :
  analyzeWithoutModel MODEL_TOPICS MODEL_HASHTAGS interactions
  = mkInterest
      (Spec.selection topics (Obj.keys (init_scores MODEL_TOPICS)) interactions)
      (Spec.selection hashtags (Obj.keys (init_scores MODEL_HASHTAGS)) interactions).
Proof.
  unfold analyzeWithoutModel.
  rewrite accumulate_all_fst, accumulate_all_snd.
  fold (table topics interactions (init_scores MODEL_TOPICS)).
  fold (table hashtags interactions (init_scores MODEL_HASHTAGS)).
  now rewrite !scored_table.
Qed.

(** *** The selection *)

Lemma selection_entries field keys interactions :
  Forall (fun e =>
            e = Spec.entry_of field interactions (name e)
            /\ In (name e) keys
            /\ (0.1 <? weight e)%float = true
            /\ (weight e =? 0)%float = false)
         (Spec.selection field keys interactions).
Proof.
  apply Forall_forall. intros e He. unfold Spec.selection in He.
  apply ListFacts.In_firstn in He. apply filter_In in He. destruct He as [He Hgt].
  apply (proj1 (js_sort_In _ _ _)) in He. apply filter_In in He. destruct He as [He Hnz].
  apply in_map_iff in He. destruct He as [k [<- Hk]]. simpl.
  repeat split; auto. now apply negb_true_iff.
Qed.

Lemma selection_length field keys interactions :
  length (Spec.selection field keys interactions) <= 5.
Proof. apply firstn_le_length. Qed.

Lemma selection_descending field keys interactions :
  Forall (fun k => is_nan (weight (Spec.entry_of field interactions k)) = false) keys ->
  StronglySorted (descending weight) (Spec.selection field keys interactions).
Proof.
  intros Hnan. unfold Spec.selection.
  apply ListFacts.StronglySorted_firstn, ListFacts.StronglySorted_filter.
  apply js_sort_descending; [apply by_weight_desc_key|].
  apply Forall_forall. intros e He. apply filter_In in He. destruct He as [He _].
  apply in_map_iff in He. destruct He as [k [<- Hk]].
  rewrite Forall_forall in Hnan. now apply Hnan.
Qed.



(** The example of the specification: ten likes on ["sports"] and ten
    rejections of ["politics"] give ["sports"] a positive weight and
    ["politics"] a negative one, and only ["sports"] is returned. *)
Lemma sports_and_politics_example :
  map (fun k => weight (Spec.entry_of topics Examples.sports_and_politics k))
      ["sports"%string; "politics"%string]
  = [2.3999999999999999%float; (-3.2000000000000002)%float]
  /\ map name (is_topics (analyzeWithoutModel ["sports"%string; "politics"%string] []
                            Examples.sports_and_politics))
     = ["sports"%string].
Proof. split; vm_compute; reflexivity. Qed.

(** *** Names outside the vocabulary *)

Lemma tally_step_filter V k score names d :
  In k V ->
  fold_left (fun d name => if String.eqb name k then Spec.bump score d else d)
            (filter (includes V) names) d
  = fold_left (fun d name => if String.eqb name k then Spec.bump score d else d) names d.
Proof.
  intros Hk. revert d. induction names as [|name names IH]; intros d; simpl; [reflexivity|].
  destruct (includes V name) eqn:E; simpl; [apply IH|].
  destruct (String.eqb name k) eqn:Ek; [|apply IH].
  apply String.eqb_eq in Ek. subst name.
  apply includes_In in Hk. congruence.
Qed.

Lemma tally_known_only field V VT VH k interactions :
  (forall inter, list_or_empty (field (Spec.known_only VT VH inter))
                 = filter (includes V) (list_or_empty (field inter))) ->
  In k V ->
  Spec.tally field k (map (Spec.known_only VT VH) interactions)
  = Spec.tally field k interactions.
Proof.
  intros Hfield Hk. unfold Spec.tally. generalize zero_score.
  induction interactions as [|inter l IH]; intros d; simpl; [reflexivity|].
  rewrite IH, Hfield. f_equal.
  change (reactionScore (Spec.known_only VT VH inter)) with (reactionScore inter).
  now apply tally_step_filter.
Qed.

Lemma selection_known_only field V VT VH interactions :
  (forall inter, list_or_empty (field (Spec.known_only VT VH inter))
                 = filter (includes V) (list_or_empty (field inter))) ->
  Spec.selection field (Obj.keys (init_scores V)) (map (Spec.known_only VT VH) interactions)
  = Spec.selection field (Obj.keys (init_scores V)) interactions.
Proof.
  intros Hfield. unfold Spec.selection. do 4 f_equal.
  apply map_ext_in. intros k Hk. apply (proj1 (keys_init V k)) in Hk.
  unfold Spec.entry_of. rewrite length_map.
  rewrite (tally_known_only field V VT VH k interactions Hfield Hk). reflexivity.
Qed.

Lemma selection_names field keys interactions :
  Forall (fun e => In (name e) keys) (Spec.selection field keys interactions).
Proof.
  apply Forall_forall. intros e He. unfold Spec.selection in He.
  apply ListFacts.In_firstn in He. apply filter_In in He. destruct He as [He _].
  apply (proj1 (js_sort_In _ _ _)) in He. apply filter_In in He. destruct He as [He _].
  apply in_map_iff in He. destruct He as [k [<- Hk]]. exact Hk.
Qed.

(** C10. [analyzeWithoutModel] only produces entries named in the current
    vocabulary ([MODEL_TOPICS] for topics, [MODEL_HASHTAGS] for hashtags).
    A name that occurs in the records but not in the vocabulary has no
    accumulator in the tables of the loop (nothing positive or negative is
    added for it and it is not counted), the accumulator of a vocabulary
    name is the tally of its own occurrences, and removing the unknown
    names from the records leaves the result as it is. *)
Theorem scorer_stays_in_vocabulary
    (MODEL_TOPICS MODEL_HASHTAGS : list string) (interactions : list Interaction) :
  let result := analyzeWithoutModel MODEL_TOPICS MODEL_HASHTAGS interactions in
  let tables :=
    accumulate_all interactions (init_scores MODEL_TOPICS, init_scores MODEL_HASHTAGS) in
  Forall (fun e => In (name e) MODEL_TOPICS) (is_topics result)
  /\ Forall (fun e => In (name e) MODEL_HASHTAGS) (is_hashtags result)
  /\ (forall t, Obj.get (fst tables) t
                = if in_dec string_dec t MODEL_TOPICS
                  then Some (Spec.tally topics t interactions) else None)
  /\ (forall h, Obj.get (snd tables) h
                = if in_dec string_dec h MODEL_HASHTAGS
                  then Some (Spec.tally hashtags h interactions) else None)
  /\ analyzeWithoutModel MODEL_TOPICS MODEL_HASHTAGS
        (map (Spec.known_only MODEL_TOPICS MODEL_HASHTAGS) interactions)
      = result.
Proof.
  intros result tables. unfold result, tables.
  rewrite !analyzeWithoutModel_selection. simpl.
  repeat split.
  - eapply Forall_impl; [|apply selection_names]. intros e. apply keys_init.
  - eapply Forall_impl; [|apply selection_names]. intros e. apply keys_init.
  - intros t. rewrite accumulate_all_fst. apply (get_table_init topics).
  - intros h. rewrite accumulate_all_snd. apply (get_table_init hashtags).
  - f_equal.
    + apply selection_known_only. intros inter. simpl. now destruct (topics inter).
    + apply selection_known_only. intros inter. simpl. now destruct (hashtags inter).
Qed.

End ScorerFacts.

(** ** Training *)

Section TrainingFacts.
Variable Model : Type.
Variable build_model : nat -> option Model.
Variable fit : Model -> list (list float) -> list (list float) -> option Model.
Implicit Types (st : ModelState Model) (c : Config Model).

Lemma load_force_flags st :
  modelTrained (loadModel_body build_model true st) = false
  /\ modelTraining (loadModel_body build_model true st) = modelTraining st
  /\ modelTrainingPromise (loadModel_body build_model true st) = modelTrainingPromise st
  /\ MODEL_TOPICS (loadModel_body build_model true st) = MODEL_TOPICS st.
Proof.
  unfold loadModel_body. rewrite orb_true_r.
  destruct (length (MODEL_TOPICS st) =? 0); [now simpl|].
  destruct (build_model _); now simpl.
Qed.

Lemma catch_finally_flags (k : Completion Model) :
  snd (catch_finally k) = Returned
  /\ modelTraining (fst (catch_finally k)) = false
  /\ modelTrainingPromise (fst (catch_finally k)) = None
  /\ modelTrained (fst (catch_finally k))
     = match k with Normal st => modelTrained st | Thrown _ => false end.
Proof. destruct k; now simpl. Qed.

(** Where a run that has been called stands. *)
Lemma call_cases st (interactionsArr : list Interaction) :
  (trainModel_call build_model st interactionsArr = (st, Returned)
   /\ (modelTraining st = true \/ MODEL_TOPICS st = []
       \/ length interactionsArr < MIN_INTERACTIONS))
  \/ (trainModel_call build_model st interactionsArr
      = (loadModel_body build_model true st, AwaitLoad interactionsArr)
      /\ modelTraining st = false /\ MODEL_TOPICS st <> []
      /\ MIN_INTERACTIONS <= length interactionsArr).
Proof.
  unfold trainModel_call.
  destruct (modelTraining st) eqn:Et; simpl; [left; auto|].
  destruct (MODEL_TOPICS st) as [|t ts] eqn:Ev; simpl; [left; auto|].
  destruct (length interactionsArr <? MIN_INTERACTIONS) eqn:El.
  - left. apply Nat.ltb_lt in El. auto.
  - right. apply Nat.ltb_ge in El. repeat split; auto. discriminate.
Qed.

(** Where a run stands once [loadModel(true)] is behind it. *)
Lemma after_load_cases (self : nat) st (interactions : list Interaction) :
  let r := trainModel_after_load self st interactions in
  (exists m xs ys,
      snd r = AwaitFit m xs ys
      /\ xs <> []
      /\ xs = fst (build_examples (MODEL_TOPICS st) (JS.slice_last 100 interactions))
      /\ tfModel st = Some m
      /\ modelTraining (fst r) = true
      /\ modelTrained (fst r) = modelTrained st)
  \/ (snd r = Returned
      /\ modelTraining (fst r) = false
      /\ modelTrainingPromise (fst r) = None
      /\ (modelTrained (fst r) = true -> modelTrained st = true)).
Proof.
  unfold trainModel_after_load. simpl.
  destruct (build_examples _ _) as [xs ys] eqn:Eb. simpl.
  destruct ((0 <? length xs) && (0 <? length (hd [] xs))) eqn:Eu.
  - destruct (tfModel st) as [m|] eqn:Em; simpl.
    + left. exists m, xs, ys. repeat split; auto.
      destruct xs; discriminate.
    + right. repeat split; auto. discriminate.
  - right. simpl. repeat split; auto.
Qed.

Lemma after_fit_cases st (m : Model) (xs ys : list (list float)) :
  let r := trainModel_after_fit fit st m xs ys in
  snd r = Returned
  /\ modelTraining (fst r) = false
  /\ modelTrainingPromise (fst r) = None
  /\ modelTrained (fst r) = match fit m xs ys with Some _ => true | None => false end.
Proof.
  unfold trainModel_after_fit. destruct (fit m xs ys); now simpl.
Qed.

(** Records without a [topics] array give no training example. *)
Lemma build_examples_without_topics (V : list string) (l : list Interaction) :
  Forall (fun inter => topics inter = None) l -> fst (build_examples V l) = [].
Proof.
  intros H. unfold build_examples. rewrite build_examples_from. simpl.
  induction H as [|inter l Hi _ IH]; simpl; [reflexivity|].
  now rewrite Hi.
Qed.

Lemma tfModel_catch_finally (k : Completion Model) :
  tfModel (fst (catch_finally k)) = match k with Normal st => tfModel st | Thrown st => tfModel st end.
Proof. destruct k; reflexivity. Qed.

(** *** The flag across interleaved runs *)

Lemma replace_nth_same {X : Type} (n : nat) (x : X) (l : list X) :
  nth_error l n = Some x -> replace_nth n x l = l.
Proof.
  revert n. induction l as [|y l IH]; intros [|n]; simpl; try discriminate.
  - now intros [= ->].
  - intros H. f_equal. now apply IH.
Qed.

Lemma existsb_replace_nth {X : Type} (f : X -> bool) (n : nat) (x y : X) (l : list X) :
  nth_error l n = Some y -> f x = true -> existsb f (replace_nth n x l) = true.
Proof.
  revert n. induction l as [|z l IH]; intros [|n]; simpl; try discriminate.
  - intros _ ->. reflexivity.
  - intros Hn Hx. rewrite (IH n Hn Hx). apply orb_true_r.
Qed.

Lemma step_flag_owned c (a : Action) :
  flag_owned c -> flag_owned (step build_model fit c a).
Proof.
  unfold flag_owned. intros Hc. destruct a as [interactionsArr | run]; cbn [step].
  - destruct (call_cases (cstate c) interactionsArr) as [[-> _] | [-> [Hidle _]]];
      cbn [cstate tasks].
    + intros Hflag. rewrite existsb_app, (Hc Hflag). reflexivity.
    + destruct (load_force_flags (cstate c)) as [_ [Htr _]]. congruence.
  - destruct (nth_error (tasks c) run) as [t|] eqn:Ht; [|assumption].
    destruct t as [interactions | m xs ys | | ]; cbn [resume].
    + destruct (after_load_cases run (cstate c) interactions)
        as [[m [xs [ys [Ht2 _]]]] | [_ [Hflag _]]];
        destruct (trainModel_after_load run (cstate c) interactions) as [st2 t2];
        cbn [fst snd cstate tasks] in *.
      * intros _. subst t2. now apply existsb_replace_nth with (y := AwaitLoad interactions).
      * congruence.
    + destruct (after_fit_cases (cstate c) m xs ys) as [_ [Hflag _]].
      destruct (trainModel_after_fit fit (cstate c) m xs ys) as [st2 t2].
      cbn [fst snd cstate tasks] in *. congruence.
    + cbn [cstate tasks]. now rewrite replace_nth_same.
    + cbn [cstate tasks]. now rewrite replace_nth_same.
Qed.

Lemma run_flag_owned (actions : list Action) c :
  flag_owned c -> flag_owned (run_actions build_model fit c actions).
Proof.
  unfold run_actions. revert c.
  induction actions as [|a actions IH]; intros c Hc; simpl; [assumption|].
  apply IH. now apply step_flag_owned.
Qed.

Lemma all_returned_none_fitting (l : list (TrainTask Model)) :
  forallb returned l = true -> existsb awaits_fit l = false.
Proof.
  induction l as [|t l IH]; simpl; [reflexivity|].
  intros H. apply andb_true_iff in H. destruct H as [Ht Hl].
  rewrite (IH Hl). now destruct t.
Qed.


End TrainingFacts.


(** ** Overlapping requests to train *)

(** The claim of C7 fails on the code where it has the second request
    wait: called while the first run is awaiting [fit], [trainModel]
    returns at once, with the first run still in flight. *)
Lemma second_request_does_not_wait :
  let c := run_actions Examples.toy_build Examples.toy_fit
             (quiescent (Examples.untrained ["sports"%string] []))
             [Trigger Examples.ten_liked; Resume 0; Trigger Examples.ten_liked] in
  map in_flight (tasks c) = [true; false]
  /\ map returned (tasks c) = [false; true]
  /\ modelTraining (cstate c) = true
  /\ fitCalls c = 1.
Proof. vm_compute. repeat split; reflexivity. Qed.

(** Two calls made back to back, before the first has resumed from
    [await loadModel(true)], both pass the guard of line 65, since
    [modelTraining] is only set at line 71: both runs call [fit]. *)
Lemma back_to_back_calls_both_fit :
  let c := run_actions Examples.toy_build Examples.toy_fit
             (quiescent (Examples.untrained ["sports"%string] []))
             [Trigger Examples.ten_liked; Trigger Examples.ten_liked; Resume 0; Resume 1] in
  map awaits_fit (tasks c) = [true; true] /\ fitCalls c = 2.
Proof. vm_compute. repeat split; reflexivity. Qed.

Section OverlapFacts.
Variable Model : Type.
Variable build_model : nat -> option Model.
Variable fit : Model -> list (list float) -> list (list float) -> option Model.
Implicit Types (st : ModelState Model) (c : Config Model).

Lemma step_trigger_busy c (interactionsArr : list Interaction) :
  modelTraining (cstate c) = true ->
  step build_model fit c (Trigger interactionsArr)
  = mkConfig (cstate c) (tasks c ++ [Returned]) (fitCalls c).
Proof.
  intros H. unfold step, trainModel_call. now rewrite H.
Qed.

Lemma run_trigger_resume st (interactionsArr : list Interaction) :
  run_actions build_model fit (quiescent st) [Trigger interactionsArr; Resume 0]
  = let '(st1, t1) := trainModel_call build_model st interactionsArr in
    let '(st2, t2) := resume fit 0 st1 t1 in
    mkConfig st2 [t2] (if awaits_load t1 && awaits_fit t2 then 1 else 0).
Proof.
  unfold run_actions, quiescent. simpl.
  destruct (trainModel_call build_model st interactionsArr) as [st1 t1]. simpl.
  now destruct (resume fit 0 st1 t1).
Qed.

(** A first run that has set the flag is awaiting its one call of [fit]. *)
Lemma first_run_in_flight st (interactionsArr : list Interaction) :
  modelTraining st = false ->
  let c1 := run_actions build_model fit (quiescent st) [Trigger interactionsArr; Resume 0] in
  modelTraining (cstate c1) = true ->
  exists m xs ys, tasks c1 = [AwaitFit m xs ys] /\ fitCalls c1 = 1.
Proof.
  intros Hidle c1. unfold c1. clear c1. rewrite run_trigger_resume.
  destruct (call_cases Model build_model st interactionsArr) as [[-> _] | [-> _]].
  - simpl. congruence.
  - cbn [resume].
    destruct (after_load_cases Model 0 (loadModel_body build_model true st) interactionsArr)
      as [[m [xs [ys [Ht2 [_ [_ [_ [Hflag _]]]]]]]] | [Ht2 [Hflag _]]];
      destruct (trainModel_after_load 0 _ interactionsArr) as [st2 t2];
      simpl in *; subst t2; simpl.
    + intros _. exists m, xs, ys. auto.
    + congruence.
Qed.

(** C7, amended. A request to train made while [modelTraining] is set
    returns at once: it does not wait for the run in flight, starts no
    training and changes nothing. So when a second trigger arrives after
    the first run has set the flag, the first run is the only one to call
    [fit]: the two triggers make exactly one call, and when the first run
    has finished both promises are fulfilled and the flag is clear. *)
Theorem train_request_while_training_is_dropped :
  (forall c (interactionsArr : list Interaction),
      modelTraining (cstate c) = true ->
      step build_model fit c (Trigger interactionsArr)
      = mkConfig (cstate c) (tasks c ++ [Returned]) (fitCalls c))
  /\ (forall st (first second : list Interaction),
         modelTraining st = false ->
         let c1 := run_actions build_model fit (quiescent st) [Trigger first; Resume 0] in
         modelTraining (cstate c1) = true ->
         let c2 := run_actions build_model fit c1 [Trigger second] in
         let c3 := run_actions build_model fit c2 [Resume 0; Resume 1] in
         map returned (tasks c2) = [false; true]
         /\ cstate c2 = cstate c1
         /\ fitCalls c2 = 1
         /\ map returned (tasks c3) = [true; true]
         /\ fitCalls c3 = 1
         /\ modelTraining (cstate c3) = false).
Proof.
  split; [apply step_trigger_busy|].
  intros st first second Hidle c1 Hbusy c2 c3.
  destruct (first_run_in_flight st first Hidle Hbusy) as [m [xs [ys [Htasks Hfits]]]].
  fold c1 in Htasks, Hfits. clearbody c1.
  assert (Hc2 : c2 = mkConfig (cstate c1) [AwaitFit m xs ys; Returned] 1).
  { unfold c2, run_actions. cbn [fold_left].
    rewrite step_trigger_busy by assumption. now rewrite Htasks, Hfits. }
  unfold c3, run_actions. rewrite Hc2. cbn [fold_left].
  destruct (after_fit_cases Model fit (cstate c1) m xs ys) as [Hr [Hf _]].
  set (r := trainModel_after_fit fit (cstate c1) m xs ys) in *.
  assert (Hstep : step build_model fit (mkConfig (cstate c1) [AwaitFit m xs ys; Returned] 1)
                       (Resume 0)
                  = mkConfig (fst r) [snd r; Returned] 1).
  { unfold step. simpl. fold r. now destruct r. }
  rewrite Hstep, Hr. simpl. auto 10.
Qed.

End OverlapFacts.

Lemma train_request_while_training_is_dropped_witness :
  fitCalls
    (run_actions Examples.toy_build Examples.toy_fit
       (quiescent (Examples.untrained ["sports"%string] []))
       [Trigger Examples.ten_liked; Resume 0; Trigger Examples.ten_liked; Resume 0; Resume 1])
  = 1.
Proof.
  refine (proj1 (proj2 (proj2 (proj2 (proj2
            (proj2 (train_request_while_training_is_dropped nat Examples.toy_build Examples.toy_fit)
               (Examples.untrained ["sports"%string] [])
               Examples.ten_liked Examples.ten_liked eq_refl _)))))).
  vm_compute. reflexivity.
Defined.

(** ** The content-request handler *)

Module ServerFacts.
Import Server.

Lemma slice0_length {A : Type} (e : Z) (l : list A) :
  length (JS.slice0 e l)
  = Nat.min (if (e <? 0)%Z then Z.to_nat (Z.max (Z.of_nat (length l) + e) 0) else Z.to_nat e)
            (length l).
Proof. unfold JS.slice0. destruct (e <? 0)%Z; apply length_firstn. Qed.

(** For a limit that is not negative, [slice(0, limit)] truncates to it. *)
Lemma slice0_bound {A : Type} (e : Z) (l : list A) :
  (0 <= e)%Z -> (Z.of_nat (length (JS.slice0 e l)) <= e)%Z.
Proof.
  intros He. rewrite slice0_length.
  destruct (e <? 0)%Z eqn:E; [apply Z.ltb_lt in E; lia | lia].
Qed.

(** ... and returns everything when there is no more than that. *)
Lemma slice0_all {A : Type} (e : Z) (l : list A) :
  (Z.of_nat (length l) <= e)%Z -> JS.slice0 e l = l.
Proof.
  intros He. unfold JS.slice0.
  destruct (e <? 0)%Z eqn:E; [apply Z.ltb_lt in E; lia|].
  apply firstn_all2. lia.
Qed.

Lemma by_score_desc_key (a b : Candidate * float) :
  JS.gt (by_score_desc a b) 0 = (snd a <? snd b)%float.
Proof. unfold JS.gt, by_score_desc. apply FloatFacts.sub_pos_iff_lt. Qed.

(** A post none of whose topics and hashtags carries a weight scores 0. *)
Lemma matched_sum_none (m : Obj.t float) (names : list string) :
  Forall (fun t => Obj.get m t = None) names -> matched_sum m names = 0%float.
Proof.
  unfold matched_sum. induction 1 as [|t names Ht _ IH]; simpl; [reflexivity|].
  rewrite Ht. exact IH.
Qed.

Lemma post_score_none (topicWeightMap hashtagWeightMap : Obj.t float) (post : Post) :
  Forall (fun t => Obj.get topicWeightMap t = None) (list_or_empty (post_topics post)) ->
  Forall (fun h => Obj.get hashtagWeightMap h = None) (list_or_empty (post_hashtags post)) ->
  post_score topicWeightMap hashtagWeightMap post = 0%float.
Proof.
  intros Ht Hh. unfold post_score.
  destruct (post_topics post) as [[|t ts]|], (post_hashtags post) as [[|h hs]|];
    simpl in *; rewrite ?(matched_sum_none _ _ Ht), ?(matched_sum_none _ _ Hh); reflexivity.
Qed.

(** The ranking lists every post of the pool once, by descending score
    (the scores being numbers). *)
Lemma ranked_perm (posts : list Post) (userTopics userHashtags : Interest) :
  Permutation (map fst (ranked posts userTopics userHashtags)) (pool posts).
Proof.
  unfold ranked. rewrite (SortFacts.js_sort_perm by_score_desc).
  rewrite map_map. simpl. now rewrite map_id.
Qed.

Lemma ranked_descending (posts : list Post) (userTopics userHashtags : Interest) :
  Forall (fun post =>
            is_nan (post_score (weightMap userTopics) (weightMap userHashtags) post) = false)
         posts ->
  StronglySorted (descending snd) (ranked posts userTopics userHashtags).
Proof.
  intros Hnan. unfold ranked.
  apply SortFacts.js_sort_descending; [apply by_score_desc_key|].
  apply Forall_forall. intros [c sc] Hin. apply in_map_iff in Hin.
  destruct Hin as [c' [[= <- <-] Hc]]. simpl.
  rewrite Forall_forall in Hnan. apply Hnan.
  unfold pool in Hc. destruct c' as [i post]. now apply in_combine_r in Hc.
Qed.

(** The relevant core is the head of the ranking, of at most [2 × limit]
    posts. *)
Lemma relevant_length (posts : list Post) (userTopics userHashtags : Interest) (limit : Z) :
  (0 <= limit)%Z ->
  (Z.of_nat (length (relevant posts userTopics userHashtags limit)) <= 2 * limit)%Z.
Proof.
  intros H. unfold relevant. rewrite length_map.
  pose proof (slice0_bound (limit * 2) (ranked posts userTopics userHashtags)). lia.
Qed.

(** On integers, [Math.floor(limit * 0.3)] on binary64 numbers is the
    integer part of three tenths of the limit (checked for every limit
    from −1000 to 1000). *)
Lemma noiseCount_floor :
  forallb (fun limit => (noiseCount limit =? 3 * limit / 10)%Z)
          (map (fun n => (Z.of_nat n - 1000)%Z) (seq 0 2001)) = true.
Proof. vm_compute. reflexivity. Qed.

Section HandlerFacts.
Variable shuffle_noise : list Candidate -> list Candidate.
Variable shuffle_batch : list Candidate -> list Candidate.
Hypothesis shuffle_noise_perm : forall l, Permutation (shuffle_noise l) l.
Hypothesis shuffle_batch_perm : forall l, Permutation (shuffle_batch l) l.

(** The noise is made of posts the relevance filter excluded, at most
    [noiseCount] of them. *)
Lemma noise_excluded (posts : list Post) (core : list Candidate) (limit : Z) :
  (0 <= noiseCount limit)%Z ->
  (Z.of_nat (length (noise shuffle_noise posts core limit)) <= noiseCount limit)%Z
  /\ Forall (fun c => In c (pool posts) /\ includes_post core c = false)
            (noise shuffle_noise posts core limit).
Proof.
  intros Hn. unfold noise. split; [now apply slice0_bound|].
  apply Forall_forall. intros c Hc.
  unfold JS.slice0 in Hc.
  destruct (noiseCount limit <? 0)%Z; apply ListFacts.In_firstn in Hc;
    apply (Permutation_in _ (shuffle_noise_perm _)) in Hc;
    unfold excluded in Hc; apply filter_In in Hc; destruct Hc as [Hc Hex];
    (split; [assumption | now apply negb_true_iff]).
Qed.

(** For a positive limit the batch has at most [limit] posts; when no more
    than [limit] candidates are available it is all of them, rearranged. *)
Lemma batch_within_positive_limit (posts : list Post) (limitParam : option Z)
    (userTopics userHashtags : Interest) :
  let r := handler shuffle_noise shuffle_batch posts limitParam userTopics userHashtags in
  (0 < r_limit r)%Z ->
  (Z.of_nat (length (r_posts r)) <= r_limit r)%Z
  /\ ((Z.of_nat (length (filtered shuffle_noise posts userTopics userHashtags (r_limit r)))
       <= r_limit r)%Z ->
      Permutation (r_posts r)
                  (filtered shuffle_noise posts userTopics userHashtags (r_limit r))).
Proof.
  unfold handler. simpl. intros Hpos. split.
  - apply slice0_bound. lia.
  - intros Hfew. rewrite slice0_all.
    + apply shuffle_batch_perm.
    + now rewrite (Permutation_length (shuffle_batch_perm _)).
Qed.

End HandlerFacts.

(** C8: what the handler does with a negative limit. For the request
    [limit=-1] with a weighted topic, on a pool of five posts, the relevant
    core is the ranked list without its last two posts, one of these two
    comes back as noise, and [slice(0, -1)] drops one post of the four: the
    batch has three posts, more than the limit the response reports. *)
Theorem negative_limit_is_no_bound
    (shuffle_noise shuffle_batch : list Candidate -> list Candidate) :
  (forall l, length (shuffle_noise l) = length l) ->
  (forall l, length (shuffle_batch l) = length l) ->
  let r := handler shuffle_noise shuffle_batch Examples.five_posts (Some (-1)%Z)
             Examples.likes_sports (Weighted []) in
  r_limit r = (-1)%Z
  /\ length (r_posts r) = 3
  /\ (r_limit r < Z.of_nat (length (r_posts r)))%Z.
Proof.
  intros Hnoise Hbatch r.
  assert (Hlen : length (r_posts r) = 3).
  { unfold r, handler. cbn [r_posts parse_limit Z.eqb].
    rewrite slice0_length, Hbatch.
    unfold filtered. cbn [carries_weights Examples.likes_sports orb].
    rewrite length_app. unfold noise. rewrite slice0_length, Hnoise.
    vm_compute. reflexivity. }
  rewrite Hlen. repeat split.
Qed.

Lemma negative_limit_is_no_bound_witness :
  length (r_posts (handler (fun l => l) (@rev Candidate) Examples.five_posts (Some (-1)%Z)
                     Examples.likes_sports (Weighted []))) = 3.
Proof.
  refine (proj1 (proj2 (negative_limit_is_no_bound (fun l => l) (@rev Candidate) _ _))).
  - reflexivity.
  - intros l. apply length_rev.
Defined.

End ServerFacts.

(** * Further facts *)

(** ** The natural-break selector in general *)

Module SplitFacts.

(** The loop either leaves [splitIdx] as it was or moves it to a position
    it has visited. *)
Lemma split_loop_range (items : list WeightedEntry) (gapThreshold : float) (n : nat) :
  forall i maxGap splitIdx,
    let r := split_loop items gapThreshold n i maxGap splitIdx in
    r = splitIdx \/ (i < r /\ r <= i + n).
Proof.
  induction n as [|n IH]; intros i maxGap splitIdx; simpl; [now left|].
  match goal with |- context [if ?c then _ else _] => destruct c end.
  - destruct (JS.gt _ 0.6); [right; lia|].
    destruct (IH (i + 1) (weight_at items i - weight_at items (i + 1))%float (i + 1))
      as [->|H]; right; lia.
  - destruct (IH (i + 1) maxGap splitIdx) as [->|H]; [now left | right; lia].
Qed.

Lemma findNaturalSplit_cases (items : list WeightedEntry) (minThreshold : float) :
  let r := findNaturalSplit items minThreshold in
  (length items <= 3 /\ r = length items)
  \/ (3 < length items
      /\ r = Nat.min 5 (length (filter (fun item => JS.gt (weight item) minThreshold) items)))
  \/ (3 < length items /\ 0 < r /\ r < length items /\ r <= 10).
Proof.
  unfold findNaturalSplit.
  destruct (length items <=? 3) eqn:E.
  - left. apply Nat.leb_le in E. auto.
  - apply Nat.leb_gt in E.
    destruct (split_loop_range items (JS.max 0.1 (weight_at items 0 * 0.25))
                (Nat.min (length items - 1) 10) 0 0%float (length items)) as [H|H]; simpl in H.
    + rewrite H, Nat.eqb_refl. right. left. auto.
    + destruct (_ =? length items) eqn:E'.
      * apply Nat.eqb_eq in E'. lia.
      * right. right. lia.
Qed.

Lemma findNaturalSplit_le (items : list WeightedEntry) (minThreshold : float) :
  findNaturalSplit items minThreshold <= Nat.min (length items) 10.
Proof.
  pose proof (filter_length_le (fun item => JS.gt (weight item) minThreshold) items) as Hf.
  destruct (findNaturalSplit_cases items minThreshold) as [[H ->]|[[H ->]|[H1 [H2 [H3 H4]]]]]; lia.
Qed.

(** X1. [findNaturalSplit] never points past the end of the list nor past
    position 10, so that [slice(0, splitIdx)] keeps at most ten items; a
    list of at most three items is kept whole. *)
Theorem natural_split_bounds (items : list WeightedEntry) (minThreshold : float) :
  findNaturalSplit items minThreshold <= length items
  /\ findNaturalSplit items minThreshold <= 10
  /\ length (firstn (findNaturalSplit items minThreshold) items)
     = findNaturalSplit items minThreshold
  /\ (length items <= 3 -> firstn (findNaturalSplit items minThreshold) items = items).
Proof.
  pose proof (findNaturalSplit_le items minThreshold) as H.
  repeat split; try lia.
  - rewrite length_firstn. lia.
  - intros Hshort.
    destruct (findNaturalSplit_cases items minThreshold) as [[_ ->]|[[? _]|[? _]]]; try lia.
    apply firstn_all.
Qed.

(** X2. [findNaturalSplit] returns 0 only for the empty list or when no
    item is above the minimum threshold: as soon as one item is above it,
    the head is not empty. *)
Theorem natural_split_zero (items : list WeightedEntry) (minThreshold : float) :
  findNaturalSplit items minThreshold = 0 ->
  items = [] \/ Forall (fun item => JS.gt (weight item) minThreshold = false) items.
Proof.
  intros Hz.
  destruct (findNaturalSplit_cases items minThreshold) as [[_ H]|[[_ H]|[_ [H _]]]].
  - left. rewrite Hz in H. symmetry in H. now apply length_zero_iff_nil.
  - right. rewrite Hz in H.
    assert (Hnone : filter (fun item => JS.gt (weight item) minThreshold) items = []).
    { apply length_zero_iff_nil. lia. }
    apply Forall_forall. intros e He.
    destruct (JS.gt (weight e) minThreshold) eqn:E; [|reflexivity].
    assert (Hin : In e (filter (fun item => JS.gt (weight item) minThreshold) items))
      by (apply filter_In; auto).
    rewrite Hnone in Hin. destruct Hin.
  - lia.
Qed.

Lemma natural_split_zero_witness :
  let items := [mkEntry "a" 0.05; mkEntry "b" 0.05; mkEntry "c" 0.05; mkEntry "d" 0.05] in
  items = [] \/ Forall (fun item => JS.gt (weight item) 0.1 = false) items.
Proof.
  apply (natural_split_zero _ 0.1). vm_compute. reflexivity.
Defined.

End SplitFacts.

(** ** The training examples in general *)

Module ExampleFacts.

Lemma engagement_of_range (score : float) :
  engagement_of score = 0 \/ engagement_of score = 1 \/ engagement_of score = 2.
Proof.
  unfold engagement_of. destruct (JS.le _ _); [auto|]. destruct (JS.ge _ _); auto.
Qed.

(** X3. The training set [trainModel] builds has one feature row and one
    label per record that has a [topics] array, in the order of the
    records; every feature row has one entry per vocabulary topic, each 0 or
    1, and every label is one of the three one-hot vectors. *)
Theorem training_examples_shape (MODEL_TOPICS : list string)
    (recentInteractions : list Interaction) :
  let xs := fst (build_examples MODEL_TOPICS recentInteractions) in
  let ys := snd (build_examples MODEL_TOPICS recentInteractions) in
  length xs = length ys
  /\ length xs = length (filter (fun inter => is_some (topics inter)) recentInteractions)
  /\ Forall (fun x => length x = length MODEL_TOPICS
                      /\ Forall (fun v => v = 1%float \/ v = 0%float) x) xs
  /\ Forall (fun y => y = [1; 0; 0]%float \/ y = [0; 1; 0]%float \/ y = [0; 0; 1]%float) ys.
Proof.
  unfold build_examples. rewrite build_examples_from. simpl.
  rewrite !length_map. repeat split.
  - apply Forall_forall. intros x Hx. apply in_map_iff in Hx.
    destruct Hx as [inter [<- _]]. unfold membership. rewrite length_map. split; [reflexivity|].
    apply Forall_forall. intros v Hv. apply in_map_iff in Hv.
    destruct Hv as [t [<- _]]. destruct (includes _ t); auto.
  - apply Forall_forall. intros y Hy. apply in_map_iff in Hy.
    destruct Hy as [inter [<- _]]. unfold engaged.
    destruct (engagement_of_range (preferenceScore inter)) as [-> | [-> | ->]]; auto.
Qed.

(** X4. The reaction the rule-based scorer gives a record is always a
    number between −5 (not interested, and left at once) and 7.5 (liked,
    interested and commented, and viewed at length), whatever the record
    holds. *)
Theorem reaction_score_range (inter : Interaction) :
  (-5 <=? reactionScore inter)%float = true
  /\ (reactionScore inter <=? 7.5)%float = true
  /\ is_nan (reactionScore inter) = false.
Proof.
  unfold reactionScore, booleanScore.
  destruct (liked inter), (interested inter), (not_interested inter), (commented inter);
    destruct (JS.gt _ 0.7); destruct (JS.lt _ 0.2);
    repeat split; vm_compute; reflexivity.
Qed.

End ExampleFacts.

(** ** Invariants of the classifier state *)

Section ClassifierInvariants.
Variable Model : Type.
Variable build_model : nat -> option Model.
Variable fit : Model -> list (list float) -> list (list float) -> option Model.
Implicit Types (st : ModelState Model) (c : Config Model).

Lemma loadModel_body_present (force : bool) st :
  model_present st -> model_present (loadModel_body build_model force st).
Proof.
  unfold model_present, loadModel_body. intros H.
  destruct (negb (is_some (tfModel st)) || force); [|assumption].
  destruct (length (MODEL_TOPICS st) =? 0); [simpl; intros E; discriminate E|].
  destruct (build_model _); simpl; intros E; discriminate E.
Qed.

Lemma call_present st (interactionsArr : list Interaction) :
  model_present st -> model_present (fst (trainModel_call build_model st interactionsArr)).
Proof.
  intros H. unfold trainModel_call.
  destruct (modelTraining st || _); [assumption|].
  destruct (_ <? _); [assumption|]. now apply loadModel_body_present.
Qed.

Lemma resume_present (self : nat) st (t : TrainTask Model) :
  model_present st -> model_present (fst (resume fit self st t)).
Proof.
  unfold model_present. intros H.
  destruct t as [interactions | m xs ys | | ]; cbn [resume]; try assumption.
  - unfold trainModel_after_load. cbn [MODEL_TOPICS set_modelTrainingPromise set_modelTraining].
    destruct (build_examples _ _) as [xs ys].
    destruct ((0 <? length xs) && (0 <? length (hd [] xs))).
    + cbn [tfModel set_modelTrainingPromise set_modelTraining].
      destruct (tfModel st) as [m|] eqn:Em; simpl.
      * rewrite Em. intros _. discriminate.
      * intros E. discriminate E.
    + simpl. assumption.
  - unfold trainModel_after_fit. destruct (fit m xs ys) as [m'|]; simpl.
    + intros _. discriminate.
    + intros E. discriminate E.
Qed.

Lemma step_present c (a : Action) :
  model_present (cstate c) -> model_present (cstate (step build_model fit c a)).
Proof.
  intros H. destruct a as [interactionsArr | run]; cbn [step].
  - pose proof (call_present (cstate c) interactionsArr H) as H'.
    destruct (trainModel_call build_model (cstate c) interactionsArr) as [st t]. exact H'.
  - destruct (nth_error (tasks c) run) as [t|]; [|assumption].
    pose proof (resume_present run (cstate c) t H) as H'.
    destruct (resume fit run (cstate c) t) as [st t']. exact H'.
Qed.

(** X5. "When [modelTrained] is true, [tfModel] holds a model" is an
    invariant of the module state: if it holds, it still holds after
    [loadModel] (forced or not) and after any interleaving of calls and
    resumptions of [trainModel]. *)
Theorem trained_flag_implies_model c (actions : list Action) (force : bool) :
  model_present (cstate c) ->
  model_present (cstate (run_actions build_model fit c actions))
  /\ model_present (loadModel_body build_model force (cstate c)).
Proof.
  intros H. split; [|now apply loadModel_body_present].
  unfold run_actions. revert c H.
  induction actions as [|a actions IH]; intros c H; simpl; [assumption|].
  apply IH. now apply step_present.
Qed.

(** *** Counting the calls of [fit] *)

Lemma replace_nth_length {X : Type} (n : nat) (x : X) (l : list X) :
  length (replace_nth n x l) = length l.
Proof.
  revert n. induction l as [|y l IH]; intros [|n]; simpl; auto.
Qed.

Lemma filter_replace_nth {X : Type} (f : X -> bool) (n : nat) (x y : X) (l : list X) :
  nth_error l n = Some y ->
  length (filter f (replace_nth n x l)) + (if f y then 1 else 0)
  = length (filter f l) + (if f x then 1 else 0).
Proof.
  revert n. induction l as [|z l IH]; intros [|n]; simpl; try discriminate.
  - intros [= ->]. destruct (f x), (f y); simpl; lia.
  - intros Hn. specialize (IH n Hn). destruct (f z); simpl; lia.
Qed.

Lemma step_tasks c (a : Action) :
  length (tasks (step build_model fit c a))
  = length (tasks c) + match a with Trigger _ => 1 | Resume _ => 0 end.
Proof.
  destruct a as [interactionsArr | run]; cbn [step].
  - destruct (trainModel_call build_model (cstate c) interactionsArr) as [st t].
    cbn [tasks]. rewrite length_app. reflexivity.
  - destruct (nth_error (tasks c) run) as [t|]; [|lia].
    destruct (resume fit run (cstate c) t) as [st t'].
    cbn [tasks]. rewrite replace_nth_length. lia.
Qed.

(** A run that has called [fit] is past [await loadModel(true)]. *)
Lemma step_fitCalls c (a : Action) :
  fitCalls c + length (filter awaits_load (tasks c)) <= length (tasks c) ->
  fitCalls (step build_model fit c a)
  + length (filter awaits_load (tasks (step build_model fit c a)))
  <= length (tasks (step build_model fit c a)).
Proof.
  intros H. destruct a as [interactionsArr | run]; cbn [step].
  - destruct (trainModel_call build_model (cstate c) interactionsArr) as [st t].
    cbn [tasks fitCalls]. rewrite filter_app, !length_app. simpl.
    destruct (awaits_load t); simpl; lia.
  - destruct (nth_error (tasks c) run) as [t|] eqn:Ht; [|assumption].
    destruct (resume fit run (cstate c) t) as [st t'] eqn:Er.
    cbn [tasks fitCalls]. rewrite replace_nth_length.
    pose proof (filter_replace_nth awaits_load run t' t (tasks c) Ht) as Hc.
    destruct t as [interactions | m xs ys | | ]; cbn [resume] in Er.
    + assert (Ht' : awaits_load t' = false).
      { pose proof (after_load_cases Model run (cstate c) interactions) as Hcases.
        cbv zeta in Hcases. rewrite Er in Hcases. cbn [fst snd] in Hcases.
        destruct Hcases as [[m [xs [ys [-> _]]]] | [-> _]]; reflexivity. }
      rewrite Ht' in Hc. cbn [awaits_load andb] in *.
      destruct (awaits_fit t'); lia.
    + cbn [awaits_load andb] in *.
      assert (Ht' : awaits_load t' = false).
      { pose proof (after_fit_cases Model fit (cstate c) m xs ys) as Hcases.
        cbv zeta in Hcases. rewrite Er in Hcases. cbn [fst snd] in Hcases.
        destruct Hcases as [-> _]. reflexivity. }
      rewrite Ht' in Hc. lia.
    + injection Er as <- <-. cbn [awaits_load andb] in *. lia.
    + injection Er as <- <-. cbn [awaits_load andb] in *. lia.
Qed.

Lemma run_counts (actions : list Action) c :
  length (tasks (run_actions build_model fit c actions))
  = length (tasks c) + count_triggers actions
  /\ (fitCalls c + length (filter awaits_load (tasks c)) <= length (tasks c) ->
      fitCalls (run_actions build_model fit c actions)
      + length (filter awaits_load (tasks (run_actions build_model fit c actions)))
      <= length (tasks (run_actions build_model fit c actions))).
Proof.
  unfold run_actions, count_triggers. revert c.
  induction actions as [|a actions IH]; intros c; simpl; [split; [lia | auto]|].
  destruct (IH (step build_model fit c a)) as [Hlen Hfit]. split.
  - rewrite Hlen, step_tasks. destruct a; simpl; lia.
  - intros H. apply Hfit. now apply step_fitCalls.
Qed.

(** X6. Starting with no run in flight, however the calls of [trainModel]
    and the resumptions of its runs interleave, and however often a
    resumption is repeated or names a run that does not exist, there is one
    run per call and [fit] is called at most once per run: never more often
    than [trainModel] has been called. *)
Theorem fit_at_most_once_per_call st (actions : list Action) :
  let c := run_actions build_model fit (quiescent st) actions in
  length (tasks c) = count_triggers actions
  /\ fitCalls c + length (filter awaits_load (tasks c)) <= count_triggers actions
  /\ fitCalls c <= count_triggers actions.
Proof.
  destruct (run_counts actions (quiescent st)) as [Hlen Hfit].
  cbn [quiescent tasks fitCalls length filter] in *.
  specialize (Hfit (le_n 0)). cbv zeta. lia.
Qed.

(** *** The records [trainModel] reads *)

Lemma slice_last_length {A : Type} (k : nat) (l : list A) :
  length (JS.slice_last k l) = Nat.min k (length l).
Proof. unfold JS.slice_last. rewrite length_skipn. lia. Qed.

Lemma slice_last_idem {A : Type} (k : nat) (l : list A) :
  JS.slice_last k (JS.slice_last k l) = JS.slice_last k l.
Proof.
  pose proof (slice_last_length k l) as Hlen.
  unfold JS.slice_last at 1.
  replace (length (JS.slice_last k l) - k) with 0 by lia. reflexivity.
Qed.

(** X7. [trainModel] reads only the 100 most recent records: a run on a
    history and a run on its last 100 records end in the same state. *)
Theorem training_reads_last_hundred st (interactionsArr : list Interaction) :
  trainModel build_model fit st interactionsArr
  = trainModel build_model fit st (JS.slice_last 100 interactionsArr).
Proof.
  unfold trainModel, trainModel_call.
  destruct (modelTraining st || (length (MODEL_TOPICS st) =? 0)); [reflexivity|].
  rewrite slice_last_length.
  assert (Hguard : (Nat.min 100 (length interactionsArr) <? MIN_INTERACTIONS)
                   = (length interactionsArr <? MIN_INTERACTIONS)).
  { unfold MIN_INTERACTIONS.
    destruct (length interactionsArr <? 10) eqn:E.
    - apply Nat.ltb_lt in E. apply Nat.ltb_lt. lia.
    - apply Nat.ltb_ge in E. apply Nat.ltb_ge. lia. }
  rewrite Hguard.
  destruct (length interactionsArr <? MIN_INTERACTIONS); [reflexivity|].
  cbn [resume]. unfold trainModel_after_load. rewrite slice_last_idem. reflexivity.
Qed.

End ClassifierInvariants.

Lemma trained_flag_implies_model_witness :
  let c := quiescent (Examples.untrained ["sports"%string] []) in
  model_present
    (cstate (run_actions Examples.toy_build Examples.toy_fit c
               [Trigger Examples.ten_liked; Resume 0; Resume 0]))
  /\ model_present (loadModel_body Examples.toy_build false (cstate c)).
Proof.
  apply (trained_flag_implies_model nat Examples.toy_build Examples.toy_fit).
  intros E. discriminate E.
Defined.

(** ** The history of the interaction store *)

Module StoreHistory.
Import Store StoreFacts.

Lemma kept_refl r : kept r r.
Proof. unfold kept. auto. Qed.

Lemma kept_trans r1 r2 r3 : kept r1 r2 -> kept r2 r3 -> kept r1 r3.
Proof.
  unfold kept. intros (H1 & H2 & H3 & H4 & H5) (G1 & G2 & G3 & G4 & G5).
  repeat split; try congruence. auto.
Qed.

Lemma table_kept_refl o : table_kept o o.
Proof. intros k r H. exists r. split; [assumption | apply kept_refl]. Qed.

Lemma table_kept_trans o1 o2 o3 : table_kept o1 o2 -> table_kept o2 o3 -> table_kept o1 o3.
Proof.
  intros H12 H23 k r H. destruct (H12 k r H) as [r2 [H2 K2]].
  destruct (H23 k r2 H2) as [r3 [H3 K3]]. exists r3. split; [assumption|].
  now apply kept_trans with r2.
Qed.

Lemma table_kept_update o k f : (forall r, kept r (f r)) -> table_kept o (update o k f).
Proof.
  intros Hf k' r H. destruct (string_dec k' k) as [->|Hne].
  - rewrite get_update_same, H. simpl. eauto.
  - rewrite get_update_other by assumption. exists r. split; [assumption | apply kept_refl].
Qed.

Lemma table_kept_set_absent o k v : Obj.get o k = None -> table_kept o (Obj.set o k v).
Proof.
  intros Hnone k' r H. destruct (string_dec k' k) as [->|Hne]; [congruence|].
  rewrite ObjFacts.get_set_other by assumption. exists r. split; [assumption | apply kept_refl].
Qed.

Lemma table_kept_ensure o k v : table_kept o (ensure o k v).
Proof.
  unfold ensure. destruct (Obj.get o k) eqn:E; [apply table_kept_refl|].
  now apply table_kept_set_absent.
Qed.

Ltac keeps := try intros ?; unfold kept; simpl; repeat split; auto.

Lemma kept_apply_type type r : kept r (apply_type type r).
Proof.
  unfold apply_type. destruct (String.eqb type "interested"); [keeps|].
  destruct (String.eqb type "not_interested"); [keeps | apply kept_refl].
Qed.

Lemma apply_kept s e : table_kept (interactions s) (interactions (apply s e)).
Proof.
  destruct e as [type post now | post now | post now | now | post now]; simpl.
  - unfold recordInteraction. destruct (falsy_id (id post)); [apply table_kept_refl|]. simpl.
    eapply table_kept_trans; [|apply table_kept_update; keeps].
    match goal with |- table_kept _ (if ?c then _ else _) => destruct c end.
    + eapply table_kept_trans; [|apply table_kept_update; keeps].
      eapply table_kept_trans; [apply table_kept_ensure|].
      apply table_kept_update. apply kept_apply_type.
    + eapply table_kept_trans; [apply table_kept_ensure|].
      apply table_kept_update. apply kept_apply_type.
  - unfold like. simpl.
    eapply table_kept_trans; [|apply table_kept_update; keeps].
    eapply table_kept_trans; [apply table_kept_ensure|].
    apply table_kept_update. keeps.
  - unfold comment. simpl.
    destruct (Obj.get (ensure _ _ _) _) as [r|]; [|apply table_kept_ensure].
    destruct (commented r); [apply table_kept_ensure|].
    eapply table_kept_trans; [|apply table_kept_update; keeps].
    eapply table_kept_trans; [apply table_kept_ensure|].
    apply table_kept_update. keeps.
  - unfold recordTimeSpentOnCurrentPost.
    destruct (lastViewedPostId s) as [l|]; [|apply table_kept_refl].
    destruct (postViewStartTime s) as [start|]; [|apply table_kept_refl].
    destruct (_ && _); [|apply table_kept_refl]. simpl.
    destruct (Obj.get (interactions s) l) eqn:El.
    + apply table_kept_update. keeps.
    + now apply table_kept_set_absent.
  - apply table_kept_refl.
Qed.

Lemma run_kept evs s : table_kept (interactions s) (interactions (run s evs)).
Proof.
  revert s. induction evs as [|e evs IH]; intros s; simpl; [apply table_kept_refl|].
  eapply table_kept_trans; [apply apply_kept | apply IH].
Qed.

(** X8. The store never deletes a record and never re-labels one: whatever
    events follow, a record that exists stays under its key with the same
    post identifier, topics, hashtags and duration, and once [commented] is
    set it stays set. *)
Theorem records_are_kept (s : State) (evs : list Event) (k : string) (r : Interaction) :
  Obj.get (interactions s) k = Some r ->
  exists r',
    Obj.get (interactions (run s evs)) k = Some r'
    /\ postId r' = postId r /\ topics r' = topics r /\ hashtags r' = hashtags r
    /\ duration r' = duration r
    /\ (commented r = true -> commented r' = true).
Proof.
  intros H. destruct (run_kept evs s k r H) as [r' [H' K]]. exists r'. split; assumption.
Qed.

Lemma records_are_kept_witness :
  let s := run initial [Comment (mkPost (Some "p1"%string) (Some ["sports"%string]) None) 5] in
  let evs := [Like (mkPost (Some "p1"%string) None None) 6;
              Record_ "not_interested" (mkPost (Some "p1"%string) None None) 7;
              Comment (mkPost (Some "p1"%string) None None) 8; TimeSpent 9] in
  exists r',
    Obj.get (interactions (run s evs)) "p1" = Some r'
    /\ postId r' = "p1"%string /\ topics r' = Some ["sports"%string] /\ hashtags r' = None
    /\ duration r' = None
    /\ (true = true -> commented r' = true).
Proof.
  apply (records_are_kept
           (run initial [Comment (mkPost (Some "p1"%string) (Some ["sports"%string]) None) 5])
           _ "p1"
           (mkInteraction "p1" (Some ["sports"%string]) None false false false true
                          None None (Some 5%float))).
  reflexivity.
Defined.

(** *** The order of the records *)

Lemma keys_update o k f : Obj.keys (update o k f) = Obj.keys o.
Proof.
  unfold update. destruct (Obj.get o k) eqn:E; [|reflexivity].
  apply ObjFacts.keys_set_present.
  destruct (in_dec string_dec k (Obj.keys o)) as [Hin|Hout]; [assumption|].
  apply ObjFacts.get_None_keys in Hout. congruence.
Qed.

Lemma keys_set_grows {V : Type} (o : Obj.t V) k v :
  exists new, Obj.keys (Obj.set o k v) = Obj.keys o ++ new /\ length new <= 1.
Proof.
  destruct (in_dec string_dec k (Obj.keys o)) as [Hin|Hout].
  - exists []. rewrite ObjFacts.keys_set_present, app_nil_r by assumption. auto.
  - exists [k]. rewrite ObjFacts.keys_set_absent by assumption. auto.
Qed.

Lemma keys_ensure o k v :
  exists new, Obj.keys (ensure o k v) = Obj.keys o ++ new /\ length new <= 1.
Proof.
  unfold ensure. destruct (Obj.get o k).
  - exists []. rewrite app_nil_r. auto.
  - apply keys_set_grows.
Qed.

Lemma apply_keys s e :
  exists new,
    Obj.keys (interactions (apply s e)) = Obj.keys (interactions s) ++ new /\ length new <= 1.
Proof.
  assert (Hsame : exists new : list string,
             Obj.keys (interactions s) = Obj.keys (interactions s) ++ new /\ length new <= 1)
    by (exists []; rewrite app_nil_r; auto).
  destruct e as [type post now | post now | post now | now | post now]; simpl.
  - unfold recordInteraction. destruct (falsy_id (id post)); [exact Hsame|]. simpl.
    rewrite keys_update.
    match goal with |- context [if ?c then _ else _] => destruct c end;
      rewrite !keys_update; apply keys_ensure.
  - unfold like. simpl. rewrite !keys_update. apply keys_ensure.
  - unfold comment. simpl.
    destruct (Obj.get (ensure _ _ _) _) as [r|]; [|apply keys_ensure].
    destruct (commented r); [apply keys_ensure|].
    rewrite !keys_update. apply keys_ensure.
  - unfold recordTimeSpentOnCurrentPost.
    destruct (lastViewedPostId s) as [l|]; [|exact Hsame].
    destruct (postViewStartTime s) as [start|]; [|exact Hsame].
    destruct (_ && _); [|exact Hsame]. simpl.
    destruct (Obj.get (interactions s) l).
    + rewrite keys_update. exact Hsame.
    + apply keys_set_grows.
  - exact Hsame.
Qed.


(** *** Likes and comments *)

Lemma get_after_like s post now :
  Obj.get (interactions (like post now s)) (key_of (id post))
  = Some (with_timestamp (Some now)
            (let r := match Obj.get (interactions s) (key_of (id post)) with
                      | Some r => r
                      | None => fresh_record post now
                      end in
             with_liked (negb (liked r)) r)).
Proof.
  unfold like. simpl. rewrite !get_update_same, get_ensure_same. reflexivity.
Qed.

(** X10. The like button is a toggle: pressing it twice leaves the record
    of the post as it was, but for its timestamp (a post without a record
    gets one, not liked). *)
Theorem like_twice_restores (s : State) (post : Post) (now1 now2 : float) :
  Obj.get (interactions (like post now2 (like post now1 s))) (key_of (id post))
  = Some (with_timestamp (Some now2)
            match Obj.get (interactions s) (key_of (id post)) with
            | Some r => r
            | None => fresh_record post now1
            end).
Proof.
  rewrite get_after_like, get_after_like. cbv zeta.
  destruct (Obj.get (interactions s) (key_of (id post))) as [r|].
  - destruct r as [p t h l i n c ts d tm]. simpl. unfold with_timestamp, with_liked. simpl.
    now rewrite negb_involutive.
  - reflexivity.
Qed.

(** X11. A comment is recorded once: after a comment on a post, a second
    comment on it changes nothing at all, not even the timestamp. *)
Theorem comment_twice_is_once (s : State) (post : Post) (now1 now2 : float) :
  comment post now2 (comment post now1 s) = comment post now1 s.
Proof.
  assert (Hdone : exists r,
             Obj.get (interactions (comment post now1 s)) (key_of (id post)) = Some r
             /\ commented r = true).
  { unfold comment. simpl. rewrite get_ensure_same.
    set (r := match Obj.get (interactions s) (key_of (id post)) with
              | Some x => x
              | None => fresh_record post now1
              end).
    destruct (commented r) eqn:Ec.
    - exists r. split; [apply get_ensure_same | assumption].
    - rewrite !get_update_same, get_ensure_same. simpl. eauto. }
  destruct Hdone as [r [Hr Hc]].
  unfold comment at 1. cbv zeta.
  unfold ensure at 1 2. rewrite Hr. rewrite Hr, Hc.
  destruct (comment post now1 s); reflexivity.
Qed.



End StoreHistory.

(** ** The vocabulary *)

Module VocabularyFacts.
Import Vocabulary.

Lemma set_add_In s x y : In y (set_add s x) <-> In y s \/ y = x.
Proof.
  unfold set_add. destruct (includes s x) eqn:E.
  - apply ScorerFacts.includes_In in E. split; [auto|]. intros [H| ->]; assumption.
  - rewrite in_app_iff. simpl. split.
    + intros [H|[H|[]]]; auto.
    + intros [H| ->]; auto.
Qed.

Lemma set_add_prefix s x : exists new, set_add s x = s ++ new.
Proof.
  unfold set_add. destruct (includes s x); [exists []; now rewrite app_nil_r | now exists [x]].
Qed.

Lemma set_add_NoDup s x : NoDup s -> NoDup (set_add s x).
Proof.
  intros H. unfold set_add. destruct (includes s x) eqn:E; [assumption|].
  assert (Hout : ~ In x s).
  { intros Hin. apply ScorerFacts.includes_In in Hin. congruence. }
  apply NoDup_app; [assumption | repeat constructor; simpl; tauto |].
  intros y Hy [->|[]]. contradiction.
Qed.

(** Adding the names of every item of a batch, by [names]. *)
Lemma add_names_In names s y :
  In y (fold_left set_add names s) <-> In y s \/ In y names.
Proof.
  revert s. induction names as [|x names IH]; intros s; simpl; [tauto|].
  rewrite IH, set_add_In. intuition (subst; auto).
Qed.

Lemma add_names_prefix names s : exists new, fold_left set_add names s = s ++ new.
Proof.
  revert s. induction names as [|x names IH]; intros s; simpl.
  - exists []. now rewrite app_nil_r.
  - destruct (IH (set_add s x)) as [new2 ->]. destruct (set_add_prefix s x) as [new1 ->].
    exists (new1 ++ new2). now rewrite app_assoc.
Qed.

Lemma add_names_NoDup names s : NoDup s -> NoDup (fold_left set_add names s).
Proof.
  revert s. induction names as [|x names IH]; intros s H; simpl; [assumption|].
  apply IH. now apply set_add_NoDup.
Qed.

Lemma see_posts_fst batch seen :
  fst (fold_left see_post batch seen)
  = fold_left (fun s post => fold_left set_add (list_or_empty (post_topics post)) s)
              batch (fst seen).
Proof.
  revert seen. induction batch as [|p batch IH]; intros seen; simpl; [reflexivity|].
  now rewrite IH.
Qed.

Lemma see_posts_snd batch seen :
  snd (fold_left see_post batch seen)
  = fold_left (fun s post => fold_left set_add (list_or_empty (post_hashtags post)) s)
              batch (snd seen).
Proof.
  revert seen. induction batch as [|p batch IH]; intros seen; simpl; [reflexivity|].
  now rewrite IH.
Qed.

Section Batch.
Variable names : Post -> list string.

Lemma add_batch_In batch s y :
  In y (fold_left (fun s post => fold_left set_add (names post) s) batch s)
  <-> In y s \/ exists post, In post batch /\ In y (names post).
Proof.
  revert s. induction batch as [|p batch IH]; intros s; simpl.
  - split; [auto | intros [H|[post [[] _]]]; assumption].
  - rewrite IH, add_names_In. split.
    + intros [[H|H]|[post [Hp Hy]]]; eauto.
    + intros [H|[post [[->|Hp] Hy]]]; eauto.
Qed.

Lemma add_batch_prefix batch s :
  exists new, fold_left (fun s post => fold_left set_add (names post) s) batch s = s ++ new.
Proof.
  revert s. induction batch as [|p batch IH]; intros s; simpl.
  - exists []. now rewrite app_nil_r.
  - destruct (IH (fold_left set_add (names p) s)) as [new2 ->].
    destruct (add_names_prefix (names p) s) as [new1 ->].
    exists (new1 ++ new2). now rewrite app_assoc.
Qed.

Lemma add_batch_NoDup batch s :
  NoDup s -> NoDup (fold_left (fun s post => fold_left set_add (names post) s) batch s).
Proof.
  revert s. induction batch as [|p batch IH]; intros s H; simpl; [assumption|].
  apply IH. now apply add_names_NoDup.
Qed.

End Batch.

(** X13. [updateSeenTopicsAndHashtags] only appends: the vocabulary after
    a batch is the vocabulary seen before, in the same order, followed by
    new names; it holds exactly the names seen before and the topics
    (hashtags) of the posts of the batch; and [MODEL_TOPICS] and
    [MODEL_HASHTAGS] are the two sets, listed. *)
Theorem vocabulary_update_appends (v : State) (postsBatch : list Post) :
  let v' := updateSeenTopicsAndHashtags postsBatch v in
  MODEL_TOPICS v' = seenTopics v' /\ MODEL_HASHTAGS v' = seenHashtags v'
  /\ (exists new, seenTopics v' = seenTopics v ++ new)
  /\ (exists new, seenHashtags v' = seenHashtags v ++ new)
  /\ (forall t, In t (seenTopics v')
                <-> In t (seenTopics v)
                    \/ exists post, In post postsBatch /\ In t (list_or_empty (post_topics post)))
  /\ (forall h, In h (seenHashtags v')
                <-> In h (seenHashtags v)
                    \/ exists post, In post postsBatch
                                    /\ In h (list_or_empty (post_hashtags post))).
Proof.
  cbv zeta. unfold updateSeenTopicsAndHashtags. cbn [MODEL_TOPICS MODEL_HASHTAGS seenTopics seenHashtags].
  rewrite see_posts_fst, see_posts_snd. cbn [fst snd].
  repeat split; try apply add_batch_prefix; try (apply add_batch_In; assumption);
    intros H; apply add_batch_In in H; assumption.
Qed.

Lemma receive_invariant batches v :
  (MODEL_TOPICS v = seenTopics v /\ MODEL_HASHTAGS v = seenHashtags v
   /\ NoDup (seenTopics v) /\ NoDup (seenHashtags v)) ->
  let v' := receive v batches in
  MODEL_TOPICS v' = seenTopics v' /\ MODEL_HASHTAGS v' = seenHashtags v'
  /\ NoDup (seenTopics v') /\ NoDup (seenHashtags v')
  /\ (exists new, seenTopics v' = seenTopics v ++ new)
  /\ (exists new, seenHashtags v' = seenHashtags v ++ new).
Proof.
  unfold receive. revert v. induction batches as [|b batches IH]; intros v (H1 & H2 & H3 & H4).
  - simpl. repeat split; auto; exists []; now rewrite app_nil_r.
  - simpl.
    assert (Hstep : let v1 := updateSeenTopicsAndHashtags b v in
                    (MODEL_TOPICS v1 = seenTopics v1 /\ MODEL_HASHTAGS v1 = seenHashtags v1
                     /\ NoDup (seenTopics v1) /\ NoDup (seenHashtags v1))
                    /\ (exists new, seenTopics v1 = seenTopics v ++ new)
                    /\ (exists new, seenHashtags v1 = seenHashtags v ++ new)).
    { cbv zeta. unfold updateSeenTopicsAndHashtags.
      cbn [MODEL_TOPICS MODEL_HASHTAGS seenTopics seenHashtags].
      rewrite see_posts_fst, see_posts_snd. cbn [fst snd].
      repeat split; try apply add_batch_prefix; now apply add_batch_NoDup. }
    cbv zeta in Hstep. destruct Hstep as (Hinv & [n1 Hp1] & [n2 Hp2]).
    destruct (IH _ Hinv) as (G1 & G2 & G3 & G4 & [m1 G5] & [m2 G6]).
    repeat split; auto.
    + exists (n1 ++ m1). now rewrite G5, Hp1, app_assoc.
    + exists (n2 ++ m2). now rewrite G6, Hp2, app_assoc.
Qed.

Lemma nth_error_prefix {A : Type} (l new : list A) (i : nat) (x : A) :
  nth_error l i = Some x -> nth_error (l ++ new) i = Some x.
Proof.
  intros H. rewrite nth_error_app1; [assumption|].
  apply nth_error_Some. congruence.
Qed.

(** X14. Whatever batches the feed has received, the vocabulary lists no
    name twice, and later batches never move a name: the topic at position
    [i] of [MODEL_TOPICS], which is column [i] of the model's input, is
    still at position [i] after any further batches (and so for
    hashtags). *)
Theorem vocabulary_positions_are_stable (batches more : list (list Post)) :
  let v := receive initial batches in
  let v' := receive v more in
  NoDup (MODEL_TOPICS v) /\ NoDup (MODEL_HASHTAGS v)
  /\ (forall i t, nth_error (MODEL_TOPICS v) i = Some t ->
                  nth_error (MODEL_TOPICS v') i = Some t)
  /\ (forall i h, nth_error (MODEL_HASHTAGS v) i = Some h ->
                  nth_error (MODEL_HASHTAGS v') i = Some h).
Proof.
  cbv zeta.
  assert (H0 : MODEL_TOPICS initial = seenTopics initial
               /\ MODEL_HASHTAGS initial = seenHashtags initial
               /\ NoDup (seenTopics initial) /\ NoDup (seenHashtags initial))
    by (simpl; repeat split; constructor).
  pose proof (receive_invariant batches initial H0) as H1. cbv zeta in H1.
  destruct H1 as (E1 & E2 & N1 & N2 & _ & _).
  pose proof (receive_invariant more (receive initial batches) (conj E1 (conj E2 (conj N1 N2))))
    as H2.
  cbv zeta in H2. destruct H2 as (F1 & F2 & _ & _ & [n1 P1] & [n2 P2]).
  rewrite E1, E2, F1, F2, P1, P2.
  repeat split; auto; intros i x H; now apply nth_error_prefix.
Qed.

End VocabularyFacts.

(** ** The analyzer of the backup *)

Module BackupFacts.
Import Backup.

Lemma ltb_irrefl (x : float) : (x <? x)%float = false.
Proof. rewrite ltb_spec. apply FloatFacts.SFltb_irrefl. Qed.

(** The gap between two equal scores is not above 0 (it is 0, or not a
    number). *)
Lemma flat_gap (x : float) : JS.gt (x - x) 0 = false.
Proof. unfold JS.gt. rewrite FloatFacts.sub_pos_iff_lt. apply ltb_irrefl. Qed.

(** The sort leaves a list alone when the comparator never asks for a
    swap. *)
Lemma js_sort_flat {A : Type} (cmp : A -> A -> float) (l : list A) :
  (forall a b, In a l -> In b l -> JS.gt (cmp a b) 0 = false) -> js_sort cmp l = l.
Proof.
  induction l as [|a l IH]; intros H; simpl; [reflexivity|].
  rewrite IH by (intros; apply H; simpl; auto).
  destruct l as [|y l']; simpl; [reflexivity|].
  rewrite H; simpl; auto.
Qed.

Lemma gap_loop_flat (score : float) (scores : list float) (floor : float) (n : nat) :
  forall i splitIdx,
    (forall j, j < length scores -> nth j scores nan = score) ->
    i + n < length scores ->
    gap_loop scores floor n i 0 splitIdx = splitIdx.
Proof.
  induction n as [|n IH]; intros i splitIdx Hflat Hn; simpl; [reflexivity|].
  rewrite !Hflat by lia. rewrite flat_gap. simpl. apply IH; [assumption | lia].
Qed.

Lemma nth_flat (score : float) (names : list string) (j : nat) :
  j < length names ->
  nth j (map snd (map (fun t => (t, score)) names)) nan = score.
Proof.
  revert j. induction names as [|t names IH]; intros j Hj; simpl in *; [lia|].
  destruct j as [|j]; [reflexivity|]. apply IH. lia.
Qed.

(** When every name has the same score there is no drop to cut at: the
    names above the floor are all of them or none. *)
Lemma cut_flat (floor score : float) (names : list string) :
  cut_at_largest_drop floor (map (fun t => (t, score)) names)
  = if JS.gt score floor then names else [].
Proof.
  unfold cut_at_largest_drop.
  rewrite js_sort_flat.
  2:{ intros a b Ha Hb. apply in_map_iff in Ha. apply in_map_iff in Hb.
      destruct Ha as [ta [<- _]]. destruct Hb as [tb [<- _]].
      unfold by_number_desc. simpl. apply flat_gap. }
  assert (Hloop : gap_loop (map snd (map (fun t => (t, score)) names)) floor
                           (length (map (fun t : string => (t, score)) names) - 1) 0 0
                           (length (map (fun t : string => (t, score)) names))
                  = length (map (fun t : string => (t, score)) names)).
  { destruct names as [|t names]; [reflexivity|].
    apply gap_loop_flat with (score := score).
    - intros j Hj. rewrite !length_map in Hj. now apply nth_flat.
    - rewrite !length_map. simpl. lia. }
  rewrite Hloop, firstn_all. clear Hloop.
  induction names as [|t names IH]; simpl.
  - now destruct (JS.gt score floor).
  - destruct (JS.gt score floor); simpl; [now rewrite IH | exact IH].
Qed.

(** *** The hashtags of the backup *)

Lemma count_hashtags_keys names (counts : Obj.t float) k :
  In k (Obj.keys (fold_left count_hashtag names counts))
  <-> In k (Obj.keys counts) \/ In k names.
Proof.
  revert counts. induction names as [|h names IH]; intros counts; simpl; [tauto|].
  rewrite IH. unfold count_hashtag. rewrite ObjFacts.In_keys_set. intuition (subst; auto).
Qed.

Lemma count_hashtags_NoDup names (counts : Obj.t float) :
  NoDup (Obj.keys counts) -> NoDup (Obj.keys (fold_left count_hashtag names counts)).
Proof.
  revert counts. induction names as [|h names IH]; intros counts H; simpl; [assumption|].
  apply IH. unfold count_hashtag. now apply ObjFacts.NoDup_keys_set.
Qed.

Lemma hashtagCounts_from interactions (counts : Obj.t float) :
  NoDup (Obj.keys counts) ->
  NoDup (Obj.keys
           (fold_left (fun counts inter =>
                         fold_left count_hashtag (list_or_empty (hashtags inter)) counts)
                      interactions counts))
  /\ forall k,
       In k (Obj.keys
               (fold_left (fun counts inter =>
                             fold_left count_hashtag (list_or_empty (hashtags inter)) counts)
                          interactions counts)) ->
       In k (Obj.keys counts)
       \/ exists inter, In inter interactions /\ In k (list_or_empty (hashtags inter)).
Proof.
  revert counts. induction interactions as [|inter interactions IH]; intros counts H; simpl.
  - split; [assumption | auto].
  - destruct (IH _ (count_hashtags_NoDup (list_or_empty (hashtags inter)) counts H))
      as [Hn Hk].
    split; [assumption|]. intros k Hin. destruct (Hk k Hin) as [Hc | [i [Hi Hh]]].
    + apply count_hashtags_keys in Hc. destruct Hc as [Hc|Hc]; eauto.
    + eauto.
Qed.

Lemma NoDup_map_firstn {A B : Type} (g : A -> B) (n : nat) (l : list A) :
  NoDup (map g l) -> NoDup (map g (firstn n l)).
Proof.
  revert l. induction n as [|n IH]; intros [|x l] H; simpl; try constructor.
  - inversion H as [|? ? Hx Hl]; subst. intros Hin. apply Hx.
    apply in_map_iff in Hin. destruct Hin as [y [Hy Hin]].
    apply in_map_iff. exists y. split; [assumption|]. now apply ListFacts.In_firstn in Hin.
  - apply IH. now inversion H.
Qed.

Lemma NoDup_map_filter {A B : Type} (g : A -> B) (f : A -> bool) (l : list A) :
  NoDup (map g l) -> NoDup (map g (filter f l)).
Proof.
  induction l as [|x l IH]; intros H; simpl; [constructor|].
  inversion H as [|? ? Hx Hl]; subst.
  destruct (f x); simpl; [|now apply IH].
  constructor; [|now apply IH].
  intros Hin. apply Hx. apply in_map_iff in Hin. destruct Hin as [y [Hy Hin]].
  apply in_map_iff. exists y. split; [assumption|]. now apply filter_In in Hin.
Qed.

Lemma cut_names (floor : float) (items : list (string * float)) :
  (forall k, In k (cut_at_largest_drop floor items) -> In k (map fst items))
  /\ (NoDup (map fst items) -> NoDup (cut_at_largest_drop floor items)).
Proof.
  unfold cut_at_largest_drop. split.
  - intros k Hin. apply in_map_iff in Hin. destruct Hin as [e [<- He]].
    apply filter_In in He. destruct He as [He _]. apply ListFacts.In_firstn in He.
    apply (proj1 (SortFacts.js_sort_In _ _ _)) in He. now apply in_map.
  - intros H. apply NoDup_map_filter, NoDup_map_firstn.
    apply Permutation_NoDup with (l := map fst items); [|assumption].
    apply Permutation_map. symmetry. apply SortFacts.js_sort_perm.
Qed.

Section AnalyzerFacts.
Variable Model : Type.
Variable build_model : nat -> option Model.
Variable predict : Model -> list (list float) -> option (list (list float)).

(** What a fulfilled analysis has been through. *)
Lemma fulfilled_cases (st st' : ModelState Model) (interactionsObj : Obj.t Interaction)
    (res : InterestNames) :
  analyzeInteractions build_model predict st interactionsObj = Fulfilled st' res ->
  (MODEL_TOPICS st = [] /\ st' = st /\ res = mkNames [] [])
  \/ (MODEL_TOPICS st <> []
      /\ exists m pred row score,
           build_model (length (MODEL_TOPICS st)) = Some m
           /\ st' = set_modelTrained false (set_tfModel (Some m) st)
           /\ predict m [topicCounts (MODEL_TOPICS st) (Obj.values interactionsObj)] = Some pred
           /\ nth_error pred 0 = Some row /\ nth_error row 2 = Some score
           /\ res = mkNames
                      (cut_at_largest_drop 0.1 (map (fun t => (t, score)) (MODEL_TOPICS st)))
                      (cut_at_largest_drop 0
                         (Obj.entries (hashtagCounts (Obj.values interactionsObj))))).
Proof.
  unfold analyzeInteractions.
  destruct (length (MODEL_TOPICS st) =? 0) eqn:Ev.
  - intros [= <- <-]. left. apply Nat.eqb_eq, length_zero_iff_nil in Ev. auto.
  - intros H. right.
    assert (Hne : MODEL_TOPICS st <> []).
    { intros Hnil. rewrite Hnil in Ev. discriminate Ev. }
    split; [exact Hne|].
    assert (Hrun : analyze_after_wait build_model predict st (Obj.values interactionsObj)
                   = Fulfilled st' res).
    { destruct (loadModel_waits st); [|assumption].
      destruct (modelTrainingPromise st); [discriminate | assumption]. }
    clear H. unfold analyze_after_wait, loadModel_body in Hrun.
    rewrite orb_true_r, Ev in Hrun.
    destruct (build_model (length (MODEL_TOPICS st))) as [m|] eqn:Eb; [|discriminate].
    cbn [tfModel set_modelTrained set_tfModel MODEL_TOPICS] in Hrun.
    destruct (predict m _) as [pred|] eqn:Ep; [|discriminate].
    destruct (nth_error pred 0) as [row|] eqn:Er; [|discriminate].
    destruct (nth_error row 2) as [score|] eqn:Es; [|discriminate].
    injection Hrun as <- <-.
    exists m, pred, row, score. repeat split; auto.
Qed.

(** X15. The analyzer of the backup builds a new model before it
    predicts, so that it predicts with a model that has not been fitted
    ([modelTrained] is false afterwards), and it gives every topic the
    same score, the third entry of the one prediction: its topics are the
    whole vocabulary when that score is above 0.1, and none otherwise. *)
Theorem backup_selects_all_topics_or_none (st st' : ModelState Model)
    (interactionsObj : Obj.t Interaction) (res : InterestNames) :
  analyzeInteractions build_model predict st interactionsObj = Fulfilled st' res ->
  (n_topics res = MODEL_TOPICS st \/ n_topics res = [])
  /\ MODEL_TOPICS st' = MODEL_TOPICS st
  /\ (MODEL_TOPICS st <> [] ->
      modelTrained st' = false
      /\ exists m, build_model (length (MODEL_TOPICS st)) = Some m /\ tfModel st' = Some m).
Proof.
  intros H. apply fulfilled_cases in H.
  destruct H as [(Hv & -> & ->) | (Hv & m & pred & row & score & Hb & -> & _ & _ & _ & ->)].
  - simpl. split; [auto|]. split; [reflexivity|]. intros Hne. contradiction.
  - cbn [n_topics]. rewrite cut_flat. split; [|split; [reflexivity|]].
    + destruct (JS.gt score 0.1); auto.
    + intros _. split; [reflexivity|]. exists m. auto.
Qed.

(** X16. The hashtags the analyzer of the backup returns are hashtags of
    the records: no hashtag is returned twice, and each one occurs in some
    record of the store. *)
Theorem backup_hashtags_come_from_records (st st' : ModelState Model)
    (interactionsObj : Obj.t Interaction) (res : InterestNames) :
  analyzeInteractions build_model predict st interactionsObj = Fulfilled st' res ->
  NoDup (n_hashtags res)
  /\ forall h, In h (n_hashtags res) ->
               exists inter, In inter (Obj.values interactionsObj)
                             /\ In h (list_or_empty (hashtags inter)).
Proof.
  intros H. apply fulfilled_cases in H.
  destruct H as [(Hv & -> & ->) | (Hv & m & pred & row & score & _ & _ & _ & _ & _ & ->)].
  - simpl. split; [constructor | intros h []].
  - cbn [n_hashtags].
    destruct (hashtagCounts_from (Obj.values interactionsObj) Obj.empty) as [Hn Hk];
      [constructor|].
    destruct (cut_names 0 (Obj.entries (hashtagCounts (Obj.values interactionsObj))))
      as [Hsub Hnd].
    split; [apply Hnd; exact Hn|].
    intros h Hin. apply Hsub in Hin. destruct (Hk h Hin) as [[] | Hex]. exact Hex.
Qed.

End AnalyzerFacts.

Lemma backup_selects_all_topics_or_none_witness :
  let st := Examples.untrained ["sports"%string; "food"%string] [] in
  let st' := mkState (Some 0) false false None ["sports"%string; "food"%string] [] in
  (["sports"%string; "food"%string] = MODEL_TOPICS st
   \/ ["sports"%string; "food"%string] = [])
  /\ MODEL_TOPICS st' = MODEL_TOPICS st
  /\ (MODEL_TOPICS st <> [] ->
      modelTrained st' = false
      /\ exists m, Examples.toy_build (length (MODEL_TOPICS st)) = Some m
                   /\ tfModel st' = Some m).
Proof.
  apply (backup_selects_all_topics_or_none nat Examples.toy_build Examples.toy_predict
           (Examples.untrained ["sports"%string; "food"%string] [])
           (mkState (Some 0) false false None ["sports"%string; "food"%string] [])
           [("p1"%string, Examples.liked_long)]
           (mkNames ["sports"%string; "food"%string] ["#ball"%string])).
  vm_compute. reflexivity.
Defined.

Lemma backup_hashtags_come_from_records_witness :
  NoDup ["#ball"%string]
  /\ forall h, In h ["#ball"%string] ->
               exists inter, In inter [Examples.liked_long]
                             /\ In h (list_or_empty (hashtags inter)).
Proof.
  apply (backup_hashtags_come_from_records nat Examples.toy_build Examples.toy_predict
           (Examples.untrained ["sports"%string; "food"%string] [])
           (mkState (Some 0) false false None ["sports"%string; "food"%string] [])
           [("p1"%string, Examples.liked_long)]
           (mkNames ["sports"%string; "food"%string] ["#ball"%string])).
  vm_compute. reflexivity.
Defined.

End BackupFacts.

(** ** More on the rule-based scorer *)

Module SelectionFacts.
Import ScorerFacts.

Lemma bump_unmentioned (key : string) (score : float) (names : list string) (d : ScoreData) :
  includes names key = false ->
  fold_left (fun d name => if String.eqb name key then Spec.bump score d else d) names d = d.
Proof.
  unfold includes. revert d. induction names as [|x names IH]; intros d H; simpl in *.
  - reflexivity.
  - apply orb_false_iff in H. destruct H as [Hx Hrest].
    rewrite String.eqb_sym, Hx. now apply IH.
Qed.

(** The accumulator of a name no record mentions stays at zero. *)
Lemma tally_unmentioned (field : Interaction -> option (list string)) (key : string)
    (interactions : list Interaction) :
  mentioned field key interactions = false ->
  Spec.tally field key interactions = zero_score.
Proof.
  unfold Spec.tally, mentioned. generalize zero_score as d.
  induction interactions as [|inter interactions IH]; intros d H; simpl in *; [reflexivity|].
  apply orb_false_iff in H. destruct H as [Hi Hrest].
  rewrite bump_unmentioned by assumption. now apply IH.
Qed.

(** The weight of a zeroed accumulator is not above the threshold,
    whatever the number of records. *)
Lemma zero_weight (x : float) : (0.1 <? 0.6 * 0 + 0.4 * ((0 - 0) / x))%float = false.
Proof.
  rewrite ltb_spec, add_spec, (mul_spec 0.4), div_spec.
  destruct (Prim2SF x) as [s|s| |s m e]; try destruct s; vm_compute; reflexivity.
Qed.

Lemma selection_mentioned field keys interactions e :
  In e (Spec.selection field keys interactions) -> mentioned field (name e) interactions = true.
Proof.
  intros Hin.
  pose proof (selection_entries field keys interactions) as Hall.
  rewrite Forall_forall in Hall. destruct (Hall e Hin) as (He & _ & Habove & _).
  destruct (mentioned field (name e) interactions) eqn:Em; [reflexivity|].
  rewrite He in Habove. unfold Spec.entry_of in Habove. cbn [weight name] in Habove.
  rewrite (tally_unmentioned _ _ _ Em) in Habove.
  unfold Spec.weight_of in Habove. cbn [count positive negative zero_score] in Habove.
  change (0 <? 0)%float with false in Habove. cbv iota in Habove.
  rewrite zero_weight in Habove. discriminate Habove.
Qed.

(** X17. The rule-based scorer selects only names it has evidence for:
    every topic (hashtag) of its result occurs among the topics (hashtags)
    of at least one record. A name of the vocabulary that no record
    mentions is never returned. *)
Theorem selected_names_are_mentioned
    (MODEL_TOPICS MODEL_HASHTAGS : list string) (interactions : list Interaction) :
  let result := analyzeWithoutModel MODEL_TOPICS MODEL_HASHTAGS interactions in
  Forall (fun e => mentioned topics (name e) interactions = true) (is_topics result)
  /\ Forall (fun e => mentioned hashtags (name e) interactions = true) (is_hashtags result).
Proof.
  cbv zeta. rewrite analyzeWithoutModel_selection. cbn [is_topics is_hashtags].
  split; apply Forall_forall; intros e He; now apply selection_mentioned in He.
Qed.

Lemma selection_NoDup field keys interactions :
  NoDup keys -> NoDup (map name (Spec.selection field keys interactions)).
Proof.
  intros H. unfold Spec.selection.
  apply BackupFacts.NoDup_map_firstn, BackupFacts.NoDup_map_filter.
  apply Permutation_NoDup
    with (l := map name (filter (fun e => negb (weight e =? 0)%float)
                           (map (Spec.entry_of field interactions) keys))).
  - apply Permutation_map. symmetry. apply SortFacts.js_sort_perm.
  - apply BackupFacts.NoDup_map_filter. rewrite map_map. simpl. now rewrite map_id.
Qed.

(** X18. The rule-based scorer returns no name twice, even when the
    vocabulary lists a name more than once. *)
Theorem selected_names_are_distinct
    (MODEL_TOPICS MODEL_HASHTAGS : list string) (interactions : list Interaction) :
  let result := analyzeWithoutModel MODEL_TOPICS MODEL_HASHTAGS interactions in
  NoDup (map name (is_topics result)) /\ NoDup (map name (is_hashtags result)).
Proof.
  cbv zeta. rewrite analyzeWithoutModel_selection. cbn [is_topics is_hashtags].
  split; apply selection_NoDup, NoDup_keys_init.
Qed.

End SelectionFacts.

(** ** The result of an analysis, on either path *)

Section AnalysisFacts.
Variable Model : Type.
Variable build_model : nat -> option Model.
Variable predict : Model -> list (list float) -> option (list (list float)).
Implicit Types (st : ModelState Model).

Lemma score_names_names (preds : list (list float)) (names : list string) :
  forall i l, score_names preds i names = Some l -> map name l = names.
Proof.
  induction names as [|t names IH]; intros i l; simpl.
  - now intros [= <-].
  - destruct (contrast preds i) as [w|]; [|discriminate].
    destruct (score_names preds (S i) names) as [rest|] eqn:Er; [|discriminate].
    intros [= <-]. simpl. f_equal. now apply IH with (S i).
Qed.

Lemma select_entries (scored : list WeightedEntry) :
  Forall (fun e => In e scored /\ JS.gt (weight e) 0.1 = true) (select scored)
  /\ length (select scored) <= 10.
Proof.
  unfold select. split.
  - apply Forall_forall. intros e He. apply filter_In in He. destruct He as [He Hw].
    split; [|assumption]. apply ListFacts.In_firstn in He.
    now apply (proj1 (SortFacts.js_sort_In _ _ _)) in He.
  - pose proof (SplitFacts.findNaturalSplit_le (js_sort by_weight_desc scored) 0.1) as Hs.
    pose proof (filter_length_le (fun e => JS.gt (weight e) 0.1)
                  (firstn (findNaturalSplit (js_sort by_weight_desc scored) 0.1)
                          (js_sort by_weight_desc scored))) as Hf.
    rewrite length_firstn in Hf. lia.
Qed.

Lemma loadModel_body_keeps (force : bool) st :
  MODEL_TOPICS (loadModel_body build_model force st) = MODEL_TOPICS st
  /\ MODEL_HASHTAGS (loadModel_body build_model force st) = MODEL_HASHTAGS st
  /\ modelTraining (loadModel_body build_model force st) = modelTraining st
  /\ modelTrainingPromise (loadModel_body build_model force st) = modelTrainingPromise st.
Proof.
  unfold loadModel_body. destruct (negb (is_some (tfModel st)) || force); [|auto].
  destruct (length (MODEL_TOPICS st) =? 0); [simpl; auto|].
  destruct (build_model _); simpl; auto.
Qed.

Lemma select_named (names : list string) (l : list WeightedEntry) :
  map name l = names ->
  Forall (fun e => In (name e) names /\ JS.gt (weight e) 0.1 = true) (select l).
Proof.
  intros <-. destruct (select_entries l) as [H _].
  rewrite Forall_forall in *. intros e He. destruct (H e He) as [Hin Hw].
  split; [now apply in_map | assumption].
Qed.

Lemma rule_based_entries field V interactions :
  Forall (fun e => In (name e) V /\ JS.gt (weight e) 0.1 = true)
         (Spec.selection field (Obj.keys (init_scores V)) interactions)
  /\ length (Spec.selection field (Obj.keys (init_scores V)) interactions) <= 10.
Proof.
  split.
  - pose proof (ScorerFacts.selection_entries field (Obj.keys (init_scores V)) interactions)
      as H.
    rewrite Forall_forall in *. intros e He. destruct (H e He) as (_ & Hk & Hw & _).
    split; [exact (proj1 (ScorerFacts.keys_init V (name e)) Hk) | exact Hw].
  - pose proof (ScorerFacts.selection_length field (Obj.keys (init_scores V)) interactions).
    lia.
Qed.

(** X19. Whatever path [analyzeInteractions] takes (no data, the
    rule-based scorer, or the model), a result it returns names only
    topics of [MODEL_TOPICS] and hashtags of [MODEL_HASHTAGS], every one
    with a weight above 0.1, and at most ten of each; and the analysis
    leaves the vocabulary and the training flag as they were. *)
Theorem analysis_result_is_well_formed st (interactions : list Interaction)
    (st' : ModelState Model) (result : InterestSet) :
  analyzeInteractions build_model predict st interactions = Fulfilled st' result ->
  Forall (fun e => In (name e) (MODEL_TOPICS st) /\ JS.gt (weight e) 0.1 = true)
         (is_topics result)
  /\ Forall (fun e => In (name e) (MODEL_HASHTAGS st) /\ JS.gt (weight e) 0.1 = true)
            (is_hashtags result)
  /\ length (is_topics result) <= 10
  /\ length (is_hashtags result) <= 10
  /\ MODEL_TOPICS st' = MODEL_TOPICS st
  /\ MODEL_HASHTAGS st' = MODEL_HASHTAGS st
  /\ modelTraining st' = modelTraining st.
Proof.
  unfold analyzeInteractions.
  destruct (length (MODEL_TOPICS st) =? 0).
  { intros [= <- <-]. simpl. repeat split; auto; lia. }
  destruct (length interactions <? MIN_INTERACTIONS).
  { intros [= <- <-]. simpl. repeat split; auto; lia. }
  destruct (negb (modelTrained st)).
  { intros [= <- <-]. rewrite ScorerFacts.analyzeWithoutModel_selection.
    cbn [is_topics is_hashtags].
    destruct (rule_based_entries topics (MODEL_TOPICS st) interactions) as [T1 T2].
    destruct (rule_based_entries hashtags (MODEL_HASHTAGS st) interactions) as [H1 H2].
    repeat split; assumption. }
  intros H.
  assert (Hrun : analyze_with_model build_model predict st interactions = Fulfilled st' result).
  { destruct (loadModel_waits st); [|assumption].
    destruct (modelTrainingPromise st); [discriminate | assumption]. }
  clear H. unfold analyze_with_model in Hrun.
  destruct (loadModel_body_keeps false st) as (Kt & Kh & Kf & _).
  set (st1 := loadModel_body build_model false st) in *.
  destruct (tfModel st1) as [m|]; [|discriminate].
  destruct (predict m (topicInputs _)) as [topicPreds|]; [|discriminate].
  destruct (score_names topicPreds 0 (MODEL_TOPICS st1)) as [scoredTopics|] eqn:Et;
    [|discriminate].
  destruct (predict m (hashtagInputs st1 interactions)) as [hashtagPreds|]; [|discriminate].
  destruct (score_names hashtagPreds 0 (MODEL_HASHTAGS st1)) as [scoredHashtags|] eqn:Eh;
    [|discriminate].
  injection Hrun as <- <-. cbn [is_topics is_hashtags].
  apply score_names_names in Et. apply score_names_names in Eh.
  rewrite Kt in Et. rewrite Kh in Eh.
  repeat split; try assumption;
    try (now apply select_named); apply select_entries.
Qed.

End AnalysisFacts.

Lemma analysis_result_is_well_formed_witness :
  let st := mkState (Some 1) true false None ["sports"%string; "food"%string]
                    ["#ball"%string] in
  let result := mkInterest [mkEntry "sports" 0.3; mkEntry "food" 0.3]
                           [mkEntry "#ball" 0.3] in
  Forall (fun e => In (name e) (MODEL_TOPICS st) /\ JS.gt (weight e) 0.1 = true)
         (is_topics result)
  /\ Forall (fun e => In (name e) (MODEL_HASHTAGS st) /\ JS.gt (weight e) 0.1 = true)
            (is_hashtags result)
  /\ length (is_topics result) <= 10
  /\ length (is_hashtags result) <= 10
  /\ MODEL_TOPICS st = MODEL_TOPICS st
  /\ MODEL_HASHTAGS st = MODEL_HASHTAGS st
  /\ modelTraining st = modelTraining st.
Proof.
  apply (analysis_result_is_well_formed nat Examples.toy_build Examples.toy_predict
           (mkState (Some 1) true false None ["sports"%string; "food"%string]
                    ["#ball"%string])
           Examples.ten_liked).
  vm_compute. reflexivity.
Defined.

(** ** The batch the server returns *)

Module BatchFacts.
Import Server ServerFacts.

Lemma pool_positions_from (posts : list Post) (start : nat) :
  map fst (combine (seq start (length posts)) posts) = seq start (length posts).
Proof.
  revert start. induction posts as [|p posts IH]; intros start; simpl; [reflexivity|].
  now rewrite IH.
Qed.

(** The pool lists every post once, with its position. *)
Lemma pool_positions (posts : list Post) : map fst (pool posts) = seq 0 (length posts).
Proof. apply pool_positions_from. Qed.

Lemma pool_NoDup (posts : list Post) : NoDup (map fst (pool posts)).
Proof. rewrite pool_positions. apply seq_NoDup. Qed.

Lemma pool_length (posts : list Post) : length (pool posts) = length posts.
Proof.
  unfold pool. etransitivity; [apply length_combine|].
  rewrite length_seq. apply Nat.min_id.
Qed.

Lemma includes_post_In (l : list Candidate) (c : Candidate) :
  includes_post l c = true <-> In (fst c) (map fst l).
Proof.
  unfold includes_post. rewrite existsb_exists, in_map_iff. split.
  - intros [d [Hd He]]. apply Nat.eqb_eq in He. eauto.
  - intros [d [He Hd]]. exists d. split; [assumption | now apply Nat.eqb_eq].
Qed.

Lemma slice0_firstn {A : Type} (e : Z) (l : list A) : exists k, JS.slice0 e l = firstn k l.
Proof. unfold JS.slice0. destruct (e <? 0)%Z; eauto. Qed.

(** A prefix of a rearrangement of a selection from the pool is a
    selection from the pool. *)
Lemma selection_slice (posts : list Post) (e : Z) (l l' : list Candidate) :
  Permutation l' l ->
  incl l (pool posts) -> NoDup (map fst l) ->
  incl (JS.slice0 e l') (pool posts) /\ NoDup (map fst (JS.slice0 e l')).
Proof.
  intros Hperm Hin Hnd. destruct (slice0_firstn e l') as [k ->]. split.
  - intros c Hc. apply ListFacts.In_firstn in Hc. apply Hin.
    now apply (Permutation_in _ Hperm).
  - apply BackupFacts.NoDup_map_firstn.
    apply Permutation_NoDup with (l := map fst l); [|assumption].
    apply Permutation_map. now symmetry.
Qed.

Lemma relevant_selection (posts : list Post) (userTopics userHashtags : Interest) (limit : Z) :
  incl (relevant posts userTopics userHashtags limit) (pool posts)
  /\ NoDup (map fst (relevant posts userTopics userHashtags limit)).
Proof.
  unfold relevant.
  destruct (slice0_firstn (limit * 2) (ranked posts userTopics userHashtags)) as [k ->].
  rewrite <- firstn_map. split.
  - intros c Hc. apply ListFacts.In_firstn in Hc.
    now apply (Permutation_in _ (ranked_perm posts userTopics userHashtags)).
  - apply BackupFacts.NoDup_map_firstn.
    apply Permutation_NoDup with (l := map fst (pool posts)); [|apply pool_NoDup].
    apply Permutation_map. symmetry. apply ranked_perm.
Qed.

Section Batch.
Variable shuffle_noise : list Candidate -> list Candidate.
Variable shuffle_batch : list Candidate -> list Candidate.
Hypothesis shuffle_noise_perm : forall l, Permutation (shuffle_noise l) l.
Hypothesis shuffle_batch_perm : forall l, Permutation (shuffle_batch l) l.

Lemma noise_selection (posts : list Post) (core : list Candidate) (limit : Z) :
  Forall (fun c => In c (pool posts) /\ includes_post core c = false)
         (noise shuffle_noise posts core limit)
  /\ NoDup (map fst (noise shuffle_noise posts core limit)).
Proof.
  unfold noise.
  destruct (slice0_firstn (noiseCount limit) (shuffle_noise (excluded posts core))) as [k ->].
  split.
  - apply Forall_forall. intros c Hc. apply ListFacts.In_firstn in Hc.
    apply (Permutation_in _ (shuffle_noise_perm _)) in Hc.
    unfold excluded in Hc. apply filter_In in Hc. destruct Hc as [Hc Hex].
    split; [assumption | now apply negb_true_iff].
  - apply BackupFacts.NoDup_map_firstn.
    apply Permutation_NoDup with (l := map fst (excluded posts core)).
    + apply Permutation_map. symmetry. apply shuffle_noise_perm.
    + unfold excluded. apply BackupFacts.NoDup_map_filter, pool_NoDup.
Qed.

(** A core together with its noise is a selection from the pool. *)
Lemma core_noise_selection (posts : list Post) (core : list Candidate) (limit : Z) :
  incl core (pool posts) -> NoDup (map fst core) ->
  incl (core ++ noise shuffle_noise posts core limit) (pool posts)
  /\ NoDup (map fst (core ++ noise shuffle_noise posts core limit)).
Proof.
  intros Hin Hnd. destruct (noise_selection posts core limit) as [Hnoise Hnn].
  rewrite Forall_forall in Hnoise. split.
  - intros c Hc. apply in_app_or in Hc. destruct Hc as [Hc|Hc]; [now apply Hin|].
    now apply Hnoise.
  - rewrite map_app. apply NoDup_app; [assumption | assumption |].
    intros x Hx Hx'. apply in_map_iff in Hx'. destruct Hx' as [c [<- Hc]].
    destruct (Hnoise c Hc) as [_ Hout].
    apply includes_post_In in Hx. congruence.
Qed.

Lemma filtered_selection (posts : list Post) (userTopics userHashtags : Interest) (limit : Z) :
  incl (filtered shuffle_noise posts userTopics userHashtags limit) (pool posts)
  /\ NoDup (map fst (filtered shuffle_noise posts userTopics userHashtags limit)).
Proof.
  unfold filtered.
  destruct (carries_weights userTopics || carries_weights userHashtags).
  - cbv zeta. destruct (relevant_selection posts userTopics userHashtags limit) as [Hi Hn].
    now apply core_noise_selection.
  - destruct ((0 <? interest_length userTopics) || (0 <? interest_length userHashtags)).
    + cbv zeta. apply core_noise_selection.
      * intros c Hc. now apply filter_In in Hc.
      * apply BackupFacts.NoDup_map_filter, pool_NoDup.
    + split; [apply incl_refl | apply pool_NoDup].
Qed.

Lemma selection_length_le (posts : list Post) (l : list Candidate) :
  incl l (pool posts) -> NoDup (map fst l) -> length l <= length posts.
Proof.
  intros Hin Hnd.
  assert (H : length (map fst l) <= length (map fst (pool posts))).
  { apply NoDup_incl_length; [assumption|].
    intros x Hx. apply in_map_iff in Hx. destruct Hx as [c [<- Hc]].
    apply in_map. now apply Hin. }
  rewrite !length_map, pool_length in H. exact H.
Qed.


Lemma ranked_length (posts : list Post) (userTopics userHashtags : Interest) :
  length (ranked posts userTopics userHashtags) = length posts.
Proof.
  unfold ranked. rewrite SortFacts.js_sort_length, length_map. apply pool_length.
Qed.

(** X21. With weights in the request, or with no interest at all, a
    positive limit is met exactly whenever the pool is large enough: the
    batch has [limit] posts, or all the posts of the pool when there are
    fewer. *)
Theorem ranked_batch_is_full (posts : list Post) (limitParam : option Z)
    (userTopics userHashtags : Interest) :
  let r := handler shuffle_noise shuffle_batch posts limitParam userTopics userHashtags in
  (0 < r_limit r)%Z ->
  carries_weights userTopics || carries_weights userHashtags = true
  \/ (interest_length userTopics = 0 /\ interest_length userHashtags = 0) ->
  Z.of_nat (length (r_posts r)) = Z.min (r_limit r) (Z.of_nat (length posts)).
Proof.
  cbv zeta. unfold handler. cbn [r_posts r_limit]. intros Hpos Hpath.
  set (limit := parse_limit limitParam) in *.
  rewrite slice0_length, (Permutation_length (shuffle_batch_perm _)).
  replace (limit <? 0)%Z with false by (symmetry; apply Z.ltb_ge; lia).
  destruct (filtered_selection posts userTopics userHashtags limit) as [Hi Hn].
  pose proof (selection_length_le posts _ Hi Hn) as Hle.
  assert (Hge : Nat.min (Z.to_nat (limit * 2)) (length posts)
                <= length (filtered shuffle_noise posts userTopics userHashtags limit)).
  { unfold filtered. destruct Hpath as [-> | [Ht Hh]].
    - cbv zeta. rewrite length_app. unfold relevant at 1.
      rewrite length_map, slice0_length, ranked_length.
      replace (limit * 2 <? 0)%Z with false by (symmetry; apply Z.ltb_ge; lia). lia.
    - assert (Hnone : carries_weights userTopics || carries_weights userHashtags = false).
      { destruct userTopics as [[|? ?]|?], userHashtags as [[|? ?]|?];
          simpl in *; try reflexivity; discriminate. }
      rewrite Hnone, Ht, Hh. simpl. rewrite pool_length. lia. }
  lia.
Qed.

(** X22. With weights in the request, the ranking only matters for a pool
    of more than twice the limit: when the pool has at most [2 × limit]
    posts, every post is a candidate and there is no noise, so that the
    batch is drawn from the whole pool whatever the weights are. *)
Theorem small_pool_is_not_ranked (posts : list Post) (userTopics userHashtags : Interest)
    (limit : Z) :
  carries_weights userTopics || carries_weights userHashtags = true ->
  (Z.of_nat (length posts) <= 2 * limit)%Z ->
  noise shuffle_noise posts (relevant posts userTopics userHashtags limit) limit = []
  /\ Permutation (filtered shuffle_noise posts userTopics userHashtags limit) (pool posts).
Proof.
  intros Hpath Hsmall.
  assert (Hcore : relevant posts userTopics userHashtags limit
                  = map fst (ranked posts userTopics userHashtags)).
  { unfold relevant. rewrite slice0_all; [reflexivity|]. rewrite ranked_length. lia. }
  assert (Hnone : excluded posts (relevant posts userTopics userHashtags limit) = []).
  { unfold excluded. rewrite Hcore.
    assert (Hall : forall c, In c (pool posts) ->
                     negb (includes_post (map fst (ranked posts userTopics userHashtags)) c)
                     = false).
    { intros c Hc. apply negb_false_iff, includes_post_In, in_map.
      apply Permutation_in with (l := pool posts); [|assumption].
      symmetry. apply ranked_perm. }
    revert Hall. generalize (pool posts) as l.
    induction l as [|c l IH]; intros Hall; simpl; [reflexivity|].
    rewrite (Hall c) by now left. apply IH. intros d Hd. apply Hall. now right. }
  assert (Hnoise : noise shuffle_noise posts (relevant posts userTopics userHashtags limit) limit
                   = []).
  { unfold noise. rewrite Hnone.
    pose proof (shuffle_noise_perm []) as Hp. symmetry in Hp.
    apply Permutation_nil in Hp. rewrite Hp.
    destruct (slice0_firstn (noiseCount limit) (@nil Candidate)) as [k ->].
    apply firstn_nil. }
  split; [exact Hnoise|].
  unfold filtered. rewrite Hpath. cbv zeta. rewrite Hnoise, app_nil_r, Hcore.
  apply ranked_perm.
Qed.


End Batch.


Lemma ranked_batch_is_full_witness :
  let r := handler (fun l => l) (@rev Candidate) Examples.five_posts (Some 2%Z)
             Examples.likes_sports (Weighted []) in
  Z.of_nat (length (r_posts r)) = Z.min (r_limit r) (Z.of_nat (length Examples.five_posts)).
Proof.
  apply (ranked_batch_is_full (fun l => l) (@rev Candidate)).
  - intros l. apply Permutation_refl.
  - intros l. symmetry. apply Permutation_rev.
  - reflexivity.
  - left. reflexivity.
Defined.

Lemma small_pool_is_not_ranked_witness :
  noise (fun l => l) Examples.five_posts
        (relevant Examples.five_posts Examples.likes_sports (Weighted []) 3) 3 = []
  /\ Permutation (filtered (fun l => l) Examples.five_posts Examples.likes_sports
                           (Weighted []) 3)
                 (pool Examples.five_posts).
Proof.
  apply (small_pool_is_not_ranked (fun l => l)).
  - intros l. apply Permutation_refl.
  - reflexivity.
  - vm_compute. discriminate.
Defined.


(** *** The relevant core *)

Lemma sorted_split {A : Type} (R : A -> A -> Prop) (l : list A) :
  StronglySorted R l ->
  forall k a b, In a (firstn k l) -> In b (skipn k l) -> R a b.
Proof.
  induction l as [|x l IH]; intros Hs k a b Ha Hb.
  - rewrite firstn_nil in Ha. destruct Ha.
  - destruct k as [|k]; simpl in *; [destruct Ha|].
    inversion Hs as [|? ? Hl Hx]; subst.
    destruct Ha as [<-|Ha].
    + rewrite Forall_forall in Hx. apply Hx. now apply ListFacts.In_skipn in Hb.
    + now apply (IH Hl k).
Qed.

Lemma ranked_scores (posts : list Post) (userTopics userHashtags : Interest)
    (c : Candidate) (sc : float) :
  In (c, sc) (ranked posts userTopics userHashtags) <->
  In c (pool posts) /\ sc = post_score (weightMap userTopics) (weightMap userHashtags) (snd c).
Proof.
  unfold ranked. rewrite SortFacts.js_sort_In, in_map_iff. split.
  - intros [c' [[= <- <-] Hc]]. auto.
  - intros [Hc ->]. exists c. auto.
Qed.

(** X24. With weights in the request, the relevant core holds the
    best-scored posts: when no score is [NaN], every post of the core
    scores at least as much as every post left out of it. *)
Theorem core_holds_the_best_scores (posts : list Post) (userTopics userHashtags : Interest)
    (limit : Z) (c d : Candidate) :
  Forall (fun post =>
            is_nan (post_score (weightMap userTopics) (weightMap userHashtags) post) = false)
         posts ->
  In c (relevant posts userTopics userHashtags limit) ->
  In d (pool posts) ->
  includes_post (relevant posts userTopics userHashtags limit) d = false ->
  (post_score (weightMap userTopics) (weightMap userHashtags) (snd d)
   <=? post_score (weightMap userTopics) (weightMap userHashtags) (snd c))%float = true.
Proof.
  intros Hnan Hc Hd Hout.
  pose proof (ranked_descending posts userTopics userHashtags Hnan) as Hsorted.
  unfold relevant in *.
  destruct (slice0_firstn (limit * 2) (ranked posts userTopics userHashtags)) as [k Hk].
  rewrite Hk in *.
  apply in_map_iff in Hc. destruct Hc as [[c' sc] [Hfst Hc]]. simpl in Hfst. subst c'.
  assert (Hsc : sc = post_score (weightMap userTopics) (weightMap userHashtags) (snd c)).
  { apply ListFacts.In_firstn in Hc. now apply ranked_scores in Hc. }
  assert (Hd' : In (d, post_score (weightMap userTopics) (weightMap userHashtags) (snd d))
                   (ranked posts userTopics userHashtags))
    by (apply ranked_scores; auto).
  rewrite <- (firstn_skipn k (ranked posts userTopics userHashtags)) in Hd'.
  apply in_app_or in Hd'. destruct Hd' as [Hd'|Hd'].
  - exfalso.
    assert (Hin : includes_post (map fst (firstn k (ranked posts userTopics userHashtags))) d
                  = true).
    { apply includes_post_In. apply in_map.
      apply in_map_iff. eexists. split; [|exact Hd']. reflexivity. }
    congruence.
  - pose proof (sorted_split _ _ Hsorted k _ _ Hc Hd') as Hle.
    unfold descending in Hle. simpl in Hle. now rewrite Hsc in Hle.
Qed.

Lemma core_holds_the_best_scores_witness :
  let score := post_score (weightMap Examples.likes_sports) (weightMap (Weighted [])) in
  (score (mkPost (Some "p2"%string) (Some ["politics"%string]) None)
   <=? score (mkPost (Some "p0"%string) (Some ["sports"%string]) (Some ["#ball"%string])))%float
  = true.
Proof.
  apply (core_holds_the_best_scores Examples.five_posts Examples.likes_sports (Weighted []) 1
           (0, mkPost (Some "p0"%string) (Some ["sports"%string]) (Some ["#ball"%string]))
           (2, mkPost (Some "p2"%string) (Some ["politics"%string]) None)).
  - repeat constructor.
  - vm_compute. auto.
  - vm_compute. auto.
  - vm_compute. reflexivity.
Defined.

End BatchFacts.

(** ** A training run that succeeds *)

Section TrainingSuccess.
Variable Model : Type.
Variable build_model : nat -> option Model.
Variable fit : Model -> list (list float) -> list (list float) -> option Model.

Lemma examples_usable (V : list string) (l : list Interaction) :
  V <> [] ->
  existsb (fun inter => is_some (topics inter)) l = true ->
  (0 <? length (fst (build_examples V l)))
  && (0 <? length (hd [] (fst (build_examples V l)))) = true.
Proof.
  intros HV Hex. unfold build_examples. rewrite build_examples_from. cbn [fst app].
  apply existsb_exists in Hex. destruct Hex as [inter [Hin Htop]].
  assert (Hf : In inter (filter (fun i => is_some (topics i)) l)) by (apply filter_In; auto).
  destruct (filter (fun i => is_some (topics i)) l) as [|first rest]; [destruct Hf|].
  cbn [map length hd]. unfold membership. rewrite length_map.
  destruct V; [contradiction | reflexivity].
Qed.

(** X25. A training run that meets no obstacle marks the model as
    trained: called while no run is in flight, with a vocabulary, at least
    ten records of which one of the last hundred has a [topics] array, and
    when the model can be built and [fit] succeeds on the examples,
    [trainModel] returns with [tfModel] the fitted model, [modelTrained]
    true, [modelTraining] false and no pending promise. *)
Theorem successful_training_marks_the_model (st : ModelState Model)
    (interactionsArr : list Interaction) (m m' : Model) :
  modelTraining st = false ->
  MODEL_TOPICS st <> [] ->
  MIN_INTERACTIONS <= length interactionsArr ->
  existsb (fun inter => is_some (topics inter)) (JS.slice_last 100 interactionsArr) = true ->
  build_model (length (MODEL_TOPICS st)) = Some m ->
  fit m (fst (build_examples (MODEL_TOPICS st) (JS.slice_last 100 interactionsArr)))
        (snd (build_examples (MODEL_TOPICS st) (JS.slice_last 100 interactionsArr)))
  = Some m' ->
  trainModel build_model fit st interactionsArr
  = (mkState (Some m') true false None (MODEL_TOPICS st) (MODEL_HASHTAGS st), Returned).
Proof.
  intros Hidle HV Hlen Hex Hbuild Hfit.
  assert (Hvoc : (length (MODEL_TOPICS st) =? 0) = false).
  { apply Nat.eqb_neq. intros H0. apply length_zero_iff_nil in H0. contradiction. }
  unfold trainModel, trainModel_call. rewrite Hidle, Hvoc. cbn [orb].
  replace (length interactionsArr <? MIN_INTERACTIONS) with false
    by (symmetry; apply Nat.ltb_ge; exact Hlen).
  unfold loadModel_body. rewrite orb_true_r, Hvoc, Hbuild.
  cbn [resume]. unfold trainModel_after_load.
  cbn [MODEL_TOPICS set_modelTrainingPromise set_modelTraining set_modelTrained set_tfModel].
  pose proof (examples_usable (MODEL_TOPICS st) (JS.slice_last 100 interactionsArr) HV Hex)
    as Huse.
  destruct (build_examples (MODEL_TOPICS st) (JS.slice_last 100 interactionsArr))
    as [xs ys].
  cbn [fst snd] in *. rewrite Huse.
  cbn [tfModel set_modelTrainingPromise set_modelTraining set_modelTrained set_tfModel resume].
  unfold trainModel_after_fit. rewrite Hfit. reflexivity.
Qed.

End TrainingSuccess.

Lemma successful_training_marks_the_model_witness :
  trainModel Examples.toy_build Examples.toy_fit
    (Examples.untrained ["sports"%string] []) Examples.ten_liked
  = (mkState (Some 1) true false None ["sports"%string] [], Returned).
Proof.
  apply (successful_training_marks_the_model nat Examples.toy_build Examples.toy_fit
           (Examples.untrained ["sports"%string] []) Examples.ten_liked 0 1).
  - reflexivity.
  - discriminate.
  - vm_compute. lia.
  - vm_compute. reflexivity.
  - reflexivity.
  - reflexivity.
Defined.
